(** * JSMAssignment: assignment commands bound to JSM variables

    A shallow embedding of [include/JSMAssignment.hpp] of JoyShockMapper and
    the properties of its command grammar, default parser, chord composition
    and listener bookkeeping.

    The header is the one file at hand.  What it includes ([JSMVariable.hpp],
    [CmdRegistry.h], [JoyShockMapper.h]) is modelled from the specification
    where a definition says so, and left as a parameter otherwise. *)

From Stdlib Require Import ZArith String Ascii.
From stdpp Require Import base option list gmap strings pretty.

(** ** Characters of the "C" locale, as [std::regex_traits<char>] classifies them *)

Module CType.

Definition code (c : ascii) : N := N_of_ascii c.

Definition between (lo hi : N) (c : ascii) : bool :=
  ((lo <=? code c) && (code c <=? hi))%N.

(** [isspace]: space, \t, \n, \v, \f, \r. *)
Definition isspace (c : ascii) : bool :=
  ((code c =? 32) || between 9 13 c)%N.

Definition isdigit : ascii → bool := between 48 57.
Definition isupper : ascii → bool := between 65 90.
Definition islower : ascii → bool := between 97 122.
Definition isalnum (c : ascii) : bool := isdigit c || isupper c || islower c.

(** [\w] is [[_[:alnum:]]]. *)
Definition isword (c : ascii) : bool := isalnum c || (code c =? 95)%N.

Definition is_char (d c : ascii) : bool := bool_decide (c = d).

End CType.

(** ** A backtracking matcher for the fragment of ECMAScript regular
    expressions that [ParseData] uses

    Quantifiers are greedy and alternatives are tried in priority order, the
    first complete match wins; there is one capturing group at most. *)

Module Regex.

Inductive regex :=
  | Chr (c : ascii)                 (* a literal character *)
  | Star (cls : ascii → bool)       (* cls*, cls a one-character atom *)
  | Opt (r : regex)                 (* r? *)
  | Seq (r1 r2 : regex)             (* r1 r2 *)
  | Group (r : regex).              (* ( r ), capture 1 *)

Section Matcher.
Context {A : Type}.

(** A continuation receives what is left of the input and the text of
    capture 1 so far. *)
Definition cont := list ascii → option (list ascii) → option A.

Fixpoint star (cls : ascii → bool) (s : list ascii)
    (cap : option (list ascii)) (k : cont) : option A :=
  match s with
  | c :: s' =>
      if cls c then
        match star cls s' cap k with
        | Some a => Some a
        | None => k s cap
        end
      else k s cap
  | [] => k [] cap
  end.

Fixpoint run (r : regex) (s : list ascii) (cap : option (list ascii))
    (k : cont) : option A :=
  match r with
  | Chr d =>
      match s with
      | c :: s' => if CType.is_char d c then k s' cap else None
      | [] => None
      end
  | Star cls => star cls s cap k
  | Opt r' =>
      match run r' s cap k with
      | Some a => Some a
      | None => k s cap
      end
  | Seq r1 r2 => run r1 s cap (λ s' cap', run r2 s' cap' k)
  | Group r' =>
      run r' s cap (λ s' _, k s' (Some (take (length s - length s') s)))
  end.

End Matcher.

(** [std::regex_match]: the whole input has to be consumed.  The result is
    [results[1]], empty when the group did not take part. *)
Definition regex_match (r : regex) (arguments : string) : option string :=
  run r (list_ascii_of_string arguments) None
    (λ rest cap,
       match rest with
       | [] => Some (string_of_list_ascii (default [] cap))
       | _ :: _ => None
       end).

End Regex.

(** The pattern of [ParseData], piece by piece:
    \s* , =? , \s* , then the group ( [\^\+\w\s]* ). *)
Definition capture_class (c : ascii) : bool :=
  CType.is_char "^" c || CType.is_char "+" c || CType.isword c || CType.isspace c.

Definition assignment_regex : Regex.regex :=
  Regex.Seq (Regex.Star CType.isspace)
    (Regex.Seq (Regex.Opt (Regex.Chr "="))
       (Regex.Seq (Regex.Star CType.isspace)
          (Regex.Group (Regex.Star capture_class)))).

(** ** Identifiers and the collaborators a binding needs *)

(** [ButtonID] and [SettingID] are enums over [int]. *)
Abbreviation ButtonID := Z (only parsing).
Abbreviation SettingID := Z (only parsing).

(** Objects live at addresses: the commands of the registry and the variables
    of the program. *)
Abbreviation CmdAddr := nat (only parsing).
Abbreviation VarAddr := nat (only parsing).

(** The catalogue of buttons is declared outside this header and is a
    parameter: the resolver [magic_enum::enum_cast<ButtonID>], the [NONE]
    sentinel, and the stream insertion of both enums. *)
Class ButtonCatalogue := {
  enum_cast : string → option ButtonID;
  NONE : ButtonID;
  ButtonID_text : ButtonID → string;
  SettingID_text : SettingID → string;
}.

(** The codec every bindable [T] supplies: [stream_in] is [ss >> value]
    through a [stringstream] over the text, [None] when [ss.fail()];
    [stream_out] is [operator<<]. *)
Class Streamable (T : Type) := {
  stream_in : string → option T;
  stream_out : T → string;
}.

(** [DisplayNewValue] is a member of the class template with one explicit
    specialization; [display_text _name _displayName newValue] is the line
    it prints. *)
Class DisplayNewValueFor (T : Type) :=
  display_text : string → string → T → string.

(** The primary template. *)
Definition DisplayNewValue_primary {T} `{Streamable T} : DisplayNewValueFor T :=
  λ _name _displayName newValue,
    _displayName +:+ " has been set to " +:+ stream_out newValue.

(** Modelled from the spec: [EventMapping] is missing; an opaque value with an
    empty or non-empty mapping and a readable representation, the two members
    the specialization reads. *)
Record EventMapping := {
  eventMapping : list (Z * string);
  representation : string;
}.

(** The specialization for [EventMapping]. *)
Definition DisplayNewValue_EventMapping : DisplayNewValueFor EventMapping :=
  λ _name _displayName newValue,
    match eventMapping newValue with
    | [] => _name +:+ " mapped to no input"
    | _ :: _ => _name +:+ " mapped to " +:+ representation newValue
    end.

(** Modelled from the spec: [JSMButton::ProcessChordRemoval] and
    [JSMButton::ProcessSimPressRemoval] are missing; the spec has them
    finalize the removal of a binding and does not say for which binding
    values the slot is dropped, which is left to this predicate. *)
Class ChordRemovalPolicy (T : Type) := drops_binding : T → bool.

(** The constructor of [JSMCommand] is declared outside this header; the help
    text a command has before [SetHelp] is a parameter. *)
Class CommandBase := default_help : string.

(** ** Output *)

(** Every [cout << ... << endl] statement appends one line; the line is kept
    together with the statement that wrote it. *)
Inductive Origin :=
  | ByParseData (this : CmdAddr)          (* the help text *)
  | ByDefaultParser (this : CmdAddr)      (* "<displayName> = <value>" *)
  | ByDisplayNewValue (this : CmdAddr)    (* the value-changed line *)
  | ByModeshiftParser                     (* the removal confirmation *)
  | ByOtherListener.                      (* a subscriber that is no command *)

Global Instance Origin_eq_dec : EqDecision Origin.
Proof. solve_decision. Defined.

Abbreviation Line := (Origin * string)%type (only parsing).

(** What the terminal shows. *)
Definition text_of (out : list Line) : list string := snd <$> out.

(** How many lines of [out] the statement [o] wrote. *)
Definition lines_by (o : Origin) (out : list Line) : nat :=
  length (filter (λ l, l.1 = o) out).

(** Whether [DisplayNewValue] wrote the line, of whichever command. *)
Definition is_value_changed (l : Line) : bool :=
  match l.1 with
  | ByDisplayNewValue _ => true
  | _ => false
  end.

(** How many value-changed lines [out] has. *)
Definition value_changed_lines (out : list Line) : nat :=
  length (filter (λ l, is_value_changed l) out).

(** ** Variables *)

(** A bound delegate of [AddOnChangeListener]: the one this header binds,
    [bind(&JSMAssignment::DisplayNewValue, this, _1)], or the callback of
    another subscriber, which here only writes lines. *)
Inductive OnChangeDelegate (T : Type) :=
  | DisplayNewValueOf (this : CmdAddr)
  | OtherListener (say : T → list string).
Global Arguments DisplayNewValueOf {T} this.
Global Arguments OtherListener {T} say.

(** Modelled from the spec: [JSMVariable<T>] is missing ([JSMVariable.hpp]).
    A cell with its change notifier: the listeners in subscription order under
    their ids, the next id to hand out, and the normalization that a write
    passes through, applied to the stored and the requested value. *)
Record JSMVariable (T : Type) := {
  _value : T;
  _filter : T → T → T;
  _onChangeListeners : list (nat * OnChangeDelegate T);
  _delegateID : nat;
}.
Global Arguments _value {T} _.
Global Arguments _filter {T} _.
Global Arguments _onChangeListeners {T} _.
Global Arguments _delegateID {T} _.

(** Modelled from the spec: [JSMSetting<T>] and [JSMButton] are missing; with
    the plain variable they are the three shapes a command binds to.  An
    overridable setting owns one child per chord and keeps the chords marked
    for removal; an overridable button owns the chorded and the
    simultaneous-press bindings in two maps.  A map holds the address of each
    child it owns; the children are plain variables. *)
Inductive VarObj (T : Type) :=
  | PlainVariable (x : JSMVariable T)
  | JSMSetting (_id : SettingID) (x : JSMVariable T)
      (_chordedVariables : gmap Z nat) (_chordsToRemove : gset Z)
  | JSMButton (x : JSMVariable T)
      (_chordedVariables : gmap Z nat) (_simMappings : gmap Z nat).
Global Arguments PlainVariable {T} x.
Global Arguments JSMSetting {T} _id x _chordedVariables _chordsToRemove.
Global Arguments JSMButton {T} x _chordedVariables _simMappings.

(** ** Commands *)

(** The parse functions of this header, as [SetParser] receives them:
    [&DefaultParser], and [bind(&ModeshiftParser, btn, settingVar, _1, _2)],
    whose pointer to the setting may be null. *)
Inductive ParseDelegate :=
  | DefaultParserFn
  | ModeshiftParserFn (modeshift : ButtonID) (setting : option VarAddr).

(** The tasks [GetModifiedCmd] binds for [SetTaskOnDestruction]. *)
Inductive Task :=
  | ProcessModeshiftRemovalTask (setting : VarAddr) (btn : ButtonID)
  | ProcessChordRemovalTask (button : VarAddr) (btn : ButtonID) (chordedVar : VarAddr)
  | ProcessSimPressRemovalTask (button : VarAddr) (btn : ButtonID) (simPressVar : VarAddr).

(** The members of [JSMAssignment<T>], after those it inherits.
    Modelled from the spec: [JSMCommand] is missing ([CmdRegistry.h]); a
    command has a name, a help text, a parse function and an optional
    teardown task.  [_var] is the address of the variable the reference is
    bound to. *)
Record JSMAssignment := {
  _name : string;
  _help : string;
  _parse : ParseDelegate;
  _taskOnDestruction : option Task;
  _var : VarAddr;
  _displayName : string;
  _listenerId : nat;
}.

(** Modelled from the spec: [JSMCommand::SetHelp] is missing; the setters
    store their argument and return the command. *)
Definition SetHelp (help : string) (c : JSMAssignment) : JSMAssignment :=
  {| _name := _name c; _help := help; _parse := _parse c;
     _taskOnDestruction := _taskOnDestruction c; _var := _var c;
     _displayName := _displayName c; _listenerId := _listenerId c |}.

(** Modelled from the spec: [JSMCommand::SetParser] is missing. *)
Definition SetParser (parser : ParseDelegate) (c : JSMAssignment) : JSMAssignment :=
  {| _name := _name c; _help := _help c; _parse := parser;
     _taskOnDestruction := _taskOnDestruction c; _var := _var c;
     _displayName := _displayName c; _listenerId := _listenerId c |}.

(** Modelled from the spec: [JSMCommand::SetTaskOnDestruction] is missing. *)
Definition SetTaskOnDestruction (task : Task) (c : JSMAssignment) : JSMAssignment :=
  {| _name := _name c; _help := _help c; _parse := _parse c;
     _taskOnDestruction := Some task; _var := _var c;
     _displayName := _displayName c; _listenerId := _listenerId c |}.

(** ** The program state *)

(** The variables and the commands that are alive, each under its address;
    an address is handed out once.  [cout] holds the lines written so far. *)
Record State (T : Type) := {
  vars : gmap nat (VarObj T);
  next_var : nat;
  cmds : gmap nat JSMAssignment;
  next_cmd : nat;
  cout : list Line;
}.
Global Arguments vars {T} _.
Global Arguments next_var {T} _.
Global Arguments cmds {T} _.
Global Arguments next_cmd {T} _.
Global Arguments cout {T} _.

(** ** The operations

    An operation takes the state and returns the new state with its result.
    It returns [None] where the C++ has no defined behaviour: a reference or
    a pointer is used after its object is gone. *)

Section Operations.
Context {T : Type} `{!EqDecision T, !Streamable T, !DisplayNewValueFor T}.
Context `{!ChordRemovalPolicy T, !ButtonCatalogue, !CommandBase}.

Definition with_vars (st : State T) (vs : gmap nat (VarObj T)) : State T :=
  {| vars := vs; next_var := next_var st;
     cmds := cmds st; next_cmd := next_cmd st; cout := cout st |}.

Definition with_cmds (st : State T) (cs : gmap nat JSMAssignment) : State T :=
  {| vars := vars st; next_var := next_var st;
     cmds := cs; next_cmd := next_cmd st; cout := cout st |}.

(** [cout << ... << endl], for each line of [out] in turn. *)
Definition print (st : State T) (out : list Line) : State T :=
  {| vars := vars st; next_var := next_var st;
     cmds := cmds st; next_cmd := next_cmd st; cout := cout st ++ out |}.

(** A new variable object, at an address never used before. *)
Definition alloc_var (st : State T) (o : VarObj T) : State T * VarAddr :=
  ({| vars := <[next_var st := o]> (vars st); next_var := S (next_var st);
      cmds := cmds st; next_cmd := next_cmd st; cout := cout st |},
   next_var st).

(** *** References into the store *)

Definition base (o : VarObj T) : JSMVariable T :=
  match o with
  | PlainVariable x | JSMSetting _ x _ _ | JSMButton x _ _ => x
  end.

Definition set_base (y : JSMVariable T) (o : VarObj T) : VarObj T :=
  match o with
  | PlainVariable _ => PlainVariable y
  | JSMSetting id _ m rm => JSMSetting id y m rm
  | JSMButton _ m sm => JSMButton y m sm
  end.

(** The [JSMVariable<T>] part of the object a reference is bound to; [None]
    once the object is gone. *)
Definition deref (vs : gmap nat (VarObj T)) (r : VarAddr) : option (JSMVariable T) :=
  base <$> vs !! r.

Definition store (vs : gmap nat (VarObj T)) (r : VarAddr) (y : JSMVariable T)
    : gmap nat (VarObj T) :=
  alter (set_base y) r vs.

(** *** The change notifier *)

Definition set_value (x : JSMVariable T) (v : T) : JSMVariable T :=
  {| _value := v; _filter := _filter x;
     _onChangeListeners := _onChangeListeners x; _delegateID := _delegateID x |}.

Definition set_listeners (x : JSMVariable T)
    (ls : list (nat * OnChangeDelegate T)) (next : nat) : JSMVariable T :=
  {| _value := _value x; _filter := _filter x;
     _onChangeListeners := ls; _delegateID := next |}.

(** Modelled from the spec: [AddOnChangeListener] is missing.  It subscribes
    the callback after the ones present and returns its id; ids increase. *)
Definition AddOnChangeListener (x : JSMVariable T) (d : OnChangeDelegate T)
    : JSMVariable T * nat :=
  (set_listeners x (_onChangeListeners x ++ [(_delegateID x, d)]) (S (_delegateID x)),
   _delegateID x).

(** Modelled from the spec: [RemoveOnChangeListener] is missing.  It drops the
    listener of that id and does nothing for an unknown id. *)
Definition RemoveOnChangeListener (x : JSMVariable T) (id : nat) : JSMVariable T :=
  set_listeners x (filter (λ l, l.1 ≠ id) (_onChangeListeners x)) (_delegateID x).

(** The line [DisplayNewValue] of the command [c] at [this] writes. *)
Definition DisplayNewValue_line (this : CmdAddr) (c : JSMAssignment) (newValue : T) : Line :=
  (ByDisplayNewValue this, display_text (_name c) (_displayName c) newValue).

(** [void DisplayNewValue(T newValue)] of the command at [this]. *)
Definition DisplayNewValue (st : State T) (this : CmdAddr) (newValue : T)
    : option (State T) :=
  c ← cmds st !! this;
  Some (print st [DisplayNewValue_line this c newValue]).

(** What one listener writes when it is called; a delegate bound to a command
    that is gone has no defined behaviour. *)
Definition call_delegate (cs : gmap nat JSMAssignment) (d : OnChangeDelegate T)
    (v : T) : option (list Line) :=
  match d with
  | DisplayNewValueOf this =>
      c ← cs !! this; Some [DisplayNewValue_line this c v]
  | OtherListener say => Some ((λ s, (ByOtherListener, s)) <$> say v)
  end.

(** Modelled from the spec: [notify(value)] calls the subscribed callbacks in
    subscription order. *)
Fixpoint notify (cs : gmap nat JSMAssignment)
    (ls : list (nat * OnChangeDelegate T)) (v : T) : option (list Line) :=
  match ls with
  | [] => Some []
  | l :: ls' =>
      out ← call_delegate cs l.2 v;
      rest ← notify cs ls' v;
      Some (out ++ rest)
  end.

(** Modelled from the spec: [JSMVariable<T>::operator=] is missing.  It stores
    the value after normalization, notifies when the stored value differs from
    the one stored before, and returns the value now stored. *)
Definition assign (st : State T) (r : VarAddr) (newValue : T) : option (State T * T) :=
  x ← deref (vars st) r;
  let oldValue := _value x in
  let stored := _filter x oldValue newValue in
  let st' := with_vars st (store (vars st) r (set_value x stored)) in
  if decide (stored = oldValue) then Some (st', stored)
  else out ← notify (cmds st) (_onChangeListeners x) stored;
       Some (print st' out, stored).

(** Modelled from the spec: [operator T()] and [get()] of [JSMVariable<T>]
    are missing; they read the value and do nothing else. *)
Definition get (st : State T) (r : VarAddr) : option T :=
  _value <$> deref (vars st) r.

(** *** Overridable settings and buttons *)

(** Modelled from the spec: the constructor of a child is missing.  Each
    entry owns its child, a variable with a notifier of its own; it starts
    from the value and the normalization of its parent. *)
Definition new_child (x : JSMVariable T) : JSMVariable T :=
  {| _value := _value x; _filter := _filter x;
     _onChangeListeners := []; _delegateID := 0 |}.

(** Modelled from the spec: [AtChord] is missing.  It fetches the child at the
    chord from the override map (the chord-bindings map of a button) and
    allocates it when there is none; the result is the pointer to the child. *)
Definition AtChord (st : State T) (parent : VarAddr) (chord : ButtonID)
    : option (State T * VarAddr) :=
  o ← vars st !! parent;
  match o with
  | PlainVariable _ => None
  | JSMSetting id x m rm =>
      match m !! chord with
      | Some p => Some (st, p)
      | None =>
          let '(st1, p) := alloc_var st (PlainVariable (new_child x)) in
          Some (with_vars st1
                  (<[parent := JSMSetting id x (<[chord := p]> m) rm]> (vars st1)), p)
      end
  | JSMButton x m sm =>
      match m !! chord with
      | Some p => Some (st, p)
      | None =>
          let '(st1, p) := alloc_var st (PlainVariable (new_child x)) in
          Some (with_vars st1
                  (<[parent := JSMButton x (<[chord := p]> m) sm]> (vars st1)), p)
      end
  end.

(** Modelled from the spec: [JSMButton::AtSimPress] is missing; the same over
    the simultaneous-press map. *)
Definition AtSimPress (st : State T) (button : VarAddr) (chord : ButtonID)
    : option (State T * VarAddr) :=
  o ← vars st !! button;
  match o with
  | JSMButton x m sm =>
      match sm !! chord with
      | Some p => Some (st, p)
      | None =>
          let '(st1, p) := alloc_var st (PlainVariable (new_child x)) in
          Some (with_vars st1
                  (<[button := JSMButton x m (<[chord := p]> sm)]> (vars st1)), p)
      end
  | _ => None
  end.

(** Drops the child that [m] owns at [chord], if any, from the store. *)
Definition drop_child (m : gmap Z nat) (chord : ButtonID)
    (vs : gmap nat (VarObj T)) : gmap nat (VarObj T) :=
  match m !! chord with
  | Some p => delete p vs
  | None => vs
  end.

(** Modelled from the spec: [JSMSetting::MarkModeshiftForRemoval] is missing;
    the first phase of the removal of an override. *)
Definition MarkModeshiftForRemoval (st : State T) (setting : VarAddr)
    (modeshift : ButtonID) : option (State T) :=
  o ← vars st !! setting;
  match o with
  | JSMSetting id x m rm =>
      Some (with_vars st (<[setting := JSMSetting id x m ({[modeshift]} ∪ rm)]> (vars st)))
  | _ => None
  end.

(** Modelled from the spec: [JSMSetting::ProcessModeshiftRemoval] is missing;
    the second phase drops the override that was marked. *)
Definition ProcessModeshiftRemoval (st : State T) (setting : VarAddr)
    (modeshift : ButtonID) : option (State T) :=
  o ← vars st !! setting;
  match o with
  | JSMSetting id x m rm =>
      if decide (modeshift ∈ rm) then
        Some (with_vars st
                (<[setting := JSMSetting id x (delete modeshift m) (rm ∖ {[modeshift]})]>
                   (drop_child m modeshift (vars st))))
      else Some st
  | _ => None
  end.

(** Modelled from the spec: [JSMButton::ProcessChordRemoval] is missing (see
    [ChordRemovalPolicy]); [chordedVar] is the pointer [AtChord] returned. *)
Definition ProcessChordRemoval (st : State T) (button : VarAddr)
    (chord : ButtonID) (chordedVar : VarAddr) : option (State T) :=
  o ← vars st !! button;
  value ← get st chordedVar;
  match o with
  | JSMButton x m sm =>
      if drops_binding value then
        Some (with_vars st
                (<[button := JSMButton x (delete chord m) sm]>
                   (drop_child m chord (vars st))))
      else Some st
  | _ => None
  end.

(** Modelled from the spec: [JSMButton::ProcessSimPressRemoval] is missing. *)
Definition ProcessSimPressRemoval (st : State T) (button : VarAddr)
    (chord : ButtonID) (simPressVar : VarAddr) : option (State T) :=
  o ← vars st !! button;
  value ← get st simPressVar;
  match o with
  | JSMButton x m sm =>
      if drops_binding value then
        Some (with_vars st
                (<[button := JSMButton x m (delete chord sm)]>
                   (drop_child sm chord (vars st))))
      else Some st
  | _ => None
  end.

(** [dynamic_cast<JSMSetting<T>*>(&_var)]: the pointer to the setting, or
    null for an object of another class.  The cast reads the object: on a
    reference whose object is gone it has no defined behaviour. *)
Definition as_JSMSetting (vs : gmap nat (VarObj T)) (r : VarAddr)
    : option (option VarAddr) :=
  o ← vs !! r;
  Some (match o with
        | JSMSetting _ _ _ _ => Some r
        | _ => None
        end).

(** [dynamic_cast<JSMButton*>(&_var)]. *)
Definition as_JSMButton (vs : gmap nat (VarObj T)) (r : VarAddr)
    : option (option VarAddr) :=
  o ← vs !! r;
  Some (match o with
        | JSMButton _ _ _ => Some r
        | _ => None
        end).

(** *** The parsers *)

(** [static bool DefaultParser(JSMCommand* cmd, in_string data)] *)
Definition DefaultParser (st : State T) (cmd : CmdAddr) (data : string)
    : option (State T * bool) :=
  inst ← cmds st !! cmd;
  if decide (data = "") then
    v ← get st (_var inst);
    Some (print st [(ByDefaultParser cmd,
                     _displayName inst +:+ " = " +:+ stream_out v)], true)
  else
    match stream_in data with
    | Some value =>
        oldVal ← get st (_var inst);
        '(st1, _) ← assign st (_var inst) value;
        now ← get st1 (_var inst);
        st2 ← (if decide (oldVal = now) then DisplayNewValue st1 cmd now
               else Some st1);
        Some (st2, bool_decide (value = oldVal) || bool_decide (now ≠ oldVal))
    | None => Some (st, false)
    end.

(** [static bool ModeshiftParser(ButtonID modeshift, JSMSetting<T> *setting,
    JSMCommand* cmd, in_string argument)] *)
Definition ModeshiftParser (st : State T) (modeshift : ButtonID)
    (setting : option VarAddr) (cmd : CmdAddr) (argument : string)
    : option (State T * bool) :=
  match setting with
  | Some s =>
      if decide (argument = "NONE") then
        st1 ← MarkModeshiftForRemoval st s modeshift;
        o ← vars st1 !! s;
        match o with
        | JSMSetting _id _ _ _ =>
            Some (print st1
                    [(ByModeshiftParser,
                      "Modeshift " +:+ ButtonID_text modeshift +:+ "," +:+
                      SettingID_text _id +:+ " has been removed.")],
                  true)
        | _ => None
        end
      else DefaultParser st cmd argument
  | None => DefaultParser st cmd argument
  end.

(** [_parse(this, results[1])] *)
Definition call_parse (st : State T) (parser : ParseDelegate) (this : CmdAddr)
    (data : string) : option (State T * bool) :=
  match parser with
  | DefaultParserFn => DefaultParser st this data
  | ModeshiftParserFn modeshift setting =>
      ModeshiftParser st modeshift setting this data
  end.

(** [virtual bool ParseData(in_string arguments) override] *)
Definition ParseData (st : State T) (this : CmdAddr) (arguments : string)
    : option (State T * bool) :=
  c ← cmds st !! this;
  if decide (arguments = "HELP") then
    Some (print st [(ByParseData this, _help c)], false)
  else
    match Regex.regex_match assignment_regex arguments with
    | Some results1 =>
        match call_parse st (_parse c) this results1 with
        | Some (st1, true) => Some (st1, true)
        | Some (st1, false) => Some (print st1 [(ByParseData this, _help c)], true)
        | None => None
        end
    | None => Some (st, false)
    end.

(** [inline T operator =(T newVal)] *)
Definition JSMAssignment_assign (st : State T) (this : CmdAddr) (newVal : T)
    : option (State T * T) :=
  c ← cmds st !! this;
  assign st (_var c) newVal.

(** *** Construction and destruction *)

(** [JSMAssignment(in_string name, in_string displayName, JSMVariable<T>& var)],
    with the object placed at a new address. *)
Definition JSMAssignment_new (st : State T) (name displayName : string)
    (var : VarAddr) : option (State T * CmdAddr) :=
  x ← deref (vars st) var;
  let this := next_cmd st in
  let '(x', id) := AddOnChangeListener x (DisplayNewValueOf this) in
  Some ({| vars := store (vars st) var x'; next_var := next_var st;
           cmds := <[this := {| _name := name; _help := default_help;
                                _parse := DefaultParserFn;
                                _taskOnDestruction := None; _var := var;
                                _displayName := displayName;
                                _listenerId := id |}]> (cmds st);
           next_cmd := S this; cout := cout st |}, this).

(** [JSMAssignment(in_string name, JSMVariable<T>& var)] *)
Definition JSMAssignment_new2 (st : State T) (name : string) (var : VarAddr)
    : option (State T * CmdAddr) :=
  JSMAssignment_new st name name var.

(** A task bound by [GetModifiedCmd], called. *)
Definition run_task (st : State T) (task : Task) : option (State T) :=
  match task with
  | ProcessModeshiftRemovalTask setting btn =>
      ProcessModeshiftRemoval st setting btn
  | ProcessChordRemovalTask button btn chordedVar =>
      ProcessChordRemoval st button btn chordedVar
  | ProcessSimPressRemovalTask button btn simPressVar =>
      ProcessSimPressRemoval st button btn simPressVar
  end.

(** Modelled from the spec: [~JSMCommand] is missing; it runs the teardown
    task, once, when there is one. *)
Definition JSMCommand_delete (st : State T) (c : JSMAssignment) : option (State T) :=
  match _taskOnDestruction c with
  | Some task => run_task st task
  | None => Some st
  end.

(** [virtual ~JSMAssignment()], then the destructor of the base class; after
    that the object is gone. *)
Definition JSMAssignment_delete (st : State T) (this : CmdAddr) : option (State T) :=
  c ← cmds st !! this;
  x ← deref (vars st) (_var c);
  let st1 := with_vars st
               (store (vars st) (_var c) (RemoveOnChangeListener x (_listenerId c))) in
  st2 ← JSMCommand_delete st1 c;
  Some (with_cmds st2 (delete this (cmds st2))).

(** *** Chord composition *)

(** Modelled from the spec: [JSMCommand::GetModifiedCmd] is missing; the
    default handling of a modifier does nothing and yields no command. *)
Definition JSMCommand_GetModifiedCmd (st : State T) (op : ascii) (chord : string)
    : option (State T * option CmdAddr) :=
  Some (st, None).

(** [chordAssignment->SetHelp(..)->SetParser(..)->SetTaskOnDestruction(..)] *)
Definition configure (st : State T) (cmd : CmdAddr) (help : string)
    (parser : ParseDelegate) (task : Task) : State T :=
  with_cmds st
    (alter (λ c, SetTaskOnDestruction task (SetParser parser (SetHelp help c)))
       cmd (cmds st)).

(** [virtual unique_ptr<JSMCommand> GetModifiedCmd(char op, in_string chord)
    override]; the result is the address of the new command or [nullptr]. *)
Definition GetModifiedCmd (st : State T) (this : CmdAddr) (op : ascii)
    (chord : string) : option (State T * option CmdAddr) :=
  c ← cmds st !! this;
  match enum_cast chord with
  | Some btn =>
      if bool_decide (NONE < btn)%Z then
        if decide (op = ","%char) then
          settingVar ← as_JSMSetting (vars st) (_var c);
          match settingVar with
          | Some settingVar =>
              let name := chord +:+ String op "" +:+ _displayName c in
              '(st1, child) ← AtChord st settingVar btn;
              '(st2, chordAssignment) ← JSMAssignment_new2 st1 name child;
              Some (configure st2 chordAssignment (_help c)
                      (ModeshiftParserFn btn (Some settingVar))
                      (ProcessModeshiftRemovalTask settingVar btn),
                    Some chordAssignment)
          | None =>
              buttonVar ← as_JSMButton (vars st) (_var c);
              match buttonVar with
              | Some buttonVar =>
                  if bool_decide (NONE < btn)%Z then
                    let name := chord +:+ String op "" +:+ _displayName c in
                    '(st1, chordedVar) ← AtChord st buttonVar btn;
                    '(st2, chordAssignment) ← JSMAssignment_new2 st1 name chordedVar;
                    Some (configure st2 chordAssignment (_help c) (_parse c)
                            (ProcessChordRemovalTask buttonVar btn chordedVar),
                          Some chordAssignment)
                  else JSMCommand_GetModifiedCmd st op chord
              | None => JSMCommand_GetModifiedCmd st op chord
              end
          end
        else if decide (op = "+"%char) then
          buttonVar ← as_JSMButton (vars st) (_var c);
          match buttonVar with
          | Some buttonVar =>
              if bool_decide (0 ≤ btn)%Z then
                let name := chord +:+ String op "" +:+ _displayName c in
                '(st1, simPressVar) ← AtSimPress st buttonVar btn;
                '(st2, simAssignment) ← JSMAssignment_new2 st1 name simPressVar;
                Some (configure st2 simAssignment (_help c) (_parse c)
                        (ProcessSimPressRemovalTask buttonVar btn simPressVar),
                      Some simAssignment)
              else JSMCommand_GetModifiedCmd st op chord
          | None => JSMCommand_GetModifiedCmd st op chord
          end
        else JSMCommand_GetModifiedCmd st op chord
      else JSMCommand_GetModifiedCmd st op chord
  | None => JSMCommand_GetModifiedCmd st op chord
  end.

(** ** Runs of the program *)

Inductive Kind :=
  | PlainKind
  | SettingKind (_id : SettingID)
  | ButtonKind.

(** Modelled from the spec: the constructors of the variables are missing; a
    variable starts with a value, its normalization and no listener, a
    setting or a button with no child. *)
Definition new_variable (v : T) (filter : T → T → T) : JSMVariable T :=
  {| _value := v; _filter := filter; _onChangeListeners := []; _delegateID := 0 |}.

Definition new_object (k : Kind) (x : JSMVariable T) : VarObj T :=
  match k with
  | PlainKind => PlainVariable x
  | SettingKind id => JSMSetting id x ∅ ∅
  | ButtonKind => JSMButton x ∅ ∅
  end.

(** What the rest of the program does with variables and commands: it
    declares variables, subscribes listeners of its own, registers commands,
    hands them lines and modifiers, assigns through them or to the variables
    themselves, and drops commands. *)
Inductive Action :=
  | NewVariable (k : Kind) (v : T) (filter : T → T → T)
  | Subscribe (r : VarAddr) (say : T → list string)
  | New (name displayName : string) (var : VarAddr)
  | Process (this : CmdAddr) (arguments : string)
  | Modify (this : CmdAddr) (op : ascii) (chord : string)
  | Assign (this : CmdAddr) (newVal : T)
  | SetValue (r : VarAddr) (newValue : T)
  | Delete (this : CmdAddr).

Definition exec (st : State T) (a : Action) : option (State T) :=
  match a with
  | NewVariable k v filter => Some (alloc_var st (new_object k (new_variable v filter))).1
  | Subscribe r say =>
      x ← deref (vars st) r;
      Some (with_vars st (store (vars st) r (AddOnChangeListener x (OtherListener say)).1))
  | New name displayName var => fst <$> JSMAssignment_new st name displayName var
  | Process this arguments => fst <$> ParseData st this arguments
  | Modify this op chord => fst <$> GetModifiedCmd st this op chord
  | Assign this newVal => fst <$> JSMAssignment_assign st this newVal
  | SetValue r newValue => fst <$> assign st r newValue
  | Delete this => JSMAssignment_delete st this
  end.

Fixpoint exec_all (st : State T) (acts : list Action) : option (State T) :=
  match acts with
  | [] => Some st
  | a :: acts' => st' ← exec st a; exec_all st' acts'
  end.

Definition initial : State T :=
  {| vars := ∅; next_var := 0; cmds := ∅; next_cmd := 0; cout := [] |}.

Definition reachable (st : State T) : Prop :=
  ∃ acts, exec_all initial acts = Some st.

End Operations.

(** ** The grammar in the words of the specification *)

Module Grammar.
Import Regex.

(** [matches r s rest]: [r] matches a prefix of [s] and leaves [rest]. *)
Inductive matches : regex → list ascii → list ascii → Prop :=
  | matches_chr c s : matches (Chr c) (c :: s) s
  | matches_star cls p s :
      Forall (λ c, cls c = true) p → matches (Star cls) (p ++ s) s
  | matches_opt_one r s s' : matches r s s' → matches (Opt r) s s'
  | matches_opt_none r s : matches (Opt r) s s
  | matches_seq r1 r2 s s1 s2 :
      matches r1 s s1 → matches r2 s1 s2 → matches (Seq r1 r2) s s2
  | matches_group r s s' : matches r s s' → matches (Group r) s s'.

(** Optional whitespace, an optional '=', optional whitespace, then a run,
    possibly empty, of characters from [A-Za-z0-9_ whitespace ^ +]. *)
Definition shape (arguments : string) : Prop :=
  ∃ ws1 eq ws2 capture : list ascii,
    list_ascii_of_string arguments = ws1 ++ eq ++ ws2 ++ capture
    ∧ Forall (λ c, CType.isspace c = true) ws1
    ∧ (eq = [] ∨ eq = ["="%char])
    ∧ Forall (λ c, CType.isspace c = true) ws2
    ∧ Forall (λ c, capture_class c = true) capture.

End Grammar.


(** ** The capture, read off the line in one pass

    What [regex_match] with the pattern of [ParseData] leaves in
    [results[1]], without backtracking. *)

Module Capture.

(** What is left of [s] after its longest prefix of characters of [cls]. *)
Fixpoint skip (cls : ascii → bool) (s : list ascii) : list ascii :=
  match s with
  | c :: s' => if cls c then skip cls s' else s
  | [] => []
  end.

(** What is left of [s] after one '=' in front, if there is one. *)
Definition skip_equals (s : list ascii) : list ascii :=
  match s with
  | c :: s' => if CType.is_char "=" c then s' else s
  | [] => []
  end.

(** The line without its leading whitespace, one '=' and the whitespace after
    it, when what is left has only characters of the class of the group. *)
Definition capture_of (arguments : string) : option string :=
  let rest := skip CType.isspace
                (skip_equals (skip CType.isspace (list_ascii_of_string arguments))) in
  if forallb capture_class rest then Some (string_of_list_ascii rest) else None.

End Capture.

(** ** Well-formed states *)

Section WellFormed.
Context {T : Type}.

Definition ids (x : JSMVariable T) : list nat := (_onChangeListeners x).*1.

(** The ids of the listeners of a variable are distinct and were handed out. *)
Definition ids_ok (x : JSMVariable T) : Prop :=
  NoDup (ids x) ∧ Forall (λ i, i < _delegateID x) (ids x).

(** How many listeners among [ls] are bound to the command at [this]. *)
Definition bound_to (this : CmdAddr) (d : OnChangeDelegate T) : bool :=
  match d with
  | DisplayNewValueOf a => bool_decide (a = this)
  | OtherListener _ => false
  end.

Definition listeners_of (this : CmdAddr) (ls : list (nat * OnChangeDelegate T)) : nat :=
  length (filter (λ l, bound_to this l.2) ls).

(** How many listeners among [ls] are bound to a command, whichever. *)
Definition is_command (d : OnChangeDelegate T) : bool :=
  match d with
  | DisplayNewValueOf _ => true
  | OtherListener _ => false
  end.

Definition command_listeners (ls : list (nat * OnChangeDelegate T)) : nat :=
  length (filter (λ l, is_command l.2) ls).

(** An object without its values: what it is and which children it owns. *)
Inductive Skeleton :=
  | SkPlain
  | SkSetting (_id : SettingID) (m : gmap Z nat)
  | SkButton (m sm : gmap Z nat).

Definition skeleton (o : VarObj T) : Skeleton :=
  match o with
  | PlainVariable _ => SkPlain
  | JSMSetting id _ m _ => SkSetting id m
  | JSMButton _ m sm => SkButton m sm
  end.

Inductive MapKind := ChordMap | SimMap.

Definition child_at (k : Skeleton) (mk : MapKind) (b : ButtonID) : option VarAddr :=
  match k, mk with
  | SkSetting _ m, ChordMap => m !! b
  | SkButton m _, ChordMap => m !! b
  | SkButton _ sm, SimMap => sm !! b
  | _, _ => None
  end.

Global Instance MapKind_eq_dec : EqDecision MapKind.
Proof. solve_decision. Defined.

(** Whether an object of this class has the map [mk]. *)
Definition has_map (k : Skeleton) (mk : MapKind) : Prop :=
  match k, mk with
  | SkSetting _ _, ChordMap | SkButton _ _, _ => True
  | _, _ => False
  end.

(** The entry at [b] of the map [mk] set to [p], or dropped. *)
Definition with_child (k : Skeleton) (mk : MapKind) (b : ButtonID)
    (p : option VarAddr) : Skeleton :=
  match k, mk with
  | SkSetting id m, ChordMap => SkSetting id (partial_alter (λ _, p) b m)
  | SkButton m sm, ChordMap => SkButton (partial_alter (λ _, p) b m) sm
  | SkButton m sm, SimMap => SkButton m (partial_alter (λ _, p) b sm)
  | _, _ => k
  end.

(** Addresses in use were handed out; a child is alive, plain, and owned
    once. *)
Record Heap_ok (sk : gmap nat Skeleton) (next : nat) : Prop := {
  heap_below : ∀ a, is_Some (sk !! a) → a < next;
  heap_child_live : ∀ a k mk b p,
    sk !! a = Some k → child_at k mk b = Some p → sk !! p = Some SkPlain;
  heap_child_unique : ∀ a k mk b a' k' mk' b' p,
    sk !! a = Some k → child_at k mk b = Some p →
    sk !! a' = Some k' → child_at k' mk' b' = Some p →
    a = a' ∧ mk = mk' ∧ b = b';
}.

Definition is_setting (sk : gmap nat Skeleton) (s : VarAddr) : Prop :=
  ∃ id m, sk !! s = Some (SkSetting id m).

Definition is_button (sk : gmap nat Skeleton) (s : VarAddr) : Prop :=
  ∃ m sm, sk !! s = Some (SkButton m sm).

Definition parser_ok (sk : gmap nat Skeleton) (parser : ParseDelegate) : Prop :=
  match parser with
  | ModeshiftParserFn _ (Some s) => is_setting sk s
  | _ => True
  end.

Definition task_ok (sk : gmap nat Skeleton) (var : VarAddr) (task : option Task) : Prop :=
  match task with
  | None => True
  | Some (ProcessModeshiftRemovalTask s _) => is_setting sk s
  | Some (ProcessChordRemovalTask bt _ p) => is_button sk bt ∧ p = var
  | Some (ProcessSimPressRemovalTask bt _ p) => is_button sk bt ∧ p = var
  end.

(** Settings stay settings and buttons stay buttons. *)
Definition keeps_classes (sk sk' : gmap nat Skeleton) : Prop :=
  (∀ s, is_setting sk s → is_setting sk' s) ∧ (∀ s, is_button sk s → is_button sk' s).

(** What a command holds refers to objects of the right class. *)
Definition Bound_ok (sk : gmap nat Skeleton) (next : nat)
    (cs : gmap nat JSMAssignment) : Prop :=
  ∀ a c, cs !! a = Some c →
    _var c < next ∧ parser_ok sk (_parse c) ∧ task_ok sk (_var c) (_taskOnDestruction c).

(** The listeners of the variables against the commands alive. *)
Record Listeners_ok (bs : gmap nat (JSMVariable T)) (cs : gmap nat JSMAssignment)
    : Prop := {
  listeners_ids : ∀ r x, bs !! r = Some x → ids_ok x;
  listeners_registered : ∀ a c x,
    cs !! a = Some c → bs !! _var c = Some x →
    (_listenerId c, DisplayNewValueOf a) ∈ _onChangeListeners x;
  listeners_owner : ∀ r x i a,
    bs !! r = Some x → (i, DisplayNewValueOf a) ∈ _onChangeListeners x →
    ∃ c, cs !! a = Some c ∧ _var c = r ∧ _listenerId c = i;
}.

Record Inv (st : State T) : Prop := {
  inv_heap : Heap_ok (skeleton <$> vars st) (next_var st);
  inv_cmds_below : ∀ a, is_Some (cmds st !! a) → a < next_cmd st;
  inv_bound : Bound_ok (skeleton <$> vars st) (next_var st) (cmds st);
  inv_listeners : Listeners_ok (base <$> vars st) (cmds st);
}.

(** A command with the modeshift parser for the chord [b] of the setting [s]
    has the removal of that override as its teardown task, and as long as
    its variable is alive it is the child that [s] holds at [b]. *)
Definition Modeshift_ok (sk : gmap nat Skeleton) (cs : gmap nat JSMAssignment)
    : Prop :=
  ∀ d cmd b s, cs !! d = Some cmd → _parse cmd = ModeshiftParserFn b (Some s) →
    _taskOnDestruction cmd = Some (ProcessModeshiftRemovalTask s b)
    ∧ (is_Some (sk !! _var cmd) →
       ∃ id m, sk !! s = Some (SkSetting id m) ∧ m !! b = Some (_var cmd)).

(** The state and the child that [AtChord] and [AtSimPress] return: the
    child the map holds, or a new one put into the parent by [upd]. *)
Definition fetched (st : State T) (a : VarAddr) (o : VarObj T) (mk : MapKind)
    (btn : ButtonID) (upd : VarAddr → VarObj T) : State T * VarAddr :=
  match child_at (skeleton o) mk btn with
  | Some p => (st, p)
  | None =>
      (with_vars (alloc_var st (PlainVariable (new_child (base o)))).1
         (<[a := upd (next_var st)]>
            (vars (alloc_var st (PlainVariable (new_child (base o)))).1)),
       next_var st)
  end.

(** The command at [this] was alive once and is no more. *)
Definition gone (st : State T) (this : CmdAddr) : Prop :=
  this < next_cmd st ∧ cmds st !! this = None.

(** The command at [d] carries [name] as its name and its display name and
    is bound to the variable at [p], which is alive. *)
Definition derived_command (st : State T) (d : CmdAddr) (name : string)
    (p : VarAddr) : Prop :=
  ∃ cmd, cmds st !! d = Some cmd ∧ _name cmd = name ∧ _displayName cmd = name
         ∧ _var cmd = p ∧ is_Some (deref (vars st) p).

End WellFormed.


(** ** When a chord composes *)

Section Effects.
Context {T : Type} `{!ButtonCatalogue}.

(** The conditions of [GetModifiedCmd] under which it builds a command: the
    chord resolves to a button above NONE, and the operator is ',' over a
    setting or a button, or '+' over a button with a button that is not
    negative. *)
Definition composes (st : State T) (c : JSMAssignment) (op : ascii)
    (chord : string) : Prop :=
  ∃ btn, enum_cast chord = Some btn ∧ (NONE < btn)%Z
    ∧ ((op = ","%char
        ∧ (is_setting (skeleton <$> vars st) (_var c)
           ∨ is_button (skeleton <$> vars st) (_var c)))
       ∨ (op = "+"%char
          ∧ is_button (skeleton <$> vars st) (_var c) ∧ (0 ≤ btn)%Z)).

End Effects.

(** ** A setting and a button to run the model on *)

Module Demo.

(** Integer settings: [>>] into an [int] skips leading whitespace, reads an
    optional sign and the digits after it, and fails when no digit is there
    or the number is not an [int] of 32 bits; [<<] writes the decimal
    numeral. *)
Fixpoint read_digits (s : list ascii) (acc : Z) : Z :=
  match s with
  | c :: s' =>
      if CType.isdigit c
      then read_digits s' (10 * acc + Z.of_N (CType.code c - 48))%Z
      else acc
  | [] => acc
  end.

Fixpoint skip_spaces (s : list ascii) : list ascii :=
  match s with
  | c :: s' => if CType.isspace c then skip_spaces s' else s
  | [] => []
  end.

Definition read_unsigned (s : list ascii) : option Z :=
  match s with
  | c :: _ => if CType.isdigit c then Some (read_digits s 0) else None
  | [] => None
  end.

Definition as_int (v : Z) : option Z :=
  if bool_decide (-2147483648 ≤ v ≤ 2147483647)%Z then Some v else None.

Definition read_int (data : string) : option Z :=
  match skip_spaces (list_ascii_of_string data) with
  | "-"%char :: s => v ← read_unsigned s; as_int (- v)
  | "+"%char :: s => v ← read_unsigned s; as_int v
  | s => v ← read_unsigned s; as_int v
  end.

#[export] Instance Z_streamable : Streamable Z :=
  {| stream_in := read_int; stream_out := pretty |}.

#[export] Instance Z_display : DisplayNewValueFor Z := DisplayNewValue_primary.

#[export] Instance Z_removal : ChordRemovalPolicy Z := λ v, bool_decide (v = 0%Z).

(** Button bindings: a binding is read from the name of what it produces,
    NONE for no binding. *)
Global Instance EventMapping_eq_dec : EqDecision EventMapping.
Proof. solve_decision. Defined.

Definition no_mapping : EventMapping := {| eventMapping := []; representation := "" |}.

Definition read_mapping (data : string) : option EventMapping :=
  if decide (data = "NONE") then Some no_mapping
  else Some {| eventMapping := [(0%Z, data)]; representation := data |}.

#[export] Instance EventMapping_streamable : Streamable EventMapping :=
  {| stream_in := read_mapping; stream_out := representation |}.

#[export] Instance EventMapping_display : DisplayNewValueFor EventMapping :=
  DisplayNewValue_EventMapping.

#[export] Instance EventMapping_removal : ChordRemovalPolicy EventMapping :=
  λ v, bool_decide (eventMapping v = []).

(** A catalogue with the sentinel and a few buttons. *)
Definition button_names : list (string * Z) :=
  [("NONE", -1); ("UP", 0); ("A", 1); ("B", 2)]%Z.

Definition lookup_name (names : list (string * Z)) (s : string) : option Z :=
  snd <$> find (λ e, bool_decide (e.1 = s)) names.

Definition name_of (names : list (string * Z)) (b : Z) : string :=
  from_option fst "" (find (λ e, bool_decide (e.2 = b)) names).

#[export] Instance catalogue : ButtonCatalogue :=
  {| enum_cast := lookup_name button_names; NONE := (-1)%Z;
     ButtonID_text := name_of button_names;
     SettingID_text := name_of [("SENS", 7%Z)] |}.

#[export] Instance command_base : CommandBase := "Enter HELP for the use of this command".

(** Writes are clamped to 0..10. *)
Definition clamp (old new : Z) : Z := Z.max 0 (Z.min 10 new).

(** A setting SENS of value 1 with its command. *)
Definition sens_run : list (Action (T:=Z)) :=
  [NewVariable (SettingKind 7) 1%Z clamp; New "SENS" "SENS" 0].

Definition sens_state : State Z := default initial (exec_all initial sens_run).

Definition sens_var : JSMVariable Z :=
  {| _value := 1%Z; _filter := clamp;
     _onChangeListeners := [(0, DisplayNewValueOf 0)]; _delegateID := 1 |}.

Definition sens_cmd : JSMAssignment :=
  {| _name := "SENS"; _help := default_help; _parse := DefaultParserFn;
     _taskOnDestruction := None; _var := 0; _displayName := "SENS";
     _listenerId := 0 |}.

(** The same with a second command over SENS. *)
Definition sens_two : State Z :=
  default initial (exec_all sens_state [New "MAX_SENS" "MAX_SENS" 0]).

(** The same with SENS at 10, the largest value the clamp lets through. *)
Definition sens_at_10 : State Z :=
  default initial (exec_all sens_state [Assign 0 10%Z]).

(** A button A without a binding, with its command. *)
Definition keep (old new : EventMapping) : EventMapping := new.

Definition button_run : list (Action (T:=EventMapping)) :=
  [NewVariable ButtonKind no_mapping keep; New "A" "A" 0].

Definition button_state : State EventMapping :=
  default initial (exec_all initial button_run).

Definition button_var : JSMVariable EventMapping :=
  {| _value := no_mapping; _filter := keep;
     _onChangeListeners := [(0, DisplayNewValueOf 0)]; _delegateID := 1 |}.

Definition button_cmd : JSMAssignment :=
  {| _name := "A"; _help := default_help; _parse := DefaultParserFn;
     _taskOnDestruction := None; _var := 0; _displayName := "A";
     _listenerId := 0 |}.

(** SENS with a modeshift command for the chord B, which is at address 1 and
    over the child at address 1. *)
Definition sens_B : State Z :=
  default initial (exec_all sens_state [Modify 0 "," "B"]).

Definition sens_B_cmd : JSMAssignment :=
  {| _name := "B,SENS"; _help := default_help;
     _parse := ModeshiftParserFn 2 (Some 0);
     _taskOnDestruction := Some (ProcessModeshiftRemovalTask 0 2);
     _var := 1; _displayName := "B,SENS"; _listenerId := 0 |}.

(** The same after the line = 4 for the modeshift command. *)
Definition sens_B_4 : State Z :=
  default initial (exec_all sens_B [Process 1 "= 4"]).

(** The same after the line = NONE. *)
Definition sens_B_none : State Z :=
  default initial (exec_all sens_B [Process 1 " = NONE"]).

(** The same after the line NONE with a space behind it. *)
Definition sens_B_spaced : State Z :=
  default initial (exec_all sens_B [Process 1 "NONE "]).

End Demo.


(** ** Properties of the matcher *)

Module RegexFacts.
Import Regex Grammar.

Section Run.
Context {A : Type}.
Implicit Types (k : @cont A) (s : list ascii) (cap : option (list ascii)).

Lemma star_sound cls s cap k a :
  star cls s cap k = Some a →
  ∃ p s', s = p ++ s' ∧ Forall (λ c, cls c = true) p ∧ k s' cap = Some a.
Proof.
  induction s as [|c s IH]; simpl.
  - intros Hk. by exists [], [].
  - destruct (cls c) eqn:Hc; [|intros Hk; by exists [], (c :: s)].
    destruct (star cls s cap k) as [a'|] eqn:Hs.
    + intros [= ->]. destruct (IH eq_refl) as (p & s' & -> & Hp & Hk).
      exists (c :: p), s'. split_and!; [done|by constructor|done].
    + intros Hk. by exists [], (c :: s).
Qed.

Lemma star_greedy_or_here cls s cap k :
  is_Some (k s cap) → is_Some (star cls s cap k).
Proof.
  intros Hk. destruct s as [|c s]; simpl; [done|].
  destruct (cls c); [|done]. by destruct (star cls s cap k).
Qed.

Lemma star_complete cls p s cap k :
  Forall (λ c, cls c = true) p → is_Some (k s cap) →
  is_Some (star cls (p ++ s) cap k).
Proof.
  intros Hp Hk. induction Hp as [|c p Hc _ IH]; simpl.
  - by apply star_greedy_or_here.
  - rewrite Hc. destruct IH as [a ->]. by eexists.
Qed.

Lemma run_sound r : ∀ s cap k a,
  run r s cap k = Some a → ∃ s' cap', matches r s s' ∧ k s' cap' = Some a.
Proof.
  induction r as [d|cls|r IH|r1 IH1 r2 IH2|r IH]; intros s cap k a; simpl.
  - destruct s as [|c s]; [done|].
    unfold CType.is_char. case_bool_decide as Hc; [|done]. subst c.
    intros Hk. exists s, cap. split; [constructor|done].
  - intros (p & s' & -> & Hp & Hk)%star_sound.
    exists s', cap. split; [by constructor|done].
  - destruct (run r s cap k) as [a'|] eqn:Hr.
    + intros [= ->]. destruct (IH _ _ _ _ Hr) as (s' & cap' & Hm & Hk).
      exists s', cap'. split; [by constructor|done].
    + intros Hk. exists s, cap. split; [apply matches_opt_none|done].
  - intros (s1 & cap1 & Hm1 & (s2 & cap2 & Hm2 & Hk)%IH2)%IH1.
    exists s2, cap2. split; [by econstructor|done].
  - intros (s' & cap' & Hm & Hk)%IH.
    eexists s', _. split; [by constructor|exact Hk].
Qed.

Lemma run_complete r s s' :
  matches r s s' →
  ∀ cap k, (∀ cap', is_Some (k s' cap')) → is_Some (run r s cap k).
Proof.
  induction 1 as [d s|cls p s Hp|r s s' _ IH|r s|r1 r2 s s1 s2 _ IH1 _ IH2|r s s' _ IH];
    intros cap k Hk; simpl.
  - unfold CType.is_char. by rewrite bool_decide_eq_true_2.
  - by apply star_complete.
  - destruct (IH cap k Hk) as [a ->]. by eexists.
  - destruct (run r s cap k); [by eexists|apply Hk].
  - apply IH1. intros cap'. by apply IH2.
  - apply IH. intros cap'. apply Hk.
Qed.

End Run.

Lemma regex_match_matches r arguments :
  is_Some (regex_match r arguments) ↔ matches r (list_ascii_of_string arguments) [].
Proof.
  unfold regex_match. split.
  - intros [a (s' & cap' & Hm & Hk)%run_sound]. by destruct s'.
  - intros Hm. by eapply run_complete.
Qed.

Lemma shape_matches arguments :
  shape arguments ↔ matches assignment_regex (list_ascii_of_string arguments) [].
Proof.
  unfold shape, assignment_regex. split.
  - intros (ws1 & eq & ws2 & capture & -> & H1 & Heq & H2 & H3).
    eapply matches_seq; [by apply matches_star|].
    eapply (matches_seq _ _ _ (ws2 ++ capture)).
    { destruct Heq as [->| ->]; [apply matches_opt_none|].
      apply matches_opt_one, matches_chr. }
    eapply matches_seq; [by apply matches_star|].
    apply matches_group. rewrite <-(app_nil_r capture) at 1.
    by apply matches_star.
  - intros Hm. inversion Hm as [| | | |? ? ? s1 ? Hw1 Hr1|]; subst.
    inversion Hw1 as [|? ws1 ? Hws1 Hs| | | |]; subst.
    inversion Hr1 as [| | | |? ? ? s2 ? He Hr2|]; subst.
    inversion Hr2 as [| | | |? ? ? s3 ? Hw2 Hr3|]; subst.
    inversion Hw2 as [|? ws2 ? Hws2| | | |]; subst.
    inversion Hr3 as [| | | | |? ? ? Hc]; subst.
    inversion Hc as [|? capture ? Hcap| | | |]; subst.
    rewrite app_nil_r in *.
    inversion He as [| |? ? ? Heq| | |]; subst.
    + inversion Heq; subst.
      exists ws1, ["="%char], ws2, capture. by split_and!; [|done|right|done|done].
    + exists ws1, [], ws2, capture. by split_and!; [|done|left|done|done].
Qed.

(** [regex_match] accepts exactly the lines of the shape. *)
Lemma regex_match_shape arguments :
  is_Some (regex_match assignment_regex arguments) ↔ shape arguments.
Proof. by rewrite regex_match_matches, shape_matches. Qed.

End RegexFacts.


(** ** Properties of the capture *)

Module CaptureFacts.
Import Regex Grammar Capture.

Lemma star_first {A} cls s cap (k : @cont A) a :
  k (skip cls s) cap = Some a → star cls s cap k = Some a.
Proof.
  induction s as [|c s IH]; simpl; [done|].
  destruct (cls c); [|done]. intros Hk. by rewrite (IH Hk).
Qed.

Lemma skip_all cls s : forallb cls s = true → skip cls s = [].
Proof.
  induction s as [|c s IH]; simpl; [done|].
  destruct (cls c); [|done]. apply IH.
Qed.

Lemma skip_app_all cls p s :
  Forall (λ c, cls c = true) p → skip cls (p ++ s) = skip cls s.
Proof. induction 1 as [|c p Hc _ IH]; simpl; [done|]. by rewrite Hc. Qed.

Lemma skip_Forall cls (P : ascii → Prop) s : Forall P s → Forall P (skip cls s).
Proof.
  induction 1 as [|c s Hc Hs IH]; simpl; [done|].
  destruct (cls c); [done|by constructor].
Qed.

Lemma skip_head cls s c s' : skip cls s = c :: s' → cls c = false.
Proof.
  induction s as [|d s IH]; simpl; [done|].
  destruct (cls d) eqn:Hd; [done|]. by intros [= <- _].
Qed.

Lemma skip_app_keep cls s w : skip cls s ≠ [] → skip cls (s ++ w) = skip cls s ++ w.
Proof.
  induction s as [|c s IH]; simpl; [done|]. by destruct (cls c).
Qed.

Lemma skip_elem cls s c : c ∈ s → cls c = false → c ∈ skip cls s.
Proof.
  intros Hin Hc. induction s as [|d s IH]; simpl; [done|].
  destruct (cls d) eqn:Hd; [|done].
  apply elem_of_cons in Hin as [->|Hin]; [congruence|by apply IH].
Qed.

Lemma skip_equals_elem s c : c ∈ s → c ≠ "="%char → c ∈ skip_equals s.
Proof.
  intros Hin Hc. destruct s as [|d s]; simpl; [done|].
  unfold CType.is_char. case_bool_decide as Hd; [|done]. subst d.
  by apply elem_of_cons in Hin as [->|Hin].
Qed.

Lemma equals_not_class : capture_class "=" = false.
Proof. reflexivity. Qed.

Lemma space_class c : CType.isspace c = true → capture_class c = true.
Proof. unfold capture_class. intros ->. by rewrite orb_true_r. Qed.

Lemma skip_equals_class s :
  Forall (λ c, capture_class c = true) s → skip_equals s = s.
Proof.
  intros Hs. destruct s as [|c s]; simpl; [done|].
  unfold CType.is_char. case_bool_decide as Hc; [|done]. subst c.
  apply Forall_cons in Hs as [Hs _]. by rewrite equals_not_class in Hs.
Qed.

Lemma forallb_Forall_class s :
  forallb capture_class s = true ↔ Forall (λ c, capture_class c = true) s.
Proof.
  rewrite forallb_forall, Forall_forall. split; intros Hs c Hc; apply Hs.
  - by apply list_elem_of_In.
  - by apply list_elem_of_In.
Qed.

(** What is left for the group on a line of the shape has only characters of
    its class. *)
Lemma shape_rest arguments :
  shape arguments →
  forallb capture_class
    (skip CType.isspace
       (skip_equals (skip CType.isspace (list_ascii_of_string arguments)))) = true.
Proof.
  intros (ws1 & eq & ws2 & capture & -> & H1 & Heq & H2 & H3).
  apply forallb_Forall_class. rewrite (skip_app_all _ _ _ H1).
  destruct Heq as [-> | ->]; simpl.
  - rewrite (skip_app_all _ _ _ H2).
    rewrite skip_equals_class by by apply skip_Forall.
    by do 2 apply skip_Forall.
  - rewrite (skip_app_all _ _ _ H2). by apply skip_Forall.
Qed.

Lemma run_star {A} cls s cap (k : @cont A) a :
  k (skip cls s) cap = Some a → run (Star cls) s cap k = Some a.
Proof. apply star_first. Qed.

Lemma run_opt_equals {A} s cap (k : @cont A) a :
  k (skip_equals s) cap = Some a → run (Opt (Chr "=")) s cap k = Some a.
Proof.
  simpl. destruct s as [|c s]; simpl; [done|].
  destruct (CType.is_char "=" c); [by intros ->|done].
Qed.

Lemma run_group_star {A} cls s cap (k : @cont A) a :
  forallb cls s = true → k [] (Some s) = Some a →
  run (Group (Star cls)) s cap k = Some a.
Proof.
  intros Hs Hk. simpl. apply star_first. rewrite (skip_all _ _ Hs). simpl.
  by rewrite Nat.sub_0_r, firstn_all.
Qed.

(** The matcher finds what one pass finds. *)
Lemma regex_match_capture_of_eq arguments :
  regex_match assignment_regex arguments = capture_of arguments.
Proof.
  unfold capture_of. simpl.
  destruct (forallb capture_class _) eqn:Hrest.
  - unfold regex_match, assignment_regex.
    change (run (Seq ?r1 ?r2) ?s ?cap ?k)
      with (run r1 s cap (λ s' cap', run r2 s' cap' k)).
    apply run_star.
    change (run (Seq ?r1 ?r2) ?s ?cap ?k)
      with (run r1 s cap (λ s' cap', run r2 s' cap' k)).
    apply run_opt_equals.
    change (run (Seq ?r1 ?r2) ?s ?cap ?k)
      with (run r1 s cap (λ s' cap', run r2 s' cap' k)).
    apply run_star. by apply run_group_star.
  - destruct (regex_match assignment_regex arguments) as [data|] eqn:Hm; [|done].
    assert (shape arguments) as Hs by (apply RegexFacts.regex_match_shape; by eexists).
    apply shape_rest in Hs. congruence.
Qed.

Lemma list_ascii_of_string_app (s1 s2 : string) :
  list_ascii_of_string (s1 +:+ s2) = list_ascii_of_string s1 ++ list_ascii_of_string s2.
Proof. induction s1 as [|c s1 IH]; simpl; [done|]. by rewrite <-IH. Qed.

Lemma string_of_list_ascii_app (l1 l2 : list ascii) :
  string_of_list_ascii (l1 ++ l2) = string_of_list_ascii l1 +:+ string_of_list_ascii l2.
Proof. induction l1 as [|c l1 IH]; simpl; [done|]. by rewrite IH. Qed.

Lemma skip_equals_app_keep s w : s ≠ [] → skip_equals (s ++ w) = skip_equals s ++ w.
Proof. destruct s as [|c s]; simpl; [done|]. by destruct (CType.is_char "=" c). Qed.

Lemma skip_nonempty cls s : skip cls s ≠ [] → s ≠ [].
Proof. by destruct s. Qed.

Lemma skip_equals_nonempty s : skip_equals s ≠ [] → s ≠ [].
Proof. by destruct s. Qed.

(** A '=' behind a character that is no whitespace is left for the group. *)
Lemma misplaced_equals pre post :
  forallb CType.isspace pre = false →
  "="%char ∈ skip_equals (skip CType.isspace (pre ++ "="%char :: post)).
Proof.
  induction pre as [|c pre IH]; simpl; [done|].
  destruct (CType.isspace c) eqn:Hc; simpl; [done|]. intros _.
  destruct (CType.is_char "=" c).
  - apply elem_of_app. right. by left.
  - right. apply elem_of_app. right. by left.
Qed.

Lemma capture_of_foreign arguments c :
  c ∈ skip_equals (skip CType.isspace (list_ascii_of_string arguments)) →
  capture_class c = false →
  capture_of arguments = None.
Proof.
  intros Hin Hc. unfold capture_of. simpl.
  destruct (forallb capture_class _) eqn:Hall; [|done].
  apply forallb_Forall_class in Hall. rewrite Forall_forall in Hall.
  rewrite Hall in Hc; [done|]. apply skip_elem; [done|].
  destruct (CType.isspace c) eqn:Hs; [|done]. by rewrite space_class in Hc.
Qed.

End CaptureFacts.

(** ** Properties of the store and of the well-formed states *)

Section Facts.
Context {T : Type}.
Implicit Types (vs : gmap nat (VarObj T)) (cs : gmap nat JSMAssignment).
Implicit Types (bs : gmap nat (JSMVariable T)) (sk : gmap nat Skeleton).
Implicit Types (x y : JSMVariable T) (o : VarObj T).

Lemma skeleton_set_base y o : skeleton (set_base y o) = skeleton o.
Proof. by destruct o. Qed.

Lemma base_set_base y o : base (set_base y o) = y.
Proof. by destruct o. Qed.

Lemma deref_lookup vs r : deref vs r = (base <$> vs) !! r.
Proof. unfold deref. by rewrite lookup_fmap. Qed.

Lemma skeleton_store vs r y : skeleton <$> store vs r y = skeleton <$> vs.
Proof.
  apply map_eq. intros a. unfold store. rewrite !lookup_fmap, lookup_alter.
  case_decide; [subst|done]. destruct (vs !! a); simpl; [|done].
  by rewrite skeleton_set_base.
Qed.

Lemma base_store vs r y :
  is_Some (vs !! r) → base <$> store vs r y = <[r := y]> (base <$> vs).
Proof.
  intros [o Ho]. apply map_eq. intros a. unfold store.
  rewrite lookup_fmap, lookup_alter, lookup_insert, lookup_fmap.
  case_decide; [subst|done]. by rewrite Ho; simpl; rewrite base_set_base.
Qed.

End Facts.

Section ListenerFacts.
Context {T : Type}.
Implicit Types (cs : gmap nat JSMAssignment) (bs : gmap nat (JSMVariable T)).
Implicit Types (x y : JSMVariable T).

Lemma NoDup_fst_functional {A B} (l : list (A * B)) i d1 d2 :
  NoDup l.*1 → (i, d1) ∈ l → (i, d2) ∈ l → d1 = d2.
Proof.
  induction l as [|[j d] l IH]; simpl; [by intros _ ?%elem_of_nil|].
  inversion 1 as [|?? Hj Hl]; subst.
  intros [[= -> ->]|H1]%elem_of_cons [[= ->]|H2]%elem_of_cons; [done| | |by apply IH].
  - destruct Hj. apply list_elem_of_fmap. by exists (j, d2).
  - destruct Hj. apply list_elem_of_fmap. by exists (j, d1).
Qed.

Lemma ids_ok_same x x' :
  _onChangeListeners x' = _onChangeListeners x → _delegateID x' = _delegateID x →
  ids_ok x → ids_ok x'.
Proof. unfold ids_ok, ids. by intros -> ->. Qed.

Lemma ids_ok_nil x : _onChangeListeners x = [] → ids_ok x.
Proof. unfold ids_ok, ids. intros ->. split; constructor. Qed.

Lemma ids_ok_add x d : ids_ok x → ids_ok (AddOnChangeListener x d).1.
Proof.
  unfold ids_ok, ids. simpl. intros [Hnd Hlt]. rewrite fmap_app. simpl. split.
  - apply NoDup_app. split_and!; [done| |apply NoDup_singleton].
    intros i Hi ->%list_elem_of_singleton.
    rewrite Forall_forall in Hlt. specialize (Hlt _ Hi). lia.
  - apply Forall_app. split; [|by repeat constructor].
    eapply Forall_impl; [done|]. simpl. lia.
Qed.

Lemma ids_ok_remove x id : ids_ok x → ids_ok (RemoveOnChangeListener x id).
Proof.
  unfold ids_ok, ids. simpl. intros [Hnd Hlt]. split.
  - induction (_onChangeListeners x) as [|l ls IH]; simpl in *; [constructor|].
    inversion Hnd as [|?? Hl Hls]; subst. inversion Hlt; subst.
    rewrite filter_cons. case_decide; simpl; [|by apply IH].
    constructor; [|by apply IH].
    intros (l' & Heq & [_ Hin]%list_elem_of_filter)%list_elem_of_fmap.
    apply Hl. apply list_elem_of_fmap. by exists l'.
  - rewrite Forall_forall in *.
    intros i (l & -> & [_ Hin]%list_elem_of_filter)%list_elem_of_fmap.
    apply Hlt. apply list_elem_of_fmap. by exists l.
Qed.

(** Variables that keep their notifier, new variables without listeners that
    no command is bound to, and variables that disappear. *)
Lemma Listeners_ok_frame bs bs' cs :
  (∀ r x', bs' !! r = Some x' →
     (∃ x, bs !! r = Some x ∧ _onChangeListeners x' = _onChangeListeners x
           ∧ _delegateID x' = _delegateID x)
     ∨ (_onChangeListeners x' = [] ∧ ∀ a c, cs !! a = Some c → _var c ≠ r)) →
  Listeners_ok bs cs → Listeners_ok bs' cs.
Proof.
  intros Hfr [Hids Hreg Hown]. split.
  - intros r x' [(x & Hx & Hl & Hd)|[Hl _]]%Hfr.
    + eapply ids_ok_same; eauto.
    + by apply ids_ok_nil.
  - intros a c x' Hc [(x & Hx & Hl & Hd)|[_ Hne]]%Hfr.
    + rewrite Hl. eauto.
    + by destruct (Hne _ _ Hc).
  - intros r x' i a [(x & Hx & Hl & Hd)|[Hl _]]%Hfr.
    + rewrite Hl. eauto.
    + rewrite Hl. by intros ?%elem_of_nil.
Qed.

Lemma Listeners_ok_cmds bs cs cs' :
  (∀ a c', cs' !! a = Some c' →
     ∃ c, cs !! a = Some c ∧ _var c' = _var c ∧ _listenerId c' = _listenerId c) →
  (∀ a c, cs !! a = Some c →
     ∃ c', cs' !! a = Some c' ∧ _var c' = _var c ∧ _listenerId c' = _listenerId c) →
  Listeners_ok bs cs → Listeners_ok bs cs'.
Proof.
  intros Hback Hforth [Hids Hreg Hown]. split; [done| |].
  - intros a c' x (c & Hc & Hv & Hl)%Hback. rewrite Hv, Hl. eauto.
  - intros r x i a Hx (c & Hc & <- & <-)%(Hown _ _ _ _ Hx).
    destruct (Hforth _ _ Hc) as (c' & ? & ? & ?). eauto.
Qed.

Lemma Listeners_ok_subscribe bs cs r x say :
  bs !! r = Some x → Listeners_ok bs cs →
  Listeners_ok (<[r := (AddOnChangeListener x (OtherListener say)).1]> bs) cs.
Proof.
  intros Hx [Hids Hreg Hown]. split.
  - intros r' x'. rewrite lookup_insert. case_decide; [subst|by eauto].
    intros [= <-]. apply ids_ok_add. eauto.
  - intros a c x' Hc. rewrite lookup_insert. case_decide as Hr; [|by eauto].
    intros [= <-]. simpl. apply elem_of_app. left. rewrite Hr in Hx. eauto.
  - intros r' x' i a. rewrite lookup_insert. case_decide; [subst|by eauto].
    intros [= <-]. simpl. intros [?|[=]%list_elem_of_singleton]%elem_of_app. eauto.
Qed.

Lemma Listeners_ok_new bs cs c this x :
  bs !! _var c = Some x → cs !! this = None → _listenerId c = _delegateID x →
  Listeners_ok bs cs →
  Listeners_ok (<[_var c := (AddOnChangeListener x (DisplayNewValueOf this)).1]> bs)
    (<[this := c]> cs).
Proof.
  intros Hx Hthis Hid [Hids Hreg Hown]. split.
  - intros r' x'. rewrite lookup_insert. case_decide; [subst|by eauto].
    intros [= <-]. apply ids_ok_add. eauto.
  - intros a c' x'. rewrite !lookup_insert. case_decide as Ha.
    + intros [= <-]. rewrite decide_True by done. intros [= <-]. simpl.
      apply elem_of_app. right. apply list_elem_of_singleton. by rewrite Hid, Ha.
    + intros Hc'. case_decide as Hr; [|by eauto].
      intros [= <-]. simpl. apply elem_of_app. left. rewrite Hr in Hx. eauto.
  - intros r' x' i a. rewrite lookup_insert. case_decide as Hr.
    + intros [= <-]. simpl. intros [Hin|[= -> ->]%list_elem_of_singleton]%elem_of_app.
      * destruct (Hown _ _ _ _ Hx Hin) as (c' & Hc' & ? & ?).
        exists c'. rewrite lookup_insert_ne by congruence. by subst.
      * exists c. by rewrite lookup_insert_eq.
    + intros Hx' Hin. destruct (Hown _ _ _ _ Hx' Hin) as (c' & Hc' & ? & ?).
      exists c'. rewrite lookup_insert_ne by congruence. done.
Qed.

Lemma Listeners_ok_delete bs cs c this x :
  cs !! this = Some c → bs !! _var c = Some x →
  Listeners_ok bs cs →
  Listeners_ok (<[_var c := RemoveOnChangeListener x (_listenerId c)]> bs)
    (delete this cs).
Proof.
  intros Hthis Hx [Hids Hreg Hown]. split.
  - intros r' x'. rewrite lookup_insert. case_decide; [subst|by eauto].
    intros [= <-]. apply ids_ok_remove. eauto.
  - intros a c' x'. rewrite lookup_delete, lookup_insert. case_decide as Ha; [done|].
    intros Hc'. case_decide as Hr; [|by eauto].
    intros [= <-]. simpl. apply list_elem_of_filter. rewrite Hr in Hx.
    split; [|by eauto]. simpl. intros Heq.
    (* two listeners of one id on one variable belong to one command *)
    pose proof (Hreg _ _ _ Hc' Hx) as H1. rewrite <-Hr in Hx.
    pose proof (Hreg _ _ _ Hthis Hx) as H2. rewrite <-Heq in H2.
    destruct (Hids _ _ Hx) as [Hnd _]. unfold ids in Hnd.
    assert (DisplayNewValueOf (T:=T) a = DisplayNewValueOf this) as [=]; [|done].
    by eapply NoDup_fst_functional.
  - intros r' x' i a. rewrite lookup_insert. case_decide as Hr.
    + intros [= <-]. simpl. intros [Hne Hin]%list_elem_of_filter. simpl in Hne.
      destruct (Hown _ _ _ _ Hx Hin) as (c' & Hc' & ? & ?).
      exists c'. rewrite lookup_delete_ne; [by subst|]. intros <-. congruence.
    + intros Hx' Hin. destruct (Hown _ _ _ _ Hx' Hin) as (c' & Hc' & ? & ?).
      exists c'. rewrite lookup_delete_ne; [by subst|]. intros <-. congruence.
Qed.

End ListenerFacts.


Lemma child_at_with_child k mk b p mk' b' :
  has_map k mk →
  child_at (with_child k mk b p) mk' b'
  = if decide (mk = mk' ∧ b = b') then p else child_at k mk' b'.
Proof.
  destruct k, mk, mk'; simpl; try done; intros _;
    case_decide as H; try (destruct H as [? ->]); try done;
    rewrite ?lookup_partial_alter_eq; try done;
    rewrite lookup_partial_alter_ne; try done; intros ->; by apply H.
Qed.

Lemma Heap_ok_alloc sk n k :
  (∀ mk b, child_at k mk b = None) → Heap_ok sk n → Heap_ok (<[n := k]> sk) (S n).
Proof.
  intros Hk [Hbelow Hlive Huniq].
  assert (sk !! n = None) as Hn.
  { apply eq_None_not_Some. intros ?%Hbelow. lia. }
  split.
  - intros a. rewrite lookup_insert. case_decide; [lia|]. intros ?%Hbelow. lia.
  - intros a k0 mk b p. rewrite lookup_insert. case_decide.
    + intros [= <-]. by rewrite Hk.
    + intros Ha Hp. pose proof (Hlive _ _ _ _ _ Ha Hp) as Hlp.
      rewrite lookup_insert_ne; [done|]. intros <-. congruence.
  - intros a k0 mk b a' k' mk' b' p. rewrite !lookup_insert.
    repeat case_decide; try (intros [= <-]; by rewrite Hk);
      try (intros ? ? [= <-]; by rewrite Hk). eauto.
Qed.

Lemma Heap_ok_add_child sk n parent k mk b :
  sk !! parent = Some k → has_map k mk → child_at k mk b = None →
  Heap_ok sk n →
  Heap_ok (<[parent := with_child k mk b (Some n)]> (<[n := SkPlain]> sk)) (S n).
Proof.
  intros Hparent Hmap Hnone [Hbelow Hlive Huniq].
  assert (sk !! n = None) as Hn.
  { apply eq_None_not_Some. intros ?%Hbelow. lia. }
  assert (parent ≠ n) as Hpn by congruence.
  assert (∀ a k0 mk0 b0 p, sk !! a = Some k0 → child_at k0 mk0 b0 = Some p →
            p ≠ n ∧ p ≠ parent) as Hold.
  { intros a k0 mk0 b0 p Ha Hp. pose proof (Hlive _ _ _ _ _ Ha Hp) as Hlp.
    split; intros ->; [congruence|].
    rewrite Hparent in Hlp. injection Hlp as ->. by destruct mk. }
  set (sk' := <[parent := with_child k mk b (Some n)]> (<[n := SkPlain]> sk)).
  assert (∀ a k0 mk0 b0 p, sk' !! a = Some k0 → child_at k0 mk0 b0 = Some p →
            (a = parent ∧ mk0 = mk ∧ b0 = b ∧ p = n)
            ∨ (∃ k1, sk !! a = Some k1 ∧ child_at k1 mk0 b0 = Some p)) as Hinv.
  { intros a k0 mk0 b0 p. unfold sk'. rewrite !lookup_insert.
    destruct (decide (parent = a)) as [<-|_].
    - intros [= <-]. rewrite child_at_with_child by done.
      case_decide as Hd; [destruct Hd as [-> ->]; intros [= <-]; by left|].
      intros Hp. right. eauto.
    - case_decide; [by intros [= <-]|]. intros Ha Hp. right. eauto. }
  split.
  - intros a. unfold sk'. rewrite !lookup_insert.
    destruct (decide (parent = a)) as [<-|_].
    + intros _. assert (parent < n); [|lia]. apply Hbelow. eauto.
    + case_decide; [lia|]. intros ?%Hbelow. lia.
  - intros a k0 mk0 b0 p Ha Hp. unfold sk'. rewrite !lookup_insert.
    destruct (Hinv _ _ _ _ _ Ha Hp) as [(_ & _ & _ & ->)|(k1 & Ha1 & Hp1)].
    + by rewrite decide_False, decide_True.
    + destruct (Hold _ _ _ _ _ Ha1 Hp1). rewrite !decide_False by done. eauto.
  - intros a k0 mk0 b0 a' k' mk' b' p Ha Hp Ha' Hp'.
    destruct (Hinv _ _ _ _ _ Ha Hp) as [(-> & -> & -> & ->)|(k1 & Ha1 & Hp1)],
      (Hinv _ _ _ _ _ Ha' Hp') as [(-> & -> & -> & Hn')|(k1' & Ha1' & Hp1')].
    + done.
    + by destruct (Hold _ _ _ _ _ Ha1' Hp1').
    + subst p. by destruct (Hold _ _ _ _ _ Ha1 Hp1).
    + eauto.
Qed.

Lemma Heap_ok_drop_child sk n parent k mk b :
  sk !! parent = Some k → has_map k mk →
  Heap_ok sk n →
  Heap_ok (<[parent := with_child k mk b None]>
             (from_option (λ p, delete p sk) sk (child_at k mk b))) n.
Proof.
  intros Hparent Hmap [Hbelow Hlive Huniq].
  set (sk0 := from_option (λ p, delete p sk) sk (child_at k mk b)).
  set (sk' := <[parent := with_child k mk b None]> sk0).
  assert (∀ a k0, sk0 !! a = Some k0 → sk !! a = Some k0) as Hsub.
  { intros a k0. unfold sk0. destruct (child_at k mk b) as [p|]; simpl; [|done].
    rewrite lookup_delete. by case_decide. }
  assert (∀ a k0 mk0 b0 q, sk' !! a = Some k0 → child_at k0 mk0 b0 = Some q →
            (∃ k1, sk !! a = Some k1 ∧ child_at k1 mk0 b0 = Some q)
            ∧ ¬ (a = parent ∧ mk0 = mk ∧ b0 = b)) as Hinv.
  { intros a k0 mk0 b0 q. unfold sk'. rewrite lookup_insert.
    destruct (decide (parent = a)) as [<-|Hne].
    - intros [= <-]. rewrite child_at_with_child by done.
      case_decide as Hd; [done|]. intros Hq. split; [eauto|]. intros (_ & -> & ->). auto.
    - intros Ha%Hsub Hq. split; [eauto|]. intros (-> & _). done. }
  split.
  - intros a. unfold sk'. rewrite lookup_insert.
    destruct (decide (parent = a)) as [<-|_]; [intros _; apply Hbelow; eauto|].
    intros [k0 Hk0%Hsub]. apply Hbelow. eauto.
  - intros a k0 mk0 b0 q Ha Hq.
    destruct (Hinv _ _ _ _ _ Ha Hq) as [(k1 & Ha1 & Hq1) Hne].
    pose proof (Hlive _ _ _ _ _ Ha1 Hq1) as Hlq.
    unfold sk'. rewrite lookup_insert_ne.
    2:{ intros <-. rewrite Hparent in Hlq. injection Hlq as ->. by destruct mk. }
    unfold sk0. destruct (child_at k mk b) as [p|] eqn:Hp; simpl; [|done].
    rewrite lookup_delete_ne; [done|]. intros <-.
    apply Hne. by destruct (Huniq _ _ _ _ _ _ _ _ _ Ha1 Hq1 Hparent Hp) as (-> & -> & ->).
  - intros a k0 mk0 b0 a' k' mk' b' q Ha Hq Ha' Hq'.
    destruct (Hinv _ _ _ _ _ Ha Hq) as [(k1 & Ha1 & Hq1) _].
    destruct (Hinv _ _ _ _ _ Ha' Hq') as [(k1' & Ha1' & Hq1') _]. eauto.
Qed.

Lemma keeps_classes_add_child sk n parent k mk b :
  sk !! parent = Some k → sk !! n = None →
  keeps_classes sk (<[parent := with_child k mk b (Some n)]> (<[n := SkPlain]> sk)).
Proof.
  intros Hparent Hn. split; intros s; unfold is_setting, is_button;
    rewrite !lookup_insert; intros (? & ? & Hs);
    (destruct (decide (parent = s)) as [<-|_];
     [rewrite Hparent in Hs; injection Hs as ->; by destruct mk; eauto|]);
    rewrite decide_False by congruence; eauto.
Qed.

Lemma keeps_classes_drop_child sk parent k mk b :
  sk !! parent = Some k →
  (∀ p, child_at k mk b = Some p → sk !! p = Some SkPlain) →
  keeps_classes sk (<[parent := with_child k mk b None]>
                      (from_option (λ p, delete p sk) sk (child_at k mk b))).
Proof.
  intros Hparent Hplain. split; intros s; unfold is_setting, is_button;
    rewrite !lookup_insert; intros (? & ? & Hs);
    (destruct (decide (parent = s)) as [<-|_];
     [rewrite Hparent in Hs; injection Hs as ->; by destruct mk; eauto|]);
    (destruct (child_at k mk b) as [p|]; simpl; [|by eauto]);
    (rewrite lookup_delete_ne; [by eauto|]); intros <-;
    specialize (Hplain _ eq_refl); congruence.
Qed.

Lemma keeps_classes_alloc sk n k : sk !! n = None → keeps_classes sk (<[n := k]> sk).
Proof.
  intros Hn. split; intros s (? & ? & Hs); unfold is_setting, is_button;
    (rewrite lookup_insert_ne; [by eauto|]); congruence.
Qed.

Lemma Bound_ok_mono sk sk' n n' cs :
  keeps_classes sk sk' → n ≤ n' → Bound_ok sk n cs → Bound_ok sk' n' cs.
Proof.
  intros [Hs Hb] Hn Hok a c Hc. destruct (Hok _ _ Hc) as (Hv & Hp & Ht).
  split_and!; [lia| |].
  - destruct (_parse c) as [|? [s|]]; simpl in *; auto.
  - destruct (_taskOnDestruction c) as [[| |]|]; simpl in *; [auto| | |done].
    + destruct Ht. auto.
    + destruct Ht. auto.
Qed.

Section InvFacts.
Context {T : Type} `{!EqDecision T, !Streamable T, !DisplayNewValueFor T}.
Context `{!ChordRemovalPolicy T, !ButtonCatalogue, !CommandBase}.
Implicit Types (st : State T) (x y : JSMVariable T) (o : VarObj T).

Lemma Inv_same st st' :
  skeleton <$> vars st' = skeleton <$> vars st →
  base <$> vars st' = base <$> vars st →
  next_var st' = next_var st → cmds st' = cmds st → next_cmd st' = next_cmd st →
  Inv st → Inv st'.
Proof. intros E1 E2 E3 E4 E5 [? ? ? ?]. split; rewrite ?E1, ?E2, ?E3, ?E4, ?E5; done. Qed.

Lemma Inv_print st out : Inv st → Inv (print st out).
Proof. by apply Inv_same. Qed.

Lemma Inv_store_same st r x x' :
  deref (vars st) r = Some x →
  _onChangeListeners x' = _onChangeListeners x → _delegateID x' = _delegateID x →
  Inv st → Inv (with_vars st (store (vars st) r x')).
Proof.
  intros Hx Hl Hd [Hheap Hbelow Hbound Hlis].
  assert (is_Some (vars st !! r)) as Hsome.
  { unfold deref in Hx. destruct (vars st !! r); [by eexists|done]. }
  rewrite deref_lookup in Hx.
  split; simpl; rewrite ?skeleton_store; try done.
  rewrite base_store by done. eapply Listeners_ok_frame; [|done].
  intros r' x''. rewrite lookup_insert. case_decide; [subst r'|by eauto 10].
  intros [= <-]. left. eauto.
Qed.

Lemma Inv_assign st r v st' w :
  assign st r v = Some (st', w) → Inv st → Inv st'.
Proof.
  unfold assign. destruct (deref (vars st) r) as [x|] eqn:Hx; simpl; [|done].
  case_decide.
  - intros [= <- _] Hinv. by eapply Inv_store_same.
  - destruct (notify _ _ _) as [out|]; simpl; [|done].
    intros [= <- _] Hinv. apply Inv_print. by eapply Inv_store_same.
Qed.

Lemma Inv_declare st k v filter :
  Inv st → Inv (alloc_var st (new_object k (new_variable v filter))).1.
Proof.
  intros [Hheap Hbelow Hbound Hlis].
  assert (vars st !! next_var st = None) as Hn.
  { apply eq_None_not_Some. intros Hs.
    assert (next_var st < next_var st); [|lia].
    apply (heap_below _ _ Hheap). rewrite lookup_fmap. by apply fmap_is_Some. }
  split; simpl; rewrite ?fmap_insert; try done.
  - apply Heap_ok_alloc; [|done]. by destruct k, mk.
  - eapply Bound_ok_mono; [|by apply Nat.le_succ_diag_r|done].
    apply keeps_classes_alloc. by rewrite lookup_fmap, Hn.
  - eapply Listeners_ok_frame; [|done].
    intros r x'. rewrite lookup_insert. case_decide; [subst r|by eauto 10].
    intros [= <-]. right. split; [by destruct k|].
    intros a c Hc. destruct (Hbound _ _ Hc). lia.
Qed.

Lemma Inv_subscribe st r x say :
  deref (vars st) r = Some x → Inv st →
  Inv (with_vars st (store (vars st) r (AddOnChangeListener x (OtherListener say)).1)).
Proof.
  intros Hx [Hheap Hbelow Hbound Hlis].
  assert (is_Some (vars st !! r)) as Hsome.
  { unfold deref in Hx. destruct (vars st !! r); [by eexists|done]. }
  rewrite deref_lookup in Hx.
  split; simpl; rewrite ?skeleton_store; try done.
  rewrite base_store by done. by apply Listeners_ok_subscribe.
Qed.

Lemma Inv_new st name displayName var st' this :
  JSMAssignment_new st name displayName var = Some (st', this) → Inv st → Inv st'.
Proof.
  unfold JSMAssignment_new.
  destruct (deref (vars st) var) as [x|] eqn:Hx; simpl; [|done].
  intros [= <- <-] [Hheap Hbelow Hbound Hlis].
  assert (is_Some (vars st !! var)) as Hsome.
  { unfold deref in Hx. destruct (vars st !! var); [by eexists|done]. }
  rewrite deref_lookup in Hx.
  assert (cmds st !! next_cmd st = None) as Hn.
  { apply eq_None_not_Some. intros ?%Hbelow. lia. }
  split; simpl; rewrite ?skeleton_store; try done.
  - intros a. rewrite lookup_insert. case_decide; [lia|]. intros ?%Hbelow. lia.
  - intros a c. rewrite lookup_insert. case_decide; [|by apply Hbound].
    intros [= <-]. simpl. split; [|done].
    apply (heap_below _ _ Hheap). rewrite lookup_fmap. by apply fmap_is_Some.
  - rewrite base_store by done.
    by apply (Listeners_ok_new _ _
      {| _name := name; _help := default_help; _parse := DefaultParserFn;
         _taskOnDestruction := None; _var := var; _displayName := displayName;
         _listenerId := _delegateID x |}).
Qed.

Lemma Inv_mark st s b st' :
  MarkModeshiftForRemoval st s b = Some st' → Inv st → Inv st'.
Proof.
  unfold MarkModeshiftForRemoval.
  destruct (vars st !! s) as [[|id x m rm|]|] eqn:Hs; simpl; try done.
  intros [= <-]. apply Inv_same; simpl; try done; rewrite fmap_insert.
  - apply insert_id. by rewrite lookup_fmap, Hs.
  - apply insert_id. by rewrite lookup_fmap, Hs.
Qed.

(** Allocating the child of [parent] at [b] in the map [mk]. *)
Lemma Inv_add_child st parent o o' mk b x :
  vars st !! parent = Some o →
  has_map (skeleton o) mk → child_at (skeleton o) mk b = None →
  skeleton o' = with_child (skeleton o) mk b (Some (next_var st)) →
  base o' = base o → _onChangeListeners x = [] →
  Inv st →
  Inv (with_vars (alloc_var st (PlainVariable x)).1
         (<[parent := o']> (vars (alloc_var st (PlainVariable x)).1))).
Proof.
  intros Hparent Hmap Hnone Hsk Hbase Hx [Hheap Hbelow Hbound Hlis].
  assert (vars st !! next_var st = None) as Hn.
  { apply eq_None_not_Some. intros Hs.
    assert (next_var st < next_var st); [|lia].
    apply (heap_below _ _ Hheap). rewrite lookup_fmap. by apply fmap_is_Some. }
  assert ((skeleton <$> vars st) !! parent = Some (skeleton o)) as Hskp.
  { by rewrite lookup_fmap, Hparent. }
  split; simpl; rewrite ?fmap_insert, ?Hsk; simpl; try done.
  - by apply Heap_ok_add_child.
  - eapply Bound_ok_mono; [|by apply Nat.le_succ_diag_r|done].
    apply keeps_classes_add_child; [done|]. by rewrite lookup_fmap, Hn.
  - eapply Listeners_ok_frame; [|done].
    intros r x'. rewrite !lookup_insert.
    destruct (decide (parent = r)) as [<-|_].
    + intros [= <-]. left. exists (base o). rewrite lookup_fmap, Hparent, Hbase. done.
    + case_decide; [subst r|by eauto 10].
      intros [= <-]. right. split; [done|].
      intros a c Hc. destruct (Hbound _ _ Hc). lia.
Qed.

Lemma Inv_AtChord st parent chord st' p :
  AtChord st parent chord = Some (st', p) → Inv st → Inv st'.
Proof.
  unfold AtChord.
  destruct (vars st !! parent) as [[|id x m rm|x m sm]|] eqn:Hs; simpl; try done.
  - destruct (m !! chord) as [q|] eqn:Hq; [by intros [= <- <-]|].
    intros [= <- <-]. by eapply (Inv_add_child _ _ _ _ ChordMap chord).
  - destruct (m !! chord) as [q|] eqn:Hq; [by intros [= <- <-]|].
    intros [= <- <-]. by eapply (Inv_add_child _ _ _ _ ChordMap chord).
Qed.

Lemma Inv_AtSimPress st button chord st' p :
  AtSimPress st button chord = Some (st', p) → Inv st → Inv st'.
Proof.
  unfold AtSimPress.
  destruct (vars st !! button) as [[|id x m rm|x m sm]|] eqn:Hs; simpl; try done.
  destruct (sm !! chord) as [q|] eqn:Hq; [by intros [= <- <-]|].
  intros [= <- <-]. by eapply (Inv_add_child _ _ _ _ SimMap chord).
Qed.

(** Dropping the child of [parent] at [b] in the map [mk]. *)
Lemma Inv_drop_child st parent o o' mk b :
  vars st !! parent = Some o →
  has_map (skeleton o) mk →
  skeleton o' = with_child (skeleton o) mk b None →
  base o' = base o →
  Inv st →
  Inv (with_vars st
         (<[parent := o']>
            (from_option (λ p, delete p (vars st)) (vars st)
               (child_at (skeleton o) mk b)))).
Proof.
  intros Hparent Hmap Hsk Hbase [Hheap Hbelow Hbound Hlis].
  assert ((skeleton <$> vars st) !! parent = Some (skeleton o)) as Hskp.
  { by rewrite lookup_fmap, Hparent. }
  assert (∀ f : VarObj T → Skeleton,
    f <$> from_option (λ p, delete p (vars st)) (vars st) (child_at (skeleton o) mk b)
    = from_option (λ p, delete p (f <$> vars st)) (f <$> vars st)
        (child_at (skeleton o) mk b)) as Hfm.
  { intros f. destruct (child_at _ _ _); simpl; [by rewrite fmap_delete|done]. }
  split; simpl; rewrite ?fmap_insert, ?Hsk; try done.
  - rewrite Hfm. by apply Heap_ok_drop_child.
  - rewrite Hfm. eapply Bound_ok_mono; [|done|done].
    apply keeps_classes_drop_child; [done|].
    intros p Hp. eapply heap_child_live; eauto.
  - eapply Listeners_ok_frame; [|done].
    intros r x'. rewrite !lookup_insert.
    destruct (decide (parent = r)) as [<-|_].
    + intros [= <-]. left. exists (base o). rewrite lookup_fmap, Hparent, Hbase. done.
    + intros Hr. left. exists x'. split; [|done].
      destruct (child_at _ _ _); simpl in Hr; [|done].
      rewrite fmap_delete, lookup_delete in Hr. by case_decide.
Qed.

Lemma Inv_run_task st task st' :
  run_task st task = Some st' → Inv st → Inv st'.
Proof.
  destruct task as [s b|bt b p|bt b p]; simpl.
  - unfold ProcessModeshiftRemoval.
    destruct (vars st !! s) as [[|id x m rm|]|] eqn:Hs; simpl; try done.
    case_decide; [|by intros [= <-]].
    intros [= <-]. by apply (Inv_drop_child st s (JSMSetting id x m rm) _ ChordMap b).
  - unfold ProcessChordRemoval.
    destruct (vars st !! bt) as [o|] eqn:Hs; simpl; [|done].
    destruct (get st p) as [v|]; simpl; [|done].
    destruct o as [|id x m rm|x m sm]; try done.
    destruct (drops_binding v); [|by intros [= <-]].
    intros [= <-]. by apply (Inv_drop_child st bt (JSMButton x m sm) _ ChordMap b).
  - unfold ProcessSimPressRemoval.
    destruct (vars st !! bt) as [o|] eqn:Hs; simpl; [|done].
    destruct (get st p) as [v|]; simpl; [|done].
    destruct o as [|id x m rm|x m sm]; try done.
    destruct (drops_binding v); [|by intros [= <-]].
    intros [= <-]. by apply (Inv_drop_child st bt (JSMButton x m sm) _ SimMap b).
Qed.

Lemma run_task_with_cmds st cs task :
  run_task (with_cmds st cs) task = (λ s, with_cmds s cs) <$> run_task st task.
Proof.
  destruct task as [s b|bt b p|bt b p]; simpl.
  - unfold ProcessModeshiftRemoval. simpl.
    destruct (vars st !! s) as [[|id x m rm|]|]; simpl; try done. by case_decide.
  - unfold ProcessChordRemoval, get. simpl.
    destruct (vars st !! bt) as [o|]; simpl; [|done].
    destruct (deref (vars st) p); simpl; [|done].
    destruct o; try done. by destruct (drops_binding _).
  - unfold ProcessSimPressRemoval, get. simpl.
    destruct (vars st !! bt) as [o|]; simpl; [|done].
    destruct (deref (vars st) p); simpl; [|done].
    destruct o; try done. by destruct (drops_binding _).
Qed.

Lemma run_task_cmds st task st' :
  run_task st task = Some st' → cmds st' = cmds st ∧ next_cmd st' = next_cmd st.
Proof.
  destruct task as [s b|bt b p|bt b p]; simpl.
  - unfold ProcessModeshiftRemoval.
    destruct (vars st !! s) as [[|id x m rm|]|]; simpl; try done.
    case_decide; by intros [= <-].
  - unfold ProcessChordRemoval.
    destruct (vars st !! bt) as [o|]; simpl; [|done].
    destruct (get st p); simpl; [|done].
    destruct o; try done. destruct (drops_binding _); by intros [= <-].
  - unfold ProcessSimPressRemoval.
    destruct (vars st !! bt) as [o|]; simpl; [|done].
    destruct (get st p); simpl; [|done].
    destruct o; try done. destruct (drops_binding _); by intros [= <-].
Qed.

Lemma Inv_delete st this st' :
  JSMAssignment_delete st this = Some st' → Inv st → Inv st'.
Proof.
  unfold JSMAssignment_delete, JSMCommand_delete.
  destruct (cmds st !! this) as [c|] eqn:Hc; simpl; [|done].
  destruct (deref (vars st) (_var c)) as [x|] eqn:Hx; simpl; [|done].
  set (st1 := with_vars st _).
  intros Hrun [Hheap Hbelow Hbound Hlis].
  assert (is_Some (vars st !! _var c)) as Hsome.
  { unfold deref in Hx. destruct (vars st !! _var c); [by eexists|done]. }
  rewrite deref_lookup in Hx.
  assert (Inv (with_cmds st1 (delete this (cmds st)))) as Hinv1.
  { split; simpl; rewrite ?skeleton_store; try done.
    - intros a [c' Hc']. apply Hbelow. rewrite lookup_delete in Hc'.
      case_decide; [done|by eexists].
    - intros a c'. rewrite lookup_delete. case_decide; [done|]. apply Hbound.
    - rewrite base_store by done. by apply Listeners_ok_delete. }
  destruct (_taskOnDestruction c) as [task|].
  - destruct (run_task st1 task) as [st2|] eqn:Htask; simpl in Hrun; [|done].
    injection Hrun as <-. destruct (run_task_cmds _ _ _ Htask) as [-> _].
    eapply (Inv_run_task _ task); [|exact Hinv1].
    by rewrite run_task_with_cmds, Htask.
  - simpl in Hrun. by injection Hrun as <-.
Qed.

Lemma Inv_configure st cmd help parser task :
  parser_ok (skeleton <$> vars st) parser →
  (∀ c, cmds st !! cmd = Some c →
        task_ok (skeleton <$> vars st) (_var c) (Some task)) →
  Inv st → Inv (configure st cmd help parser task).
Proof.
  intros Hparser Htask [Hheap Hbelow Hbound Hlis]. split; simpl; try done.
  - intros a Ha. apply Hbelow. by rewrite lookup_alter_is_Some in Ha.
  - intros a c'. rewrite lookup_alter. case_decide; [subst a|by apply Hbound].
    destruct (cmds st !! cmd) as [c|] eqn:Hc; simpl; [|done].
    intros [= <-]. simpl. destruct (Hbound _ _ Hc) as [? _].
    split_and!; [done|done|]. by apply (Htask c).
  - eapply Listeners_ok_cmds; [| |done].
    + intros a c'. rewrite lookup_alter. case_decide; [subst a|by eauto].
      destruct (cmds st !! cmd) as [c|]; simpl; [|done].
      intros [= <-]. eauto.
    + intros a c Hc. rewrite lookup_alter. case_decide; [subst a|by eauto].
      rewrite Hc. simpl. eauto.
Qed.

Lemma as_JSMSetting_Some (vs : gmap nat (VarObj T)) r s :
  as_JSMSetting vs r = Some (Some s) → s = r ∧ is_setting (skeleton <$> vs) r.
Proof.
  unfold as_JSMSetting, is_setting. rewrite lookup_fmap.
  destruct (vs !! r) as [[| |]|]; try done. intros [= <-]. simpl. eauto.
Qed.

Lemma as_JSMButton_Some (vs : gmap nat (VarObj T)) r s :
  as_JSMButton vs r = Some (Some s) → s = r ∧ is_button (skeleton <$> vs) r.
Proof.
  unfold as_JSMButton, is_button. rewrite lookup_fmap.
  destruct (vs !! r) as [[| |]|]; try done. intros [= <-]. simpl. eauto.
Qed.

Lemma keeps_classes_refl (sk : gmap nat Skeleton) : keeps_classes sk sk.
Proof. by split. Qed.

Lemma AtChord_keeps st parent chord st' p :
  AtChord st parent chord = Some (st', p) → Inv st →
  keeps_classes (skeleton <$> vars st) (skeleton <$> vars st').
Proof.
  intros Hat Hinv.
  assert (vars st !! next_var st = None) as Hn.
  { apply eq_None_not_Some. intros Hs.
    assert (next_var st < next_var st); [|lia].
    apply (heap_below _ _ (inv_heap _ Hinv)). rewrite lookup_fmap. by apply fmap_is_Some. }
  revert Hat. unfold AtChord.
  destruct (vars st !! parent) as [[|id x m rm|x m sm]|] eqn:Hs; simpl; try done.
  - destruct (m !! chord) as [q|] eqn:Hq; [intros [= <- <-]; apply keeps_classes_refl|].
    intros [= <- <-]. simpl. rewrite !fmap_insert.
    apply (keeps_classes_add_child _ _ _ (SkSetting id m) ChordMap chord).
    + by rewrite lookup_fmap, Hs.
    + by rewrite lookup_fmap, Hn.
  - destruct (m !! chord) as [q|] eqn:Hq; [intros [= <- <-]; apply keeps_classes_refl|].
    intros [= <- <-]. simpl. rewrite !fmap_insert.
    apply (keeps_classes_add_child _ _ _ (SkButton m sm) ChordMap chord).
    + by rewrite lookup_fmap, Hs.
    + by rewrite lookup_fmap, Hn.
Qed.

Lemma AtSimPress_keeps st button chord st' p :
  AtSimPress st button chord = Some (st', p) → Inv st →
  keeps_classes (skeleton <$> vars st) (skeleton <$> vars st').
Proof.
  intros Hat Hinv.
  assert (vars st !! next_var st = None) as Hn.
  { apply eq_None_not_Some. intros Hs.
    assert (next_var st < next_var st); [|lia].
    apply (heap_below _ _ (inv_heap _ Hinv)). rewrite lookup_fmap. by apply fmap_is_Some. }
  revert Hat. unfold AtSimPress.
  destruct (vars st !! button) as [[|id x m rm|x m sm]|] eqn:Hs; simpl; try done.
  destruct (sm !! chord) as [q|] eqn:Hq; [intros [= <- <-]; apply keeps_classes_refl|].
  intros [= <- <-]. simpl. rewrite !fmap_insert.
  apply (keeps_classes_add_child _ _ _ (SkButton m sm) SimMap chord).
  - by rewrite lookup_fmap, Hs.
  - by rewrite lookup_fmap, Hn.
Qed.

Lemma new_skeleton st name displayName var st' this :
  JSMAssignment_new st name displayName var = Some (st', this) →
  skeleton <$> vars st' = skeleton <$> vars st
  ∧ this = next_cmd st
  ∧ cmds st' !! this
    = Some {| _name := name; _help := default_help; _parse := DefaultParserFn;
              _taskOnDestruction := None; _var := var; _displayName := displayName;
              _listenerId := from_option _delegateID 0 (deref (vars st) var) |}.
Proof.
  unfold JSMAssignment_new.
  destruct (deref (vars st) var) as [x|]; simpl; [|done].
  intros [= <- <-]. simpl. by rewrite skeleton_store, lookup_insert_eq.
Qed.

Lemma parser_ok_keeps sk sk' parser :
  keeps_classes sk sk' → parser_ok sk parser → parser_ok sk' parser.
Proof. intros [Hs _]. destruct parser as [|? [?|]]; simpl; auto. Qed.

(** The object built in any of the three branches of [GetModifiedCmd]. *)
Lemma Inv_derived st st1 st2 name child d help parser task :
  keeps_classes (skeleton <$> vars st) (skeleton <$> vars st1) →
  JSMAssignment_new2 st1 name child = Some (st2, d) →
  parser_ok (skeleton <$> vars st) parser →
  task_ok (skeleton <$> vars st) child (Some task) →
  Inv st1 → Inv (configure st2 d help parser task).
Proof.
  intros Hkeep Hnew Hparser Htask Hinv1.
  destruct (new_skeleton _ _ _ _ _ _ Hnew) as (Hsk & _ & Hd).
  apply Inv_configure; rewrite ?Hsk.
  - by eapply parser_ok_keeps.
  - intros c. rewrite Hd. intros [= <-]. simpl.
    destruct Hkeep as [Hs Hb].
    destruct task; simpl in *; [auto| |]; destruct Htask; auto.
  - by eapply Inv_new.
Qed.

Lemma Inv_GetModifiedCmd st this op chord st' r :
  GetModifiedCmd st this op chord = Some (st', r) → Inv st → Inv st'.
Proof.
  unfold GetModifiedCmd, JSMCommand_GetModifiedCmd.
  destruct (cmds st !! this) as [c|] eqn:Hc; simpl; [|done].
  intros Hget Hinv.
  assert (parser_ok (skeleton <$> vars st) (_parse c)) as Hparse.
  { by destruct (inv_bound _ Hinv _ _ Hc) as (_ & ? & _). }
  revert Hget.
  destruct (enum_cast chord) as [btn|]; [|by intros [= <- _]].
  case_bool_decide; [|by intros [= <- _]].
  destruct (decide (op = ","%char)) as [_|_].
  - destruct (as_JSMSetting _ _) as [[settingVar|]|] eqn:Hset; simpl; [| |done].
    + apply as_JSMSetting_Some in Hset as [-> Hset].
      destruct (AtChord st _ btn) as [[st1 child]|] eqn:Hat; simpl; [|done].
      destruct (JSMAssignment_new2 st1 _ child) as [[st2 d]|] eqn:Hnew; simpl; [|done].
      intros [= <- _]. eapply Inv_derived; eauto using AtChord_keeps, Inv_AtChord.
    + destruct (as_JSMButton _ _) as [[buttonVar|]|] eqn:Hbut; simpl;
        [|by intros [= <- _]|done].
      apply as_JSMButton_Some in Hbut as [-> Hbut].
      destruct (AtChord st _ btn) as [[st1 child]|] eqn:Hat; simpl; [|done].
      destruct (JSMAssignment_new2 st1 _ child) as [[st2 d]|] eqn:Hnew; simpl; [|done].
      intros [= <- _].
      eapply Inv_derived; eauto using AtChord_keeps, Inv_AtChord. by split.
  - destruct (decide (op = "+"%char)) as [_|_]; [|by intros [= <- _]].
    destruct (as_JSMButton _ _) as [[buttonVar|]|] eqn:Hbut; simpl;
      [|by intros [= <- _]|done].
    apply as_JSMButton_Some in Hbut as [-> Hbut].
    case_bool_decide; [|by intros [= <- _]].
    destruct (AtSimPress st _ btn) as [[st1 child]|] eqn:Hat; simpl; [|done].
    destruct (JSMAssignment_new2 st1 _ child) as [[st2 d]|] eqn:Hnew; simpl; [|done].
    intros [= <- _].
    eapply Inv_derived; eauto using AtSimPress_keeps, Inv_AtSimPress. by split.
Qed.

Lemma Inv_DefaultParser st cmd data st' ok :
  DefaultParser st cmd data = Some (st', ok) → Inv st → Inv st'.
Proof.
  unfold DefaultParser.
  destruct (cmds st !! cmd) as [inst|] eqn:Hc; simpl; [|done].
  case_decide.
  - destruct (get st (_var inst)); simpl; [|done].
    intros [= <- _]. apply Inv_print.
  - destruct (stream_in data) as [value|]; [|by intros [= <- _]].
    destruct (get st (_var inst)) as [oldVal|]; simpl; [|done].
    destruct (assign st (_var inst) value) as [[st1 w]|] eqn:Has; simpl; [|done].
    destruct (get st1 (_var inst)) as [now|]; simpl; [|done].
    intros Hrun Hinv. apply (Inv_assign _ _ _ _ _ Has) in Hinv.
    revert Hrun. case_decide.
    + unfold DisplayNewValue. destruct (cmds st1 !! cmd); simpl; [|done].
      intros [= <- _]. by apply Inv_print.
    + simpl. by intros [= <- _].
Qed.

Lemma Inv_call_parse st parser this data st' ok :
  call_parse st parser this data = Some (st', ok) → Inv st → Inv st'.
Proof.
  destruct parser as [|modeshift [s|]]; simpl; try apply Inv_DefaultParser.
  case_decide; [|apply Inv_DefaultParser].
  destruct (MarkModeshiftForRemoval st s modeshift) as [st1|] eqn:Hmark; simpl; [|done].
  destruct (vars st1 !! s) as [[| |]|]; simpl; try done.
  intros [= <- _] Hinv. apply Inv_print. by eapply Inv_mark.
Qed.

Lemma Inv_ParseData st this arguments st' ok :
  ParseData st this arguments = Some (st', ok) → Inv st → Inv st'.
Proof.
  unfold ParseData. destruct (cmds st !! this) as [c|]; simpl; [|done].
  case_decide; [intros [= <- _]; apply Inv_print|].
  destruct (Regex.regex_match _ _) as [data|]; [|by intros [= <- _]].
  destruct (call_parse st (_parse c) this data) as [[st1 [|]]|] eqn:Hp; [| |done].
  - intros [= <- _]. by eapply Inv_call_parse.
  - intros [= <- _] Hinv. apply Inv_print. by eapply Inv_call_parse.
Qed.

Lemma Inv_exec st a st' : exec st a = Some st' → Inv st → Inv st'.
Proof.
  destruct a as [k v f|r say|name dn var|this args|this op chord|this v|r v|this];
    simpl.
  - intros [= <-]. apply Inv_declare.
  - destruct (deref (vars st) r) as [x|] eqn:Hx; simpl; [|done].
    intros [= <-]. by apply Inv_subscribe.
  - destruct (JSMAssignment_new _ _ _ _) as [[st1 d]|] eqn:Hnew; simpl; [|done].
    intros [= <-]. by eapply Inv_new.
  - destruct (ParseData _ _ _) as [[st1 ok]|] eqn:Hp; simpl; [|done].
    intros [= <-]. by eapply Inv_ParseData.
  - destruct (GetModifiedCmd _ _ _ _) as [[st1 r]|] eqn:Hp; simpl; [|done].
    intros [= <-]. by eapply Inv_GetModifiedCmd.
  - unfold JSMAssignment_assign. destruct (cmds st !! this) as [c|]; simpl; [|done].
    destruct (assign _ _ _) as [[st1 w]|] eqn:Has; simpl; [|done].
    intros [= <-]. by eapply Inv_assign.
  - destruct (assign _ _ _) as [[st1 w]|] eqn:Has; simpl; [|done].
    intros [= <-]. by eapply Inv_assign.
  - apply Inv_delete.
Qed.

Lemma Inv_initial : Inv (initial (T:=T)).
Proof.
  split; simpl.
  - split; intros *; rewrite fmap_empty, lookup_empty; [by intros []|done|done].
  - intros a. rewrite lookup_empty. by intros [].
  - intros a c. by rewrite lookup_empty.
  - split; intros *; rewrite ?fmap_empty, ?lookup_empty; done.
Qed.

Lemma Inv_exec_all acts : ∀ st st', exec_all st acts = Some st' → Inv st → Inv st'.
Proof.
  induction acts as [|a acts IH]; simpl; intros st st'; [by intros [= <-]|].
  destruct (exec st a) as [st1|] eqn:Ha; simpl; [|done].
  intros Hrest Hinv. eapply IH; [done|]. by eapply Inv_exec.
Qed.

Lemma reachable_Inv st : reachable st → Inv st.
Proof. intros [acts Hacts]. eapply Inv_exec_all; [done|apply Inv_initial]. Qed.

End InvFacts.

(** ** Properties of the parsers, of chord composition and of destruction *)

Section ParserFacts.
Context {T : Type} `{!EqDecision T, !Streamable T, !DisplayNewValueFor T}.
Context `{!ChordRemovalPolicy T, !ButtonCatalogue, !CommandBase}.
Implicit Types (st : State T) (x y : JSMVariable T) (o : VarObj T).
Implicit Types (cs : gmap nat JSMAssignment) (ls : list (nat * OnChangeDelegate T)).

Lemma deref_store_eq (vs : gmap nat (VarObj T)) r y :
  is_Some (vs !! r) → deref (store vs r y) r = Some y.
Proof.
  intros Hs. rewrite deref_lookup, base_store by done. apply lookup_insert_eq.
Qed.

Lemma deref_is_Some (vs : gmap nat (VarObj T)) r x :
  deref vs r = Some x → is_Some (vs !! r).
Proof. unfold deref. destruct (vs !! r); [by eexists|done]. Qed.

Lemma filter_none {A} (P : A → Prop) `{!∀ e, Decision (P e)} (l : list A) :
  (∀ e, e ∈ l → ¬ P e) → filter P l = [].
Proof.
  induction l as [|e l IH]; intros Hno; [done|]. rewrite filter_cons.
  rewrite decide_False by (apply Hno; by left).
  apply IH. intros e' He'. apply Hno. by right.
Qed.

Lemma notify_total cs ls v :
  (∀ i a, (i, DisplayNewValueOf a) ∈ ls → is_Some (cs !! a)) →
  is_Some (notify cs ls v).
Proof.
  induction ls as [|[i d] ls IH]; simpl; intros Hown; [by eexists|].
  destruct IH as [rest ->].
  { intros j a Hin. eapply Hown. by right. }
  destruct d as [a|say]; simpl; [|by eexists].
  destruct (Hown i a) as [c ->]; [by left|]. by eexists.
Qed.

Lemma lines_by_app (who : Origin) (out1 out2 : list (Origin * string)) :
  lines_by who (out1 ++ out2) = lines_by who out1 + lines_by who out2.
Proof. unfold lines_by. by rewrite filter_app, length_app. Qed.

Lemma notify_lines_by cs ls v a : ∀ out,
  notify cs ls v = Some out →
  lines_by (ByDisplayNewValue a) out = listeners_of a ls.
Proof.
  induction ls as [|[i d] ls IH]; simpl; intros out; [by intros [= <-]|].
  destruct (call_delegate cs d v) as [out1|] eqn:Hd; simpl; [|done].
  destruct (notify cs ls v) as [rest|]; simpl; [|done].
  intros [= <-]. rewrite lines_by_app, (IH rest) by done.
  unfold listeners_of at 2. rewrite filter_cons. simpl.
  destruct d as [b|say]; simpl in *.
  - destruct (cs !! b) as [c|]; simpl in Hd; [|done]. injection Hd as <-.
    unfold lines_by. rewrite filter_cons. simpl.
    case_bool_decide as Hb.
    + subst b. rewrite decide_True by done. by destruct (decide _).
    + rewrite decide_False by congruence. by destruct (decide _).
  - injection Hd as <-.
    unfold lines_by. rewrite filter_none; [done|].
    intros l (s & -> & _)%list_elem_of_fmap. done.
Qed.

Lemma value_changed_lines_app (out1 out2 : list (Origin * string)) :
  value_changed_lines (out1 ++ out2)
  = value_changed_lines out1 + value_changed_lines out2.
Proof. unfold value_changed_lines. by rewrite filter_app, length_app. Qed.

(** A notification writes one value-changed line for each command bound. *)
Lemma notify_value_changed cs ls v : ∀ out,
  notify cs ls v = Some out → value_changed_lines out = command_listeners ls.
Proof.
  induction ls as [|[i d] ls IH]; simpl; intros out.
  - by intros [= <-].
  - destruct (call_delegate cs d v) as [out1|] eqn:H1; simpl; [|done].
    destruct (notify cs ls v) as [out2|] eqn:H2; simpl; [|done].
    intros [= <-]. rewrite value_changed_lines_app, (IH out2 eq_refl).
    unfold command_listeners. rewrite filter_cons. simpl.
    destruct d as [a|say]; simpl in *.
    + destruct (cs !! a) as [c|]; simpl in H1; [|done]. by injection H1 as <-.
    + injection H1 as <-.
      assert (value_changed_lines ((λ s, (ByOtherListener, s)) <$> say v) = 0) as ->;
        [|done].
      unfold value_changed_lines. induction (say v) as [|s l IHl]; [done|].
      rewrite fmap_cons, filter_cons. simpl. exact IHl.
Qed.

Lemma command_listeners_pos ls i a :
  (i, DisplayNewValueOf a) ∈ ls → 1 ≤ command_listeners ls.
Proof.
  unfold command_listeners. induction ls as [|[j d] ls IH]; intros Hin.
  - by apply elem_of_nil in Hin.
  - rewrite filter_cons. apply elem_of_cons in Hin as [[= <- <-]|Hin]; simpl.
    + lia.
    + specialize (IH Hin). destruct (decide (is_command d)); simpl; lia.
Qed.

Lemma listeners_of_unique ls this i0 :
  NoDup ls.*1 → (i0, DisplayNewValueOf this) ∈ ls →
  (∀ i, (i, DisplayNewValueOf this) ∈ ls → i = i0) →
  listeners_of this ls = 1.
Proof.
  unfold listeners_of. induction ls as [|[i d] ls IH]; simpl;
    [by intros _ ?%elem_of_nil|].
  inversion 1 as [|?? Hi Hnd]; subst. intros Hin Hall. rewrite filter_cons. simpl.
  assert (∀ j, (j, DisplayNewValueOf (T:=T) this) ∈ ls → j = i0) as Hall'.
  { intros j Hj. apply Hall. by right. }
  destruct d as [a|say]; simpl.
  - case_bool_decide as Ha.
    + subst a. simpl. f_equal. assert (i = i0) as -> by (apply Hall; by left).
      apply length_zero_iff_nil, filter_none.
      intros [j [b|say]] Hj; simpl; [|by intros []].
      case_bool_decide; [subst b|by intros []].
      intros _. destruct Hi. apply list_elem_of_fmap. exists (j, DisplayNewValueOf this).
      split; [|done]. simpl. symmetry. by apply Hall'.
    + apply IH; [done| |done].
      apply elem_of_cons in Hin as [[= -> ->]|Hin]; [done|done].
  - apply IH; [done| |done]. by apply elem_of_cons in Hin as [[=]|Hin].
Qed.

Lemma listeners_of_zero ls this :
  (∀ i, (i, DisplayNewValueOf this) ∉ ls) → listeners_of this ls = 0.
Proof.
  intros Hno. unfold listeners_of.
  apply length_zero_iff_nil, filter_none.
  intros [j [b|say]] Hj; simpl; [|by intros []].
  case_bool_decide; [subst b|by intros []].
  by destruct (Hno j).
Qed.

(** In a well-formed state a command alive has one listener on its variable. *)
Lemma Inv_listeners_of_alive st this c x :
  Inv st → cmds st !! this = Some c → deref (vars st) (_var c) = Some x →
  listeners_of this (_onChangeListeners x) = 1
  ∧ (_listenerId c, DisplayNewValueOf this) ∈ _onChangeListeners x.
Proof.
  intros [_ _ _ [Hids Hreg Hown]] Hc Hx. rewrite deref_lookup in Hx.
  pose proof (Hreg _ _ _ Hc Hx) as Hin. split; [|done].
  eapply listeners_of_unique; [|done|].
  - by destruct (Hids _ _ Hx).
  - intros i Hi. destruct (Hown _ _ _ _ Hx Hi) as (c' & Hc' & _ & <-). congruence.
Qed.

(** A listener of a variable is never bound to a command that is gone, nor to
    one bound to another variable. *)
Lemma Inv_listeners_of_other st this r x :
  Inv st → deref (vars st) r = Some x →
  (∀ c, cmds st !! this = Some c → _var c ≠ r) →
  listeners_of this (_onChangeListeners x) = 0.
Proof.
  intros [_ _ _ [Hids Hreg Hown]] Hx Hother. rewrite deref_lookup in Hx.
  apply listeners_of_zero. intros i Hi.
  destruct (Hown _ _ _ _ Hx Hi) as (c' & Hc' & Hv & _). by destruct (Hother _ Hc').
Qed.

Lemma Inv_notify_total st r x v :
  Inv st → deref (vars st) r = Some x →
  is_Some (notify (cmds st) (_onChangeListeners x) v).
Proof.
  intros [_ _ _ [Hids Hreg Hown]] Hx. rewrite deref_lookup in Hx.
  apply notify_total. intros i a Hi.
  destruct (Hown _ _ _ _ Hx Hi) as (c' & Hc' & _). by eexists.
Qed.

(** What the assignment branch of [DefaultParser] does. *)
Lemma DefaultParser_assigns st cmd inst data value x :
  Inv st → cmds st !! cmd = Some inst → data ≠ "" → stream_in data = Some value →
  deref (vars st) (_var inst) = Some x →
  let oldVal := _value x in
  let now := _filter x oldVal value in
  ∃ st' out,
    DefaultParser st cmd data
    = Some (st', bool_decide (value = oldVal) || bool_decide (now ≠ oldVal))
    ∧ vars st' = store (vars st) (_var inst) (set_value x now)
    ∧ cmds st' = cmds st ∧ cout st' = cout st ++ out
    ∧ (now = oldVal → out = [DisplayNewValue_line cmd inst now])
    ∧ (now ≠ oldVal → notify (cmds st) (_onChangeListeners x) now = Some out).
Proof.
  intros Hinv Hc Hdata Hin Hx oldVal now.
  pose proof (deref_is_Some _ _ _ Hx) as Hsome.
  unfold DefaultParser. rewrite Hc. simpl. rewrite decide_False by done.
  rewrite Hin. unfold get, assign. rewrite Hx. simpl. fold oldVal now.
  destruct (decide (now = oldVal)) as [Heq|Hne]; simpl.
  - rewrite deref_store_eq by done. simpl.
    rewrite decide_True by done. unfold DisplayNewValue. simpl. rewrite Hc. simpl.
    eexists _, _. split_and!; [done|done|done|done|done|done].
  - destruct (Inv_notify_total st _ x now Hinv Hx) as [out Hout].
    rewrite Hout. simpl. rewrite deref_store_eq by done. simpl.
    rewrite decide_False by done. simpl.
    eexists _, out. split_and!; [done|done|done|done|done|done].
Qed.

Lemma is_setting_lookup (vs : gmap nat (VarObj T)) s :
  is_setting (skeleton <$> vs) s → ∃ id x m rm, vs !! s = Some (JSMSetting id x m rm).
Proof.
  intros (id & m & Hs). rewrite lookup_fmap in Hs.
  destruct (vs !! s) as [[|id' x m' rm|]|]; try done. eauto.
Qed.

Lemma is_button_lookup (vs : gmap nat (VarObj T)) s :
  is_button (skeleton <$> vs) s → ∃ x m sm, vs !! s = Some (JSMButton x m sm).
Proof.
  intros (m & sm & Hs). rewrite lookup_fmap in Hs.
  destruct (vs !! s) as [[| |x m' sm']|]; try done. eauto.
Qed.

Lemma DefaultParser_total st cmd inst data :
  Inv st → cmds st !! cmd = Some inst → is_Some (deref (vars st) (_var inst)) →
  is_Some (DefaultParser st cmd data).
Proof.
  intros Hinv Hc [x Hx].
  destruct (decide (data = "")) as [->|Hdata].
  - unfold DefaultParser, get. rewrite Hc. simpl. rewrite Hx. by eexists.
  - destruct (stream_in data) as [value|] eqn:Hin.
    + destruct (DefaultParser_assigns st cmd inst data value x Hinv Hc Hdata Hin Hx)
        as (st' & out & -> & _). by eexists.
    + unfold DefaultParser. rewrite Hc. simpl. rewrite decide_False by done.
      rewrite Hin. by eexists.
Qed.

Lemma call_parse_total st this c data :
  Inv st → cmds st !! this = Some c → is_Some (deref (vars st) (_var c)) →
  is_Some (call_parse st (_parse c) this data).
Proof.
  intros Hinv Hc Hlive.
  pose proof (DefaultParser_total st this c data Hinv Hc Hlive) as Hdef.
  destruct (inv_bound _ Hinv _ _ Hc) as (_ & Hparse & _).
  destruct (_parse c) as [|modeshift [s|]]; simpl in *; [done| |done].
  case_decide; [|done].
  apply is_setting_lookup in Hparse as (id & x & m & rm & Hs).
  unfold MarkModeshiftForRemoval. rewrite Hs. simpl.
  rewrite lookup_insert_eq. by eexists.
Qed.

Lemma is_plain_lookup (vs : gmap nat (VarObj T)) p :
  (skeleton <$> vs) !! p = Some SkPlain → ∃ y, vs !! p = Some (PlainVariable y).
Proof.
  rewrite lookup_fmap. destruct (vs !! p) as [[y| |]|]; try done. eauto.
Qed.

Lemma Inv_next_var_free st : Inv st → vars st !! next_var st = None.
Proof.
  intros Hinv. apply eq_None_not_Some. intros Hs.
  assert (next_var st < next_var st); [|lia].
  apply (heap_below _ _ (inv_heap _ Hinv)). rewrite lookup_fmap. by apply fmap_is_Some.
Qed.

Lemma Inv_next_cmd_free st : Inv st → cmds st !! next_cmd st = None.
Proof.
  intros Hinv. apply eq_None_not_Some. intros Hs%(inv_cmds_below _ Hinv). lia.
Qed.

(** The child a parent owns at [b] in the map [mk] is alive and plain. *)
Lemma Inv_child_live st a o mk b p :
  Inv st → vars st !! a = Some o → child_at (skeleton o) mk b = Some p →
  ∃ y, vars st !! p = Some (PlainVariable y).
Proof.
  intros Hinv Ha Hp. apply is_plain_lookup.
  eapply (heap_child_live _ _ (inv_heap _ Hinv) a); [|done].
  by rewrite lookup_fmap, Ha.
Qed.

(** Fetching or allocating the child of [a] at [btn] in the map [mk]; [o'] is
    the parent with the entry set. *)
Lemma fetch_or_allocate st a o mk btn (upd : VarAddr → VarObj T) :
  Inv st → vars st !! a = Some o → has_map (skeleton o) mk →
  (∀ p, child_at (skeleton o) mk btn = Some p → upd p = o) →
  let res := match child_at (skeleton o) mk btn with
             | Some p => (st, p)
             | None =>
                 (with_vars (alloc_var st (PlainVariable (new_child (base o)))).1
                    (<[a := upd (next_var st)]>
                       (vars (alloc_var st (PlainVariable (new_child (base o)))).1)),
                  next_var st)
             end in
  vars res.1 !! a = Some (upd res.2)
  ∧ (∃ y, vars res.1 !! res.2 = Some (PlainVariable y))
  ∧ (∀ q, child_at (skeleton o) mk btn = Some q → res.2 = q)
  ∧ (∀ a' o1 mk' b', vars st !! a' = Some o1 →
       child_at (skeleton o1) mk' b' = Some res.2 → a' = a ∧ mk' = mk ∧ b' = btn)
  ∧ cmds res.1 = cmds st ∧ next_cmd res.1 = next_cmd st ∧ cout res.1 = cout st.
Proof.
  intros Hinv Ha Hmap Hsame. simpl.
  destruct (child_at (skeleton o) mk btn) as [p|] eqn:Hp; simpl.
  - split_and!; try done.
    + by rewrite Hsame.
    + by eapply Inv_child_live.
    + by intros q [= <-].
    + intros a' o1 mk' b' Ha' Hp'.
      eapply (heap_child_unique _ _ (inv_heap _ Hinv) a' (skeleton o1) mk' b' a
                (skeleton o) mk btn p); rewrite ?lookup_fmap, ?Ha, ?Ha'; done.
  - pose proof (Inv_next_var_free st Hinv) as Hn.
    split_and!; try done.
    + by rewrite lookup_insert_eq.
    + rewrite lookup_insert_ne by congruence. rewrite lookup_insert_eq. eauto.
    + intros a' o1 mk' b' Ha' Hp'.
      destruct (Inv_child_live st a' o1 mk' b' _ Hinv Ha' Hp') as [y Hy]. congruence.
Qed.

Lemma AtChord_setting st a id x m rm btn :
  vars st !! a = Some (JSMSetting id x m rm) →
  AtChord st a btn
  = Some (fetched st a (JSMSetting id x m rm) ChordMap btn
            (λ p, JSMSetting id x (<[btn := p]> m) rm)).
Proof.
  intros Ha. unfold AtChord, fetched. rewrite Ha. simpl. by destruct (m !! btn).
Qed.

Lemma AtChord_button st a x m sm btn :
  vars st !! a = Some (JSMButton x m sm) →
  AtChord st a btn
  = Some (fetched st a (JSMButton x m sm) ChordMap btn
            (λ p, JSMButton x (<[btn := p]> m) sm)).
Proof.
  intros Ha. unfold AtChord, fetched. rewrite Ha. simpl. by destruct (m !! btn).
Qed.

Lemma AtSimPress_button st a x m sm btn :
  vars st !! a = Some (JSMButton x m sm) →
  AtSimPress st a btn
  = Some (fetched st a (JSMButton x m sm) SimMap btn
            (λ p, JSMButton x m (<[btn := p]> sm))).
Proof.
  intros Ha. unfold AtSimPress, fetched. rewrite Ha. simpl. by destruct (sm !! btn).
Qed.

(** The command that a branch of [GetModifiedCmd] builds over the child. *)
Lemma derive_spec st a o mk btn (upd : VarAddr → VarObj T) name help parser task :
  Inv st → vars st !! a = Some o → has_map (skeleton o) mk →
  (∀ p, child_at (skeleton o) mk btn = Some p → upd p = o) →
  (∀ p y, upd p ≠ PlainVariable y) →
  let res := fetched st a o mk btn upd in
  let d := next_cmd st in
  ∃ st2 y,
    JSMAssignment_new2 res.1 name res.2 = Some (st2, d)
    ∧ cmds st !! d = None
    ∧ cmds (configure st2 d help parser task) !! d
      = Some {| _name := name; _help := help; _parse := parser;
                _taskOnDestruction := Some task; _var := res.2;
                _displayName := name; _listenerId := _delegateID y |}
    ∧ vars (configure st2 d help parser task) !! a = Some (upd res.2)
    ∧ vars (configure st2 d help parser task) !! res.2
      = Some (PlainVariable (AddOnChangeListener y (DisplayNewValueOf d)).1)
    ∧ cout (configure st2 d help parser task) = cout st
    ∧ (∀ q, child_at (skeleton o) mk btn = Some q → res.2 = q)
    ∧ (∀ a' o1 mk' b', vars st !! a' = Some o1 →
         child_at (skeleton o1) mk' b' = Some res.2 → a' = a ∧ mk' = mk ∧ b' = btn).
Proof.
  intros Hinv Ha Hmap Hsame Hnonplain res d.
  destruct (fetch_or_allocate st a o mk btn upd Hinv Ha Hmap Hsame)
    as (Hparent & [y Hchild] & Hfetch & Huniq & Hcmds & Hnext & Hcout).
  fold (fetched st a o mk btn upd) in *. fold res in Hparent, Hchild, Hcmds, Hnext, Hcout.
  assert (res.2 ≠ a) as Hne.
  { intros Heq. rewrite Heq, Hparent in Hchild. injection Hchild as Hc.
    by destruct (Hnonplain res.2 y). }
  unfold JSMAssignment_new2, JSMAssignment_new, deref. rewrite Hchild. simpl.
  rewrite Hnext. fold d. eexists _, y. split; [done|]. simpl.
  split_and!.
  - by apply Inv_next_cmd_free.
  - rewrite lookup_alter_eq, Hcmds, lookup_insert_eq. done.
  - unfold store. by rewrite lookup_alter_ne.
  - unfold store. by rewrite lookup_alter_eq, Hchild.
  - done.
  - done.
  - done.
Qed.

(** The three branches of [GetModifiedCmd] that build a command. *)
Lemma GetModifiedCmd_setting st this c chord btn id x m rm :
  Inv st → cmds st !! this = Some c →
  enum_cast chord = Some btn → (NONE < btn)%Z →
  vars st !! _var c = Some (JSMSetting id x m rm) →
  let name := chord +:+ "," +:+ _displayName c in
  let d := next_cmd st in
  ∃ st' p y,
    GetModifiedCmd st this "," chord = Some (st', Some d)
    ∧ cmds st !! d = None
    ∧ cmds st' !! d
      = Some {| _name := name; _help := _help c;
                _parse := ModeshiftParserFn btn (Some (_var c));
                _taskOnDestruction := Some (ProcessModeshiftRemovalTask (_var c) btn);
                _var := p; _displayName := name; _listenerId := _delegateID y |}
    ∧ vars st' !! _var c = Some (JSMSetting id x (<[btn := p]> m) rm)
    ∧ vars st' !! p
      = Some (PlainVariable (AddOnChangeListener y (DisplayNewValueOf d)).1)
    ∧ cout st' = cout st
    ∧ (∀ q, m !! btn = Some q → p = q).
Proof.
  intros Hinv Hc Hbtn Hlt Ha name d.
  destruct (derive_spec st (_var c) (JSMSetting id x m rm) ChordMap btn
              (λ p, JSMSetting id x (<[btn := p]> m) rm) name (_help c)
              (ModeshiftParserFn btn (Some (_var c)))
              (ProcessModeshiftRemovalTask (_var c) btn) Hinv Ha I)
    as (st2 & y & Hnew & Hfree & Hd & Hparent & Hchild & Hcout & Hfetch & _).
  { simpl. intros p Hp. by rewrite insert_id. }
  { done. }
  eexists _, _, y. split; [|by split_and!].
  unfold GetModifiedCmd. rewrite Hc. simpl. rewrite Hbtn.
  rewrite bool_decide_eq_true_2 by done. simpl.
  unfold as_JSMSetting. rewrite Ha. simpl.
  rewrite (AtChord_setting _ _ _ _ _ _ _ Ha). simpl.
  destruct (fetched _ _ _ _ _ _) as [st1 child]. simpl in *.
  fold name. by rewrite Hnew.
Qed.

Lemma GetModifiedCmd_button_chord st this c chord btn x m sm :
  Inv st → cmds st !! this = Some c →
  enum_cast chord = Some btn → (NONE < btn)%Z →
  vars st !! _var c = Some (JSMButton x m sm) →
  let name := chord +:+ "," +:+ _displayName c in
  let d := next_cmd st in
  ∃ st' p y,
    GetModifiedCmd st this "," chord = Some (st', Some d)
    ∧ cmds st !! d = None
    ∧ cmds st' !! d
      = Some {| _name := name; _help := _help c; _parse := _parse c;
                _taskOnDestruction := Some (ProcessChordRemovalTask (_var c) btn p);
                _var := p; _displayName := name; _listenerId := _delegateID y |}
    ∧ vars st' !! _var c = Some (JSMButton x (<[btn := p]> m) sm)
    ∧ vars st' !! p
      = Some (PlainVariable (AddOnChangeListener y (DisplayNewValueOf d)).1)
    ∧ cout st' = cout st
    ∧ (∀ q, m !! btn = Some q → p = q).
Proof.
  intros Hinv Hc Hbtn Hlt Ha name d.
  set (res := fetched st (_var c) (JSMButton x m sm) ChordMap btn
                (λ p, JSMButton x (<[btn := p]> m) sm)).
  destruct (derive_spec st (_var c) (JSMButton x m sm) ChordMap btn
              (λ p, JSMButton x (<[btn := p]> m) sm) name (_help c) (_parse c)
              (ProcessChordRemovalTask (_var c) btn res.2) Hinv Ha I)
    as (st2 & y & Hnew & Hfree & Hd & Hparent & Hchild & Hcout & Hfetch & _).
  { simpl. intros p Hp. by rewrite insert_id. }
  { done. }
  eexists _, _, y. split; [|by split_and!].
  unfold GetModifiedCmd. rewrite Hc. simpl. rewrite Hbtn.
  rewrite bool_decide_eq_true_2 by done. simpl.
  unfold as_JSMSetting, as_JSMButton. rewrite Ha. simpl.
  rewrite (AtChord_button _ _ _ _ _ _ Ha). simpl.
  subst res. destruct (fetched _ _ _ _ _ _) as [st1 child]. simpl in *.
  fold name. by rewrite Hnew.
Qed.

Lemma GetModifiedCmd_button_simpress st this c chord btn x m sm :
  Inv st → cmds st !! this = Some c →
  enum_cast chord = Some btn → (NONE < btn)%Z → (0 ≤ btn)%Z →
  vars st !! _var c = Some (JSMButton x m sm) →
  let name := chord +:+ "+" +:+ _displayName c in
  let d := next_cmd st in
  ∃ st' p y,
    GetModifiedCmd st this "+" chord = Some (st', Some d)
    ∧ cmds st !! d = None
    ∧ cmds st' !! d
      = Some {| _name := name; _help := _help c; _parse := _parse c;
                _taskOnDestruction := Some (ProcessSimPressRemovalTask (_var c) btn p);
                _var := p; _displayName := name; _listenerId := _delegateID y |}
    ∧ vars st' !! _var c = Some (JSMButton x m (<[btn := p]> sm))
    ∧ vars st' !! p
      = Some (PlainVariable (AddOnChangeListener y (DisplayNewValueOf d)).1)
    ∧ cout st' = cout st
    ∧ (∀ q, sm !! btn = Some q → p = q)
    ∧ m !! btn ≠ Some p.
Proof.
  intros Hinv Hc Hbtn Hlt Hnonneg Ha name d.
  set (res := fetched st (_var c) (JSMButton x m sm) SimMap btn
                (λ p, JSMButton x m (<[btn := p]> sm))).
  destruct (derive_spec st (_var c) (JSMButton x m sm) SimMap btn
              (λ p, JSMButton x m (<[btn := p]> sm)) name (_help c) (_parse c)
              (ProcessSimPressRemovalTask (_var c) btn res.2) Hinv Ha I)
    as (st2 & y & Hnew & Hfree & Hd & Hparent & Hchild & Hcout & Hfetch & Huniq).
  { simpl. intros p Hp. by rewrite insert_id. }
  { done. }
  eexists _, _, y. split; [|split_and!; try done].
  - unfold GetModifiedCmd. rewrite Hc. simpl. rewrite Hbtn.
    rewrite bool_decide_eq_true_2 by done. simpl.
    unfold as_JSMButton. rewrite Ha. simpl.
    rewrite bool_decide_eq_true_2 by done.
    rewrite (AtSimPress_button _ _ _ _ _ _ Ha). simpl.
    subst res. destruct (fetched _ _ _ _ _ _) as [st1 child]. simpl in *.
    fold name. by rewrite Hnew.
  - intros Hchord.
    by destruct (Huniq (_var c) (JSMButton x m sm) ChordMap btn Ha Hchord) as (_ & ? & _).
Qed.

(** A modeshift command over the child [p] of the setting [s]: what NONE
    does, and what its destruction does after that. *)
Lemma modeshift_teardown st d cmd s b id x m rm p y :
  cmds st !! d = Some cmd →
  _parse cmd = ModeshiftParserFn b (Some s) →
  _taskOnDestruction cmd = Some (ProcessModeshiftRemovalTask s b) →
  _var cmd = p →
  vars st !! s = Some (JSMSetting id x m rm) →
  vars st !! p = Some (PlainVariable y) → m !! b = Some p →
  let line := (ByModeshiftParser,
               "Modeshift " +:+ ButtonID_text b +:+ "," +:+ SettingID_text id
               +:+ " has been removed.") in
  let st1 := print (with_vars st (<[s := JSMSetting id x m ({[b]} ∪ rm)]> (vars st)))
               [line] in
  call_parse st (_parse cmd) d "NONE" = Some (st1, true)
  ∧ vars st1 !! p = Some (PlainVariable y)
  ∧ ∃ st2,
      JSMAssignment_delete st1 d = Some st2
      ∧ vars st2 !! s
        = Some (JSMSetting id x (delete b m) (({[b]} ∪ rm) ∖ {[b]}))
      ∧ vars st2 !! p = None ∧ cmds st2 !! d = None.
Proof.
  intros Hd Hparse Htask Hvar Hs Hp Hmb line st1.
  assert (p ≠ s) as Hne by congruence.
  split_and!.
  - rewrite Hparse. simpl. unfold MarkModeshiftForRemoval. rewrite Hs. simpl.
    by rewrite lookup_insert_eq.
  - simpl. by rewrite lookup_insert_ne.
  - unfold JSMAssignment_delete, JSMCommand_delete. simpl. rewrite Hd. simpl. rewrite Hvar.
    unfold deref. rewrite lookup_insert_ne by done. rewrite Hp. simpl.
    rewrite Htask. simpl. unfold ProcessModeshiftRemoval, store. simpl.
    rewrite lookup_alter_ne by done. rewrite lookup_insert_eq. simpl.
    rewrite decide_True by set_solver. simpl. eexists. split; [done|]. simpl.
    unfold drop_child. rewrite Hmb. split_and!.
    + by rewrite lookup_insert_eq.
    + rewrite lookup_insert_ne by done. by rewrite lookup_delete_eq.
    + by rewrite lookup_delete_eq.
Qed.

(** Destroying a modeshift command: the override goes when it was marked,
    and stays when it was not. *)
Lemma modeshift_delete st d cmd s b id x m rm p y :
  cmds st !! d = Some cmd →
  _taskOnDestruction cmd = Some (ProcessModeshiftRemovalTask s b) →
  _var cmd = p →
  vars st !! s = Some (JSMSetting id x m rm) →
  vars st !! p = Some (PlainVariable y) → m !! b = Some p →
  ∃ st2,
    JSMAssignment_delete st d = Some st2
    ∧ cmds st2 !! d = None
    ∧ (b ∈ rm →
       vars st2 !! s = Some (JSMSetting id x (delete b m) (rm ∖ {[b]}))
       ∧ vars st2 !! p = None)
    ∧ (b ∉ rm →
       vars st2 !! s = Some (JSMSetting id x m rm) ∧ is_Some (vars st2 !! p)).
Proof.
  intros Hd Htask Hvar Hs Hp Hmb.
  assert (p ≠ s) as Hne by congruence.
  unfold JSMAssignment_delete, JSMCommand_delete. rewrite Hd. simpl. rewrite Hvar.
  unfold deref. rewrite Hp. simpl. rewrite Htask. simpl.
  unfold ProcessModeshiftRemoval, store. simpl.
  rewrite lookup_alter_ne by done. rewrite Hs. simpl.
  destruct (decide (b ∈ rm)) as [Hin|Hout]; simpl.
  - eexists. split; [done|]. simpl. rewrite lookup_delete_eq.
    split; [done|]. split; [|done]. intros _. unfold drop_child. rewrite Hmb.
    rewrite lookup_insert_eq. split; [done|].
    rewrite lookup_insert_ne by done. by rewrite lookup_delete_eq.
  - eexists. split; [done|]. simpl. rewrite lookup_delete_eq.
    split; [done|]. split; [done|]. intros _.
    rewrite lookup_alter_ne by done. split; [done|].
    rewrite lookup_alter_eq, Hp. by eexists.
Qed.

(** *** Destruction *)

Lemma run_task_total st var task :
  task_ok (skeleton <$> vars st) var (Some task) →
  is_Some (deref (vars st) var) → is_Some (run_task st task).
Proof.
  intros Hok [x Hx]. destruct task as [s b|bt b p|bt b p]; simpl in *.
  - apply is_setting_lookup in Hok as (id & x0 & m & rm & Hs).
    unfold ProcessModeshiftRemoval. rewrite Hs. simpl. case_decide; by eexists.
  - destruct Hok as [(x0 & m & sm & Hs)%is_button_lookup ->].
    unfold ProcessChordRemoval, get. rewrite Hs, Hx. simpl.
    destruct (drops_binding _); by eexists.
  - destruct Hok as [(x0 & m & sm & Hs)%is_button_lookup ->].
    unfold ProcessSimPressRemoval, get. rewrite Hs, Hx. simpl.
    destruct (drops_binding _); by eexists.
Qed.

(** A task leaves the variables that stay as they are. *)
Lemma run_task_deref st task st' r x' :
  run_task st task = Some st' →
  deref (vars st') r = Some x' → deref (vars st) r = Some x'.
Proof.
  destruct task as [s b|bt b p|bt b p]; simpl.
  - unfold ProcessModeshiftRemoval.
    destruct (vars st !! s) as [[|id x m rm|]|] eqn:Hs; simpl; try done.
    case_decide; [|by intros [= <-]].
    intros [= <-]. simpl. unfold deref, drop_child. rewrite lookup_insert.
    case_decide; [subst r; rewrite Hs; simpl; by intros [= <-]|].
    destruct (m !! b) as [q|]; [|done]. rewrite lookup_delete. by case_decide.
  - unfold ProcessChordRemoval.
    destruct (vars st !! bt) as [o|] eqn:Hs; simpl; [|done].
    destruct (get st p) as [v|]; simpl; [|done].
    destruct o as [|id x m rm|x m sm]; try done.
    destruct (drops_binding v); [|by intros [= <-]].
    intros [= <-]. simpl. unfold deref, drop_child. rewrite lookup_insert.
    case_decide; [subst r; rewrite Hs; simpl; by intros [= <-]|].
    destruct (m !! b) as [q|]; [|done]. rewrite lookup_delete. by case_decide.
  - unfold ProcessSimPressRemoval.
    destruct (vars st !! bt) as [o|] eqn:Hs; simpl; [|done].
    destruct (get st p) as [v|]; simpl; [|done].
    destruct o as [|id x m rm|x m sm]; try done.
    destruct (drops_binding v); [|by intros [= <-]].
    intros [= <-]. simpl. unfold deref, drop_child. rewrite lookup_insert.
    case_decide; [subst r; rewrite Hs; simpl; by intros [= <-]|].
    destruct (sm !! b) as [q|]; [|done]. rewrite lookup_delete. by case_decide.
Qed.

Lemma delete_spec st this c x :
  Inv st → cmds st !! this = Some c → deref (vars st) (_var c) = Some x →
  ∃ st',
    JSMAssignment_delete st this = Some st'
    ∧ cmds st' = delete this (cmds st) ∧ next_cmd st' = next_cmd st
    ∧ (∀ x', deref (vars st') (_var c) = Some x' →
             x' = RemoveOnChangeListener x (_listenerId c)).
Proof.
  intros Hinv Hc Hx. pose proof (deref_is_Some _ _ _ Hx) as Hsome.
  destruct (inv_bound _ Hinv _ _ Hc) as (_ & _ & Htask).
  unfold JSMAssignment_delete, JSMCommand_delete. rewrite Hc. simpl. rewrite Hx. simpl.
  set (st1 := with_vars st _).
  assert (deref (vars st1) (_var c) = Some (RemoveOnChangeListener x (_listenerId c)))
    as Hx1 by (by apply deref_store_eq).
  destruct (_taskOnDestruction c) as [task|]; simpl.
  - destruct (run_task_total st1 (_var c) task) as [st2 Hrun].
    { simpl. by rewrite skeleton_store. }
    { by eexists. }
    rewrite Hrun. simpl. destruct (run_task_cmds _ _ _ Hrun) as [Hcmds Hnext].
    eexists. split; [done|]. simpl. rewrite Hcmds. split_and!; [done|done|].
    intros x' Hx'%(run_task_deref _ _ _ _ _ Hrun). congruence.
  - eexists. split; [done|]. simpl. split_and!; [done|done|].
    intros x' Hx'. change (deref (vars st1) (_var c) = Some x') in Hx'. congruence.
Qed.

(** *** Addresses of commands are not handed out twice *)

Lemma assign_cmds st r v st' w :
  assign st r v = Some (st', w) → cmds st' = cmds st ∧ next_cmd st' = next_cmd st.
Proof.
  unfold assign. destruct (deref (vars st) r) as [x|]; simpl; [|done].
  case_decide; [by intros [= <- _]|].
  destruct (notify _ _ _); simpl; [|done]. by intros [= <- _].
Qed.

Lemma DefaultParser_cmds st cmd data st' ok :
  DefaultParser st cmd data = Some (st', ok) →
  cmds st' = cmds st ∧ next_cmd st' = next_cmd st.
Proof.
  unfold DefaultParser. destruct (cmds st !! cmd) as [inst|]; simpl; [|done].
  case_decide.
  - destruct (get st (_var inst)); simpl; [|done]. by intros [= <- _].
  - destruct (stream_in data) as [value|]; [|by intros [= <- _]].
    destruct (get st (_var inst)) as [oldVal|]; simpl; [|done].
    destruct (assign st (_var inst) value) as [[st1 w]|] eqn:Has; simpl; [|done].
    destruct (assign_cmds _ _ _ _ _ Has) as [<- <-].
    destruct (get st1 (_var inst)) as [now|]; simpl; [|done].
    case_decide; simpl; [|by intros [= <- _]].
    unfold DisplayNewValue. destruct (cmds st1 !! cmd); simpl; [|done].
    by intros [= <- _].
Qed.

Lemma ParseData_cmds st this arguments st' ok :
  ParseData st this arguments = Some (st', ok) →
  cmds st' = cmds st ∧ next_cmd st' = next_cmd st.
Proof.
  unfold ParseData. destruct (cmds st !! this) as [c|]; simpl; [|done].
  case_decide; [by intros [= <- _]|].
  destruct (Regex.regex_match _ _) as [data|]; [|by intros [= <- _]].
  assert (∀ st1 ok1, call_parse st (_parse c) this data = Some (st1, ok1) →
            cmds st1 = cmds st ∧ next_cmd st1 = next_cmd st) as Hcall.
  { intros st1 ok1. destruct (_parse c) as [|modeshift [s|]]; simpl;
      try apply DefaultParser_cmds.
    case_decide; [|apply DefaultParser_cmds].
    unfold MarkModeshiftForRemoval.
    destruct (vars st !! s) as [[|id x m rm|]|]; simpl; try done.
    rewrite lookup_insert_eq. simpl. by intros [= <- _]. }
  destruct (call_parse st (_parse c) this data) as [[st1 [|]]|]; [| |done].
  - intros [= <- _]. by eapply Hcall.
  - intros [= <- _]. simpl. by eapply Hcall.
Qed.

Lemma new_cmds st name displayName var st' d :
  JSMAssignment_new st name displayName var = Some (st', d) →
  d = next_cmd st ∧ next_cmd st' = S (next_cmd st)
  ∧ ∀ a, a ≠ d → cmds st' !! a = cmds st !! a.
Proof.
  unfold JSMAssignment_new. destruct (deref (vars st) var); simpl; [|done].
  intros [= <- <-]. simpl. split_and!; [done|done|].
  intros a Ha. by rewrite lookup_insert_ne.
Qed.

Lemma AtChord_cmds st parent chord st' p :
  AtChord st parent chord = Some (st', p) →
  cmds st' = cmds st ∧ next_cmd st' = next_cmd st.
Proof.
  unfold AtChord.
  destruct (vars st !! parent) as [[|id x m rm|x m sm]|]; simpl; try done;
    destruct (m !! chord); by intros [= <- _].
Qed.

Lemma AtSimPress_cmds st parent chord st' p :
  AtSimPress st parent chord = Some (st', p) →
  cmds st' = cmds st ∧ next_cmd st' = next_cmd st.
Proof.
  unfold AtSimPress.
  destruct (vars st !! parent) as [[|id x m rm|x m sm]|]; simpl; try done;
    destruct (sm !! chord); by intros [= <- _].
Qed.

Lemma derived_cmds st st1 st2 name child d help parser task :
  cmds st1 = cmds st ∧ next_cmd st1 = next_cmd st →
  JSMAssignment_new2 st1 name child = Some (st2, d) →
  next_cmd st ≤ next_cmd (configure st2 d help parser task)
  ∧ ∀ a, a < next_cmd st →
         cmds (configure st2 d help parser task) !! a = cmds st !! a.
Proof.
  intros [Hcmds Hnext] (-> & Hn & Hother)%new_cmds. simpl. split; [lia|].
  intros a Ha. rewrite lookup_alter_ne by lia. rewrite Hother by lia. by rewrite Hcmds.
Qed.

Lemma GetModifiedCmd_cmds st this op chord st' r :
  GetModifiedCmd st this op chord = Some (st', r) →
  next_cmd st ≤ next_cmd st'
  ∧ ∀ a, a < next_cmd st → cmds st' !! a = cmds st !! a.
Proof.
  unfold GetModifiedCmd, JSMCommand_GetModifiedCmd.
  destruct (cmds st !! this) as [c|]; simpl; [|done].
  destruct (enum_cast chord) as [btn|]; [|by intros [= <- _]].
  case_bool_decide; [|by intros [= <- _]].
  destruct (decide (op = ","%char)) as [_|_].
  - destruct (as_JSMSetting _ _) as [[settingVar|]|]; simpl; [| |done].
    + destruct (AtChord st _ btn) as [[st1 child]|] eqn:Hat; simpl; [|done].
      destruct (JSMAssignment_new2 st1 _ child) as [[st2 d]|] eqn:Hnew; simpl; [|done].
      intros [= <- _].
      eapply (derived_cmds st st1 st2 _ child d); [by eapply AtChord_cmds|exact Hnew].
    + destruct (as_JSMButton _ _) as [[buttonVar|]|]; simpl; [|by intros [= <- _]|done].
      destruct (AtChord st _ btn) as [[st1 child]|] eqn:Hat; simpl; [|done].
      destruct (JSMAssignment_new2 st1 _ child) as [[st2 d]|] eqn:Hnew; simpl; [|done].
      intros [= <- _].
      eapply (derived_cmds st st1 st2 _ child d); [by eapply AtChord_cmds|exact Hnew].
  - destruct (decide (op = "+"%char)) as [_|_]; [|by intros [= <- _]].
    destruct (as_JSMButton _ _) as [[buttonVar|]|]; simpl; [|by intros [= <- _]|done].
    case_bool_decide; [|by intros [= <- _]].
    destruct (AtSimPress st _ btn) as [[st1 child]|] eqn:Hat; simpl; [|done].
    destruct (JSMAssignment_new2 st1 _ child) as [[st2 d]|] eqn:Hnew; simpl; [|done].
    intros [= <- _].
    eapply (derived_cmds st st1 st2 _ child d); [by eapply AtSimPress_cmds|exact Hnew].
Qed.

Lemma delete_cmds st this st' :
  JSMAssignment_delete st this = Some st' →
  cmds st' = delete this (cmds st) ∧ next_cmd st' = next_cmd st.
Proof.
  unfold JSMAssignment_delete, JSMCommand_delete.
  destruct (cmds st !! this) as [c|]; simpl; [|done].
  destruct (deref (vars st) (_var c)) as [x|]; simpl; [|done].
  destruct (_taskOnDestruction c) as [task|]; simpl.
  - destruct (run_task _ task) as [st2|] eqn:Hrun; simpl; [|done].
    destruct (run_task_cmds _ _ _ Hrun) as [Hcmds Hnext].
    intros [= <-]. simpl. by rewrite Hcmds.
  - by intros [= <-].
Qed.

Lemma gone_exec st a st' this : exec st a = Some st' → gone st this → gone st' this.
Proof.
  intros Hexec [Hlt Hnone]. unfold gone.
  destruct a as [k v f|r say|name dn var|that args|that op chord|that v|r v|that];
    simpl in Hexec.
  - by injection Hexec as <-.
  - destruct (deref (vars st) r); simpl in Hexec; [|done]. by injection Hexec as <-.
  - destruct (JSMAssignment_new _ _ _ _) as [[st1 d]|] eqn:Hnew; simpl in Hexec; [|done].
    injection Hexec as <-. destruct (new_cmds _ _ _ _ _ _ Hnew) as (-> & -> & Hother).
    split; [lia|]. rewrite Hother by lia. done.
  - destruct (ParseData _ _ _) as [[st1 ok]|] eqn:Hp; simpl in Hexec; [|done].
    injection Hexec as <-. by destruct (ParseData_cmds _ _ _ _ _ Hp) as [-> ->].
  - destruct (GetModifiedCmd _ _ _ _) as [[st1 r]|] eqn:Hp; simpl in Hexec; [|done].
    injection Hexec as <-. destruct (GetModifiedCmd_cmds _ _ _ _ _ _ Hp) as [Hle Hother].
    split; [lia|]. by rewrite Hother.
  - unfold JSMAssignment_assign in Hexec.
    destruct (cmds st !! that) as [c|]; simpl in Hexec; [|done].
    destruct (assign _ _ _) as [[st1 w]|] eqn:Has; simpl in Hexec; [|done].
    injection Hexec as <-. by destruct (assign_cmds _ _ _ _ _ Has) as [-> ->].
  - destruct (assign _ _ _) as [[st1 w]|] eqn:Has; simpl in Hexec; [|done].
    injection Hexec as <-. by destruct (assign_cmds _ _ _ _ _ Has) as [-> ->].
  - destruct (delete_cmds _ _ _ Hexec) as [-> ->]. split; [done|].
    rewrite lookup_delete. by case_decide.
Qed.

Lemma gone_exec_all acts : ∀ st st' this,
  exec_all st acts = Some st' → gone st this → gone st' this.
Proof.
  induction acts as [|a acts IH]; simpl; intros st st' this; [by intros [= <-]|].
  destruct (exec st a) as [st1|] eqn:Ha; simpl; [|done].
  intros Hrest Hgone. eapply IH; [done|]. by eapply gone_exec.
Qed.

Lemma reachable_exec_all st acts st' :
  reachable st → exec_all st acts = Some st' → reachable st'.
Proof.
  intros [acts0 Hacts0] Hacts. exists (acts0 ++ acts).
  revert Hacts0. generalize (initial (T:=T)). induction acts0 as [|a acts0 IH]; simpl.
  - by intros s [= ->].
  - intros s. destruct (exec s a) as [s1|]; simpl; [|done]. apply IH.
Qed.

End ParserFacts.


(** ** What the operations change and what they leave alone *)

Section EffectFacts.
Context {T : Type} `{!EqDecision T, !Streamable T, !DisplayNewValueFor T}.
Context `{!ChordRemovalPolicy T, !ButtonCatalogue, !CommandBase}.
Implicit Types (st : State T) (x y : JSMVariable T) (o : VarObj T).

Lemma set_value_same x : set_value x (_value x) = x.
Proof. by destruct x. Qed.

Lemma store_same (vs : gmap nat (VarObj T)) r x : deref vs r = Some x → store vs r x = vs.
Proof.
  unfold deref, store. intros Hx. apply map_eq. intros a.
  rewrite lookup_alter. case_decide; [subst|done].
  destruct (vs !! a) as [o|]; simpl in *; [|done].
  injection Hx as <-. by destruct o.
Qed.

Lemma with_vars_same st : with_vars st (vars st) = st.
Proof. by destruct st. Qed.

Lemma print_print st (out1 out2 : list (Origin * string)) :
  print (print st out1) out2 = print st (out1 ++ out2).
Proof. unfold print. simpl. by rewrite app_assoc. Qed.

Lemma call_parse_default st c this data :
  (∀ modeshift s, _parse c = ModeshiftParserFn modeshift (Some s) → data ≠ "NONE") →
  call_parse st (_parse c) this data = DefaultParser st this data.
Proof.
  intros Hnone. unfold call_parse, ModeshiftParser.
  destruct (_parse c) as [|b [s|]]; [done| |done].
  rewrite decide_False; [done|]. by eapply Hnone.
Qed.

Lemma lines_by_none (who : Origin) (out : list (Origin * string)) :
  (∀ l, l ∈ out → l.1 ≠ who) → lines_by who out = 0.
Proof.
  intros Hout. unfold lines_by. rewrite filter_none; [done|]. done.
Qed.

Lemma notify_origins cs (ls : list (nat * OnChangeDelegate T)) v : ∀ out,
  notify cs ls v = Some out →
  ∀ l, l ∈ out → (∃ a, l.1 = ByDisplayNewValue a) ∨ l.1 = ByOtherListener.
Proof.
  induction ls as [|[i d] ls IH]; simpl; intros out.
  - intros [= <-] l Hl. by apply elem_of_nil in Hl.
  - destruct (call_delegate cs d v) as [out1|] eqn:H1; simpl; [|done].
    destruct (notify cs ls v) as [out2|] eqn:H2; simpl; [|done].
    intros [= <-] l [Hl|Hl]%elem_of_app; [|by eapply IH].
    destruct d as [a|say]; simpl in H1.
    + destruct (cs !! a) as [c|]; simpl in H1; [|done]. injection H1 as <-.
      apply list_elem_of_singleton in Hl as ->. left. by eexists.
    + injection H1 as <-. apply list_elem_of_fmap in Hl as (s & -> & _). by right.
Qed.

Lemma notify_elem cs (ls : list (nat * OnChangeDelegate T)) v i a c : ∀ out,
  notify cs ls v = Some out → (i, DisplayNewValueOf a) ∈ ls → cs !! a = Some c →
  DisplayNewValue_line a c v ∈ out.
Proof.
  induction ls as [|[j d] ls IH]; simpl; intros out Hout Hin Hc.
  - by apply elem_of_nil in Hin.
  - destruct (call_delegate cs d v) as [out1|] eqn:H1; simpl in Hout; [|done].
    destruct (notify cs ls v) as [out2|] eqn:H2; simpl in Hout; [|done].
    injection Hout as <-. apply elem_of_app.
    apply elem_of_cons in Hin as [[= <- <-]|Hin].
    + left. simpl in H1. rewrite Hc in H1. simpl in H1. injection H1 as <-.
      by apply list_elem_of_singleton.
    + right. by eapply IH.
Qed.

(** *** What a write changes *)

Lemma deref_store_other (vs : gmap nat (VarObj T)) r r' y :
  r' ≠ r → deref (store vs r y) r' = deref vs r'.
Proof. intros Hne. unfold deref, store. by rewrite lookup_alter_ne. Qed.

(** What a parser does to the variables: nothing, or it writes the value of
    the variable at [r], or, for the modeshift parser on NONE, it marks the
    chord in the setting. *)
Lemma assign_vars st r v st' w :
  assign st r v = Some (st', w) →
  next_var st' = next_var st
  ∧ ∃ x, deref (vars st) r = Some x
         ∧ vars st' = store (vars st) r (set_value x w).
Proof.
  unfold assign. destruct (deref (vars st) r) as [x|] eqn:Hx; simpl; [|done].
  case_decide.
  - intros [= <- <-]. eauto.
  - destruct (notify _ _ _) as [out|]; simpl; [|done].
    intros [= <- <-]. eauto.
Qed.

Lemma DefaultParser_vars st cmd inst data st' ok :
  cmds st !! cmd = Some inst →
  DefaultParser st cmd data = Some (st', ok) →
  next_var st' = next_var st
  ∧ (vars st' = vars st
     ∨ ∃ x v, deref (vars st) (_var inst) = Some x
              ∧ vars st' = store (vars st) (_var inst) (set_value x v)).
Proof.
  intros Hc. unfold DefaultParser. rewrite Hc. simpl. case_decide.
  - destruct (get st (_var inst)); simpl; [|done]. intros [= <- _]. by split; [|left].
  - destruct (stream_in data) as [value|]; [|intros [= <- _]; by split; [|left]].
    destruct (get st (_var inst)) as [oldVal|]; simpl; [|done].
    destruct (assign st (_var inst) value) as [[st1 w]|] eqn:Ha; simpl; [|done].
    destruct (get st1 (_var inst)) as [now|]; simpl; [|done].
    apply assign_vars in Ha as (Hn & x & Hx & Hv).
    case_decide.
    + unfold DisplayNewValue. destruct (cmds st1 !! cmd); simpl; [|done].
      intros [= <- _]. simpl. split; [done|]. right. eauto.
    + intros [= <- _]. split; [done|]. right. eauto.
Qed.

Lemma ParseData_vars st this c arguments st' ok :
  cmds st !! this = Some c →
  ParseData st this arguments = Some (st', ok) →
  next_var st' = next_var st
  ∧ (vars st' = vars st
     ∨ (∃ x v, deref (vars st) (_var c) = Some x
               ∧ vars st' = store (vars st) (_var c) (set_value x v))
     ∨ (∃ b s id x m rm,
          _parse c = ModeshiftParserFn b (Some s)
          ∧ Regex.regex_match assignment_regex arguments = Some "NONE"%string
          ∧ vars st !! s = Some (JSMSetting id x m rm)
          ∧ vars st' = <[s := JSMSetting id x m ({[b]} ∪ rm)]> (vars st))).
Proof.
  intros Hc. unfold ParseData. rewrite Hc. simpl.
  case_decide; [intros [= <- _]; by split; [|left]|].
  destruct (Regex.regex_match _ _) as [data|] eqn:Hm;
    [|intros [= <- _]; by split; [|left]].
  assert (∀ st1 ok1, call_parse st (_parse c) this data = Some (st1, ok1) →
    next_var st1 = next_var st
    ∧ (vars st1 = vars st
       ∨ (∃ x v, deref (vars st) (_var c) = Some x
                 ∧ vars st1 = store (vars st) (_var c) (set_value x v))
       ∨ (∃ b s id x m rm,
            _parse c = ModeshiftParserFn b (Some s)
            ∧ Some data = Some "NONE"%string
            ∧ vars st !! s = Some (JSMSetting id x m rm)
            ∧ vars st1 = <[s := JSMSetting id x m ({[b]} ∪ rm)]> (vars st))))
    as Hcall.
  { intros st1 ok1. unfold call_parse, ModeshiftParser.
    assert (DefaultParser st this data = Some (st1, ok1) →
            next_var st1 = next_var st
            ∧ (vars st1 = vars st
               ∨ (∃ x v, deref (vars st) (_var c) = Some x
                         ∧ vars st1 = store (vars st) (_var c) (set_value x v))
               ∨ (∃ b s id x m rm,
                    _parse c = ModeshiftParserFn b (Some s)
                    ∧ Some data = Some "NONE"%string
                    ∧ vars st !! s = Some (JSMSetting id x m rm)
                    ∧ vars st1 = <[s := JSMSetting id x m ({[b]} ∪ rm)]> (vars st))))
      as Hdef.
    { intros Hd. destruct (DefaultParser_vars _ _ _ _ _ _ Hc Hd) as [Hn [Hv|Hv]]; auto. }
    destruct (_parse c) as [|modeshift [s|]] eqn:Hp; [done| |done].
    case_decide as Hdata; [subst data|done].
    unfold MarkModeshiftForRemoval.
    destruct (vars st !! s) as [[|id x m rm|]|] eqn:Hs; simpl; try done.
    rewrite lookup_insert_eq. intros [= <- _]. simpl. split; [done|].
    right. right. by exists modeshift, s, id, x, m, rm. }
  destruct (call_parse st (_parse c) this data) as [[st1 [|]]|]; [| |done].
  - intros [= <- _]. by apply (Hcall _ true).
  - intros [= <- _]. by apply (Hcall st1 false).
Qed.

Lemma set_base_base o : set_base (base o) o = o.
Proof. by destruct o. Qed.

Lemma store_objects (vs : gmap nat (VarObj T)) r y s o :
  vs !! s = Some o → ∃ y', store vs r y !! s = Some (set_base y' o).
Proof.
  intros Hs. unfold store. rewrite lookup_alter. case_decide.
  - subst. exists y. by rewrite Hs.
  - exists (base o). by rewrite set_base_base.
Qed.

Lemma assign_objects st r v st' w s o :
  assign st r v = Some (st', w) → vars st !! s = Some o →
  ∃ y, vars st' !! s = Some (set_base y o).
Proof.
  unfold assign. destruct (deref (vars st) r) as [x|]; simpl; [|done].
  case_decide.
  - intros [= <- _]. apply store_objects.
  - destruct (notify _ _ _) as [out|]; simpl; [|done].
    intros [= <- _]. apply store_objects.
Qed.

Lemma DefaultParser_objects st cmd data st' ok s o :
  DefaultParser st cmd data = Some (st', ok) → vars st !! s = Some o →
  ∃ y, vars st' !! s = Some (set_base y o).
Proof.
  intros Hrun Hs.
  assert (∃ y, vars st !! s = Some (set_base y o)) as Hsame.
  { exists (base o). by rewrite set_base_base. }
  revert Hrun. unfold DefaultParser.
  destruct (cmds st !! cmd) as [inst|]; simpl; [|done]. case_decide.
  - destruct (get st (_var inst)); simpl; [|done]. by intros [= <- _].
  - destruct (stream_in data) as [value|]; [|by intros [= <- _]].
    destruct (get st (_var inst)) as [oldVal|]; simpl; [|done].
    destruct (assign st (_var inst) value) as [[st1 w]|] eqn:Ha; simpl; [|done].
    destruct (get st1 (_var inst)) as [now|]; simpl; [|done].
    pose proof (assign_objects _ _ _ _ _ _ _ Ha Hs) as Hobj.
    case_decide.
    + unfold DisplayNewValue. destruct (cmds st1 !! cmd); simpl; [|done].
      by intros [= <- _].
    + by intros [= <- _].
Qed.

(** *** Chord composition *)

Lemma as_JSMSetting_None (vs : gmap nat (VarObj T)) r :
  is_Some (vs !! r) → ¬ is_setting (skeleton <$> vs) r →
  as_JSMSetting vs r = Some None.
Proof.
  intros [o Ho] Hno. destruct (as_JSMSetting vs r) as [[s|]|] eqn:Hs.
  - by apply as_JSMSetting_Some in Hs as [_ ?].
  - done.
  - unfold as_JSMSetting in Hs. by rewrite Ho in Hs.
Qed.

Lemma as_JSMButton_None (vs : gmap nat (VarObj T)) r :
  is_Some (vs !! r) → ¬ is_button (skeleton <$> vs) r →
  as_JSMButton vs r = Some None.
Proof.
  intros [o Ho] Hno. destruct (as_JSMButton vs r) as [[s|]|] eqn:Hs.
  - by apply as_JSMButton_Some in Hs as [_ ?].
  - done.
  - unfold as_JSMButton in Hs. by rewrite Ho in Hs.
Qed.

Lemma GetModifiedCmd_base st this c op chord :
  cmds st !! this = Some c → is_Some (vars st !! _var c) →
  ¬ composes st c op chord →
  GetModifiedCmd st this op chord = Some (st, None).
Proof.
  intros Hc Hlive Hno.
  unfold GetModifiedCmd, JSMCommand_GetModifiedCmd. rewrite Hc. simpl.
  destruct (enum_cast chord) as [btn|] eqn:Hbtn; [|done].
  case_bool_decide as Hlt; [|done].
  destruct (decide (op = ","%char)) as [Hop|Hop].
  - rewrite as_JSMSetting_None; [simpl; rewrite as_JSMButton_None; [done|done|]|done|].
    + intros Hb. apply Hno. exists btn. split_and!; [done|done|]. left. eauto.
    + intros Hs. apply Hno. exists btn. split_and!; [done|done|]. left. eauto.
  - destruct (decide (op = "+"%char)) as [Hplus|]; [|done].
    destruct (as_JSMButton (vars st) (_var c)) as [[b|]|] eqn:Hb; simpl.
    + apply as_JSMButton_Some in Hb as [-> Hb].
      case_bool_decide as Hnn; [|done].
      destruct Hno. exists btn. split_and!; [done|done|]. right. eauto.
    + done.
    + destruct Hlive as [o Ho]. unfold as_JSMButton in Hb. by rewrite Ho in Hb.
Qed.

(** On a reference whose object is gone the casts are not defined; a call
    that returns has not reached them. *)
Lemma GetModifiedCmd_dangling st this c op chord st' r :
  cmds st !! this = Some c → vars st !! _var c = None →
  GetModifiedCmd st this op chord = Some (st', r) → st' = st ∧ r = None.
Proof.
  intros Hc Hgone. unfold GetModifiedCmd, JSMCommand_GetModifiedCmd. rewrite Hc. simpl.
  destruct (enum_cast chord) as [btn|]; [|by intros [= <- <-]].
  case_bool_decide; [|by intros [= <- <-]].
  unfold as_JSMSetting, as_JSMButton. rewrite Hgone. simpl.
  destruct (decide (op = ","%char)); [done|].
  destruct (decide (op = "+"%char)); [done|]. by intros [= <- <-].
Qed.

Lemma GetModifiedCmd_composes st this c op chord :
  Inv st → cmds st !! this = Some c → composes st c op chord →
  ∃ st' cmd p y,
    GetModifiedCmd st this op chord = Some (st', Some (next_cmd st))
    ∧ cmds st !! next_cmd st = None
    ∧ cmds st' !! next_cmd st = Some cmd
    ∧ _name cmd = chord +:+ String op "" +:+ _displayName c
    ∧ _displayName cmd = _name cmd ∧ _help cmd = _help c
    ∧ _var cmd = p
    ∧ vars st' !! p = Some (PlainVariable y)
    ∧ cout st' = cout st
    ∧ (∀ mk btn q o, enum_cast chord = Some btn → vars st !! _var c = Some o →
         mk = (if decide (op = ","%char) then ChordMap else SimMap) →
         child_at (skeleton o) mk btn = Some q → p = q)
    ∧ (∃ o' btn, enum_cast chord = Some btn ∧ vars st' !! _var c = Some o'
         ∧ child_at (skeleton o')
             (if decide (op = ","%char) then ChordMap else SimMap) btn = Some p)
    ∧ (is_setting (skeleton <$> vars st) (_var c) →
         ∃ btn, enum_cast chord = Some btn
           ∧ _parse cmd = ModeshiftParserFn btn (Some (_var c))
           ∧ _taskOnDestruction cmd = Some (ProcessModeshiftRemovalTask (_var c) btn))
    ∧ (is_button (skeleton <$> vars st) (_var c) →
         _parse cmd = _parse c
         ∧ ∃ btn, enum_cast chord = Some btn
             ∧ _taskOnDestruction cmd
               = Some (if decide (op = ","%char)
                       then ProcessChordRemovalTask (_var c) btn p
                       else ProcessSimPressRemovalTask (_var c) btn p)).
Proof.
  intros Hinv Hc (btn & Hbtn & Hlt & [[-> [Hs|Hb]]|(-> & Hb & Hnn)]).
  - destruct (is_setting_lookup _ _ Hs) as (id & x & m & rm & Hv).
    destruct (GetModifiedCmd_setting st this c chord btn id x m rm Hinv Hc Hbtn Hlt Hv)
      as (st' & p & y & Hrun & Hfree & Hd & Hparent & Hchild & Hcout & Hfetch).
    eexists st', _, p, _. split; [exact Hrun|]. split; [done|]. split; [exact Hd|].
    simpl. split_and!; try done.
    + intros mk btn' q o Hb' Ho -> Hq. rewrite Hbtn in Hb'. injection Hb' as <-.
      rewrite Hv in Ho. injection Ho as <-.
      by apply Hfetch.
    + eexists _, btn. split; [done|]. split; [exact Hparent|].
      simpl. by rewrite lookup_insert_eq.
    + intros _. by exists btn.
    + intros (m' & sm' & Hb). rewrite lookup_fmap, Hv in Hb. done.
  - destruct (is_button_lookup _ _ Hb) as (x & m & sm & Hv).
    destruct (GetModifiedCmd_button_chord st this c chord btn x m sm Hinv Hc Hbtn Hlt Hv)
      as (st' & p & y & Hrun & Hfree & Hd & Hparent & Hchild & Hcout & Hfetch).
    eexists st', _, p, _. split; [exact Hrun|]. split; [done|]. split; [exact Hd|].
    simpl. split_and!; try done.
    + intros mk btn' q o Hb' Ho -> Hq. rewrite Hbtn in Hb'. injection Hb' as <-.
      rewrite Hv in Ho. injection Ho as <-.
      by apply Hfetch.
    + eexists _, btn. split; [done|]. split; [exact Hparent|].
      simpl. by rewrite lookup_insert_eq.
    + intros (id' & m' & Hs). rewrite lookup_fmap, Hv in Hs. done.
    + intros _. split; [done|]. by exists btn.
  - destruct (is_button_lookup _ _ Hb) as (x & m & sm & Hv).
    destruct (GetModifiedCmd_button_simpress st this c chord btn x m sm
                Hinv Hc Hbtn Hlt Hnn Hv)
      as (st' & p & y & Hrun & Hfree & Hd & Hparent & Hchild & Hcout & Hfetch & _).
    eexists st', _, p, _. split; [exact Hrun|]. split; [done|]. split; [exact Hd|].
    simpl. split_and!; try done.
    + intros mk btn' q o Hb' Ho -> Hq. rewrite Hbtn in Hb'. injection Hb' as <-.
      rewrite Hv in Ho. injection Ho as <-.
      by apply Hfetch.
    + eexists _, btn. split; [done|]. split; [exact Hparent|].
      simpl. by rewrite lookup_insert_eq.
    + intros (id' & m' & Hs). rewrite lookup_fmap, Hv in Hs. done.
    + intros _. split; [done|]. by exists btn.
Qed.

Lemma composes_dec st c op chord : composes st c op chord ∨ ¬ composes st c op chord.
Proof.
  unfold composes.
  destruct (enum_cast chord) as [btn|] eqn:Hbtn; [|right; by intros (? & ? & _)].
  destruct (decide (NONE < btn)%Z) as [Hlt|Hlt];
    [|right; intros (b & [= <-] & ? & _); done].
  destruct (vars st !! _var c) as [[x|id x m rm|x m sm]|] eqn:Hv.
  - right. intros (b & _ & _ & [[_ [(? & ? & Hs)|(? & ? & Hs)]]|(_ & (? & ? & Hs) & _)]);
      rewrite lookup_fmap, Hv in Hs; done.
  - destruct (decide (op = ","%char)) as [->|Hop].
    + left. exists btn. split_and!; [done|done|]. left. split; [done|]. left.
      exists id, m. by rewrite lookup_fmap, Hv.
    + right. intros (b & _ & _ & [[? _]|(_ & (? & ? & Hs) & _)]); [done|].
      rewrite lookup_fmap, Hv in Hs; done.
  - assert (is_button (skeleton <$> vars st) (_var c)) as Hb.
    { exists m, sm. by rewrite lookup_fmap, Hv. }
    destruct (decide (op = ","%char)) as [->|Hop]; [left; exists btn; eauto 6|].
    destruct (decide (op = "+"%char)) as [->|Hplus];
      [|right; intros (b & _ & _ & [[? _]|[? _]]); done].
    destruct (decide (0 ≤ btn)%Z) as [Hnn|Hnn]; [left; exists btn; eauto 7|].
    right. intros (b & [= <-] & _ & [[? _]|(_ & _ & ?)]); done.
  - right. intros (b & _ & _ & [[_ [(? & ? & Hs)|(? & ? & Hs)]]|(_ & (? & ? & Hs) & _)]);
      rewrite lookup_fmap, Hv in Hs; done.
Qed.

Lemma GetModifiedCmd_Some_composes st this c op chord st' d :
  cmds st !! this = Some c →
  GetModifiedCmd st this op chord = Some (st', Some d) → composes st c op chord.
Proof.
  intros Hc Hrun. destruct (composes_dec st c op chord) as [Hyes|Hno]; [done|].
  destruct (vars st !! _var c) as [o|] eqn:Hlive.
  - rewrite (GetModifiedCmd_base _ _ c) in Hrun; [done|done|by eexists|done].
  - by destruct (GetModifiedCmd_dangling _ _ _ _ _ _ _ Hc Hlive Hrun).
Qed.

(** *** What composition leaves alone *)

Lemma AtChord_values st parent chord st1 p :
  Inv st → AtChord st parent chord = Some (st1, p) →
  cout st1 = cout st ∧ ∀ a v, get st a = Some v → get st1 a = Some v.
Proof.
  intros Hinv. pose proof (Inv_next_var_free st Hinv) as Hfree. unfold AtChord.
  destruct (vars st !! parent) as [[x|id x m rm|x m sm]|] eqn:Hv; simpl; [done| | |done].
  - destruct (m !! chord); intros [= <- <-]; [done|]. simpl. split; [done|].
    intros a v. unfold get, deref. simpl. rewrite !lookup_insert.
    case_decide; [subst; by rewrite Hv|]. case_decide; [subst; by rewrite Hfree|done].
  - destruct (m !! chord); intros [= <- <-]; [done|]. simpl. split; [done|].
    intros a v. unfold get, deref. simpl. rewrite !lookup_insert.
    case_decide; [subst; by rewrite Hv|]. case_decide; [subst; by rewrite Hfree|done].
Qed.

Lemma AtSimPress_values st button chord st1 p :
  Inv st → AtSimPress st button chord = Some (st1, p) →
  cout st1 = cout st ∧ ∀ a v, get st a = Some v → get st1 a = Some v.
Proof.
  intros Hinv. pose proof (Inv_next_var_free st Hinv) as Hfree. unfold AtSimPress.
  destruct (vars st !! button) as [[x|id x m rm|x m sm]|] eqn:Hv; simpl; [done|done| |done].
  destruct (sm !! chord); intros [= <- <-]; [done|]. simpl. split; [done|].
  intros a v. unfold get, deref. simpl. rewrite !lookup_insert.
  case_decide; [subst; by rewrite Hv|]. case_decide; [subst; by rewrite Hfree|done].
Qed.

Lemma new_values st name displayName var st' d :
  JSMAssignment_new st name displayName var = Some (st', d) →
  cout st' = cout st ∧ ∀ a, get st' a = get st a.
Proof.
  unfold JSMAssignment_new. destruct (deref (vars st) var) as [x|] eqn:Hx; simpl; [|done].
  intros [= <- <-]. split; [done|]. intros a. unfold get.
  cbn [vars]. destruct (decide (a = var)) as [->|Hne]; [|by rewrite deref_store_other].
  rewrite deref_store_eq by by eapply deref_is_Some. by rewrite Hx.
Qed.

Lemma derived_values st st1 st2 name child d help parser task :
  (cout st1 = cout st ∧ ∀ a v, get st a = Some v → get st1 a = Some v) →
  JSMAssignment_new2 st1 name child = Some (st2, d) →
  cout (configure st2 d help parser task) = cout st
  ∧ ∀ a v, get st a = Some v → get (configure st2 d help parser task) a = Some v.
Proof.
  intros [Hcout Hget] [Hcout2 Hget2]%new_values. simpl. split; [congruence|].
  intros a v Hv. unfold get in *. simpl. rewrite Hget2. by apply Hget.
Qed.

Lemma GetModifiedCmd_values st this op chord st' r :
  Inv st → GetModifiedCmd st this op chord = Some (st', r) →
  cout st' = cout st ∧ ∀ a v, get st a = Some v → get st' a = Some v.
Proof.
  intros Hinv. unfold GetModifiedCmd, JSMCommand_GetModifiedCmd.
  destruct (cmds st !! this) as [c|]; simpl; [|done].
  destruct (enum_cast chord) as [btn|]; [|by intros [= <- _]].
  case_bool_decide; [|by intros [= <- _]].
  destruct (decide (op = ","%char)); [|destruct (decide (op = "+"%char))].
  - destruct (as_JSMSetting _ _) as [[s|]|]; simpl; [| |done].
    + destruct (AtChord st s btn) as [[st1 child]|] eqn:Hat; simpl; [|done].
      destruct (JSMAssignment_new2 st1 _ child) as [[st2 d]|] eqn:Hnew; simpl; [|done].
      intros [= <- _]. eapply derived_values; [|done]. by eapply AtChord_values.
    + destruct (as_JSMButton _ _) as [[b|]|]; simpl; [|by intros [= <- _]|done].
      destruct (AtChord st b btn) as [[st1 child]|] eqn:Hat; simpl; [|done].
      destruct (JSMAssignment_new2 st1 _ child) as [[st2 d]|] eqn:Hnew; simpl; [|done].
      intros [= <- _]. eapply derived_values; [|done]. by eapply AtChord_values.
  - destruct (as_JSMButton _ _) as [[b|]|]; simpl; [|by intros [= <- _]|done].
    case_bool_decide; [|by intros [= <- _]].
    destruct (AtSimPress st b btn) as [[st1 child]|] eqn:Hat; simpl; [|done].
    destruct (JSMAssignment_new2 st1 _ child) as [[st2 d]|] eqn:Hnew; simpl; [|done].
    intros [= <- _]. eapply derived_values; [|done]. by eapply AtSimPress_values.
  - by intros [= <- _].
Qed.

(** *** Construction, then destruction *)

Lemma filter_fresh_id (ls : list (nat * OnChangeDelegate T)) id d :
  Forall (λ i, i < id) ls.*1 →
  filter (λ l, l.1 ≠ id) (ls ++ [(id, d)]) = ls.
Proof.
  intros Hlt. rewrite filter_app, filter_cons, filter_nil. simpl.
  rewrite decide_False by (by intros []). rewrite app_nil_r.
  induction ls as [|l ls IH]; [done|]. rewrite fmap_cons in Hlt.
  apply Forall_cons in Hlt as [Hl Hlt]. rewrite filter_cons.
  rewrite decide_True by lia. by rewrite IH.
Qed.

Lemma store_store (vs : gmap nat (VarObj T)) r y1 y2 :
  store (store vs r y1) r y2 = store vs r y2.
Proof.
  unfold store. apply map_eq. intros a. rewrite !lookup_alter.
  case_decide; [subst|done]. rewrite decide_True by done.
  destruct (vs !! a) as [o|]; simpl; [|done]. by destruct o.
Qed.

End EffectFacts.

(** ** Commands with the modeshift parser, in every state the program reaches *)

Section ModeshiftFacts.
Context {T : Type} `{!EqDecision T, !Streamable T, !DisplayNewValueFor T}.
Context `{!ChordRemovalPolicy T, !ButtonCatalogue, !CommandBase}.
Implicit Types (st : State T) (x y : JSMVariable T) (o : VarObj T).
Implicit Types (sk : gmap nat Skeleton) (cs : gmap nat JSMAssignment).

Lemma Modeshift_ok_alloc sk cs n k :
  sk !! n = None → (∀ d c, cs !! d = Some c → _var c < n) →
  Modeshift_ok sk cs → Modeshift_ok (<[n := k]> sk) cs.
Proof.
  intros Hn Hlt Hok d cmd b s Hd Hp.
  destruct (Hok d cmd b s Hd Hp) as [Htask Hlive]. split; [done|].
  specialize (Hlt _ _ Hd). rewrite lookup_insert_ne by lia. intros Ha.
  destruct (Hlive Ha) as (id & m & Hs & Hm). exists id, m. split; [|done].
  rewrite lookup_insert_ne; [done|]. intros <-. by rewrite Hn in Hs.
Qed.

Lemma Modeshift_ok_add_child sk cs n parent k0 mk b0 :
  sk !! n = None → (∀ d c, cs !! d = Some c → _var c < n) →
  sk !! parent = Some k0 → child_at k0 mk b0 = None →
  Modeshift_ok sk cs →
  Modeshift_ok (<[parent := with_child k0 mk b0 (Some n)]> (<[n := SkPlain]> sk)) cs.
Proof.
  intros Hn Hlt Hparent Hnone Hok d cmd b s Hd Hp.
  destruct (Hok d cmd b s Hd Hp) as [Htask Hlive]. split; [done|].
  specialize (Hlt _ _ Hd). intros Ha.
  assert (is_Some (sk !! _var cmd)) as Ha0.
  { destruct (decide (parent = _var cmd)) as [<-|Hne]; [by eexists|].
    rewrite lookup_insert_ne in Ha by done. by rewrite lookup_insert_ne in Ha by lia. }
  destruct (Hlive Ha0) as (id & m & Hs & Hm).
  assert (n ≠ s) as Hns by (intros <-; by rewrite Hn in Hs).
  destruct (decide (parent = s)) as [->|Hne].
  - rewrite Hparent in Hs. injection Hs as ->. rewrite lookup_insert_eq.
    destruct mk; simpl in *.
    + eexists id, _. split; [done|].
      rewrite lookup_partial_alter_ne; [done|]. intros <-. congruence.
    + by exists id, m.
  - exists id, m. split; [|done]. by rewrite !lookup_insert_ne.
Qed.

Lemma Modeshift_ok_drop_child sk cs n parent k0 mk b0 :
  Heap_ok sk n → sk !! parent = Some k0 →
  Modeshift_ok sk cs →
  Modeshift_ok (<[parent := with_child k0 mk b0 None]>
                  (from_option (λ p, delete p sk) sk (child_at k0 mk b0))) cs.
Proof.
  intros Hheap Hparent Hok d cmd b s Hd Hp.
  destruct (Hok d cmd b s Hd Hp) as [Htask Hlive]. split; [done|]. intros Ha.
  assert (is_Some (sk !! _var cmd)) as Ha0.
  { destruct (decide (parent = _var cmd)) as [<-|Hne]; [by eexists|].
    rewrite lookup_insert_ne in Ha by done.
    destruct (child_at k0 mk b0) as [p|]; simpl in Ha; [|done].
    rewrite lookup_delete in Ha. by case_decide. }
  destruct (Hlive Ha0) as (id & m & Hs & Hm).
  assert (sk !! _var cmd = Some SkPlain) as Hplain.
  { by apply (heap_child_live _ _ Hheap s (SkSetting id m) ChordMap b). }
  destruct (decide (parent = s)) as [->|Hne].
  - rewrite Hparent in Hs. injection Hs as ->.
    assert (s ≠ _var cmd) as Hsv by (intros Heq; rewrite <-Heq in Hplain; congruence).
    rewrite lookup_insert_ne in Ha by done. rewrite lookup_insert_eq.
    destruct mk; simpl in *.
    + eexists id, _. split; [done|].
      rewrite lookup_partial_alter_ne; [done|]. intros <-.
      rewrite Hm in Ha. simpl in Ha. rewrite lookup_delete_eq in Ha. by destruct Ha.
    + by exists id, m.
  - exists id, m. split; [|done]. rewrite lookup_insert_ne by done.
    destruct (child_at k0 mk b0) as [p|] eqn:Hp0; simpl; [|done].
    rewrite lookup_delete_ne; [done|]. intros <-.
    pose proof (heap_child_live _ _ Hheap parent k0 mk b0 p Hparent Hp0). congruence.
Qed.

Lemma Modeshift_ok_insert sk cs d c :
  _parse c = DefaultParserFn → Modeshift_ok sk cs → Modeshift_ok sk (<[d := c]> cs).
Proof.
  intros Hc Hok d' cmd b s. rewrite lookup_insert. case_decide; [|by apply Hok].
  intros [= <-]. by rewrite Hc.
Qed.

Lemma Modeshift_ok_delete sk cs d : Modeshift_ok sk cs → Modeshift_ok sk (delete d cs).
Proof.
  intros Hok d' cmd b s. rewrite lookup_delete. case_decide; [done|by apply Hok].
Qed.

Lemma Modeshift_ok_configure sk cs d help parser task :
  (∀ c b s, cs !! d = Some c → parser = ModeshiftParserFn b (Some s) →
     task = ProcessModeshiftRemovalTask s b
     ∧ (is_Some (sk !! _var c) →
        ∃ id m, sk !! s = Some (SkSetting id m) ∧ m !! b = Some (_var c))) →
  Modeshift_ok sk cs →
  Modeshift_ok sk
    (alter (λ c, SetTaskOnDestruction task (SetParser parser (SetHelp help c))) d cs).
Proof.
  intros Hnew Hok d' cmd b s. rewrite lookup_alter. case_decide; [subst d'|by apply Hok].
  destruct (cs !! d) as [c|] eqn:Hc; simpl; [|done].
  intros [= <-]. simpl. intros ->.
  destruct (Hnew c b s eq_refl eq_refl) as [-> Hlive]. done.
Qed.

(** The same for the states. *)
Lemma MS_same st st' :
  skeleton <$> vars st' = skeleton <$> vars st → cmds st' = cmds st →
  Modeshift_ok (skeleton <$> vars st) (cmds st) →
  Modeshift_ok (skeleton <$> vars st') (cmds st').
Proof. by intros -> ->. Qed.

Lemma Inv_vars_below st d c : Inv st → cmds st !! d = Some c → _var c < next_var st.
Proof. intros Hinv Hc. by destruct (inv_bound _ Hinv _ _ Hc) as [? _]. Qed.

Lemma MS_add_child st parent o o' mk b x :
  vars st !! parent = Some o → child_at (skeleton o) mk b = None →
  skeleton o' = with_child (skeleton o) mk b (Some (next_var st)) →
  Inv st → Modeshift_ok (skeleton <$> vars st) (cmds st) →
  Modeshift_ok
    (skeleton <$> <[parent := o']> (<[next_var st := PlainVariable x]> (vars st)))
    (cmds st).
Proof.
  intros Hparent Hnone Hsk Hinv Hok. rewrite !fmap_insert, Hsk. simpl.
  apply Modeshift_ok_add_child; try done.
  - by rewrite lookup_fmap, (Inv_next_var_free st Hinv).
  - intros d c. by apply Inv_vars_below.
  - by rewrite lookup_fmap, Hparent.
Qed.

Lemma MS_AtChord st parent chord st' p :
  AtChord st parent chord = Some (st', p) → Inv st →
  Modeshift_ok (skeleton <$> vars st) (cmds st) →
  Modeshift_ok (skeleton <$> vars st') (cmds st').
Proof.
  unfold AtChord.
  destruct (vars st !! parent) as [[|id x m rm|x m sm]|] eqn:Hs; simpl; try done.
  - destruct (m !! chord) as [q|] eqn:Hq; [by intros [= <- <-]|].
    intros [= <- <-]. simpl.
    by apply (MS_add_child st parent (JSMSetting id x m rm) _ ChordMap chord).
  - destruct (m !! chord) as [q|] eqn:Hq; [by intros [= <- <-]|].
    intros [= <- <-]. simpl.
    by apply (MS_add_child st parent (JSMButton x m sm) _ ChordMap chord).
Qed.

Lemma MS_AtSimPress st button chord st' p :
  AtSimPress st button chord = Some (st', p) → Inv st →
  Modeshift_ok (skeleton <$> vars st) (cmds st) →
  Modeshift_ok (skeleton <$> vars st') (cmds st').
Proof.
  unfold AtSimPress.
  destruct (vars st !! button) as [[|id x m rm|x m sm]|] eqn:Hs; simpl; try done.
  destruct (sm !! chord) as [q|] eqn:Hq; [by intros [= <- <-]|].
  intros [= <- <-]. simpl.
  by apply (MS_add_child st button (JSMButton x m sm) _ SimMap chord).
Qed.

(** The child that [AtChord] returns is in the map of the parent. *)
Lemma AtChord_child st parent chord st' p :
  AtChord st parent chord = Some (st', p) →
  ∃ o', vars st' !! parent = Some o'
        ∧ child_at (skeleton o') ChordMap chord = Some p.
Proof.
  unfold AtChord.
  destruct (vars st !! parent) as [[|id x m rm|x m sm]|] eqn:Hs; simpl; try done.
  - destruct (m !! chord) as [q|] eqn:Hq; intros [= <- <-]; [by eexists|].
    simpl. rewrite lookup_insert_eq. eexists. split; [done|]. simpl.
    by rewrite lookup_insert_eq.
  - destruct (m !! chord) as [q|] eqn:Hq; intros [= <- <-]; [by eexists|].
    simpl. rewrite lookup_insert_eq. eexists. split; [done|]. simpl.
    by rewrite lookup_insert_eq.
Qed.

Lemma MS_new st name displayName var st' this :
  JSMAssignment_new st name displayName var = Some (st', this) →
  Modeshift_ok (skeleton <$> vars st) (cmds st) →
  Modeshift_ok (skeleton <$> vars st') (cmds st').
Proof.
  unfold JSMAssignment_new.
  destruct (deref (vars st) var) as [x|]; simpl; [|done].
  intros [= <- <-]. simpl. rewrite skeleton_store. by apply Modeshift_ok_insert.
Qed.

(** The command built in a branch of [GetModifiedCmd]. *)
Lemma MS_derived st1 st2 name child d help parser task :
  JSMAssignment_new2 st1 name child = Some (st2, d) →
  (∀ b s, parser = ModeshiftParserFn b (Some s) →
     task = ProcessModeshiftRemovalTask s b
     ∧ ∃ id m, (skeleton <$> vars st1) !! s = Some (SkSetting id m)
               ∧ m !! b = Some child) →
  Modeshift_ok (skeleton <$> vars st1) (cmds st1) →
  Modeshift_ok (skeleton <$> vars (configure st2 d help parser task))
    (cmds (configure st2 d help parser task)).
Proof.
  intros Hnew Hparser Hok.
  pose proof (MS_new _ _ _ _ _ _ Hnew Hok) as Hok2.
  destruct (new_skeleton _ _ _ _ _ _ Hnew) as (Hsk & _ & Hd).
  simpl. apply Modeshift_ok_configure; [|done].
  intros c b s. rewrite Hd. intros [= <-] Hp. simpl.
  destruct (Hparser b s Hp) as [Htask Hchild]. split; [done|].
  intros _. by rewrite Hsk.
Qed.

(** A command over a setting or a button has no modeshift parser. *)
Lemma MS_not_over_parent st d c b s :
  Inv st → Modeshift_ok (skeleton <$> vars st) (cmds st) →
  cmds st !! d = Some c → _parse c = ModeshiftParserFn b (Some s) →
  is_setting (skeleton <$> vars st) (_var c)
  ∨ is_button (skeleton <$> vars st) (_var c) → False.
Proof.
  intros Hinv Hok Hd Hp Hclass.
  destruct (Hok d c b s Hd Hp) as [_ Hlive].
  destruct Hlive as (id & m & Hs & Hm).
  { destruct Hclass as [(? & ? & ->)|(? & ? & ->)]; by eexists. }
  pose proof (heap_child_live _ _ (inv_heap _ Hinv) s (SkSetting id m) ChordMap b
                (_var c) Hs Hm) as Hplain.
  destruct Hclass as [(? & ? & Hk)|(? & ? & Hk)]; congruence.
Qed.

Lemma MS_GetModifiedCmd st this op chord st' r :
  GetModifiedCmd st this op chord = Some (st', r) → Inv st →
  Modeshift_ok (skeleton <$> vars st) (cmds st) →
  Modeshift_ok (skeleton <$> vars st') (cmds st').
Proof.
  unfold GetModifiedCmd, JSMCommand_GetModifiedCmd.
  destruct (cmds st !! this) as [c|] eqn:Hc; simpl; [|done].
  intros Hget Hinv Hok. revert Hget.
  destruct (enum_cast chord) as [btn|]; [|by intros [= <- _]].
  case_bool_decide; [|by intros [= <- _]].
  destruct (decide (op = ","%char)) as [_|_].
  - destruct (as_JSMSetting _ _) as [[settingVar|]|] eqn:Hset; simpl; [| |done].
    + apply as_JSMSetting_Some in Hset as [-> Hset].
      destruct (AtChord st _ btn) as [[st1 child]|] eqn:Hat; simpl; [|done].
      destruct (JSMAssignment_new2 st1 _ child) as [[st2 d]|] eqn:Hnew; simpl; [|done].
      intros [= <- _]. eapply MS_derived; [exact Hnew| |by eapply MS_AtChord].
      intros b s [= <- <-]. split; [done|].
      destruct (AtChord_child _ _ _ _ _ Hat) as (o' & Ho' & Hchild).
      destruct (AtChord_keeps _ _ _ _ _ Hat Hinv) as [Hkeep _].
      destruct (Hkeep _ Hset) as (id & m & Hs).
      exists id, m. split; [done|].
      rewrite lookup_fmap, Ho' in Hs. simpl in Hs. injection Hs as Hs.
      by rewrite Hs in Hchild.
    + destruct (as_JSMButton _ _) as [[buttonVar|]|] eqn:Hbut; simpl;
        [|by intros [= <- _]|done].
      apply as_JSMButton_Some in Hbut as [-> Hbut].
      destruct (AtChord st _ btn) as [[st1 child]|] eqn:Hat; simpl; [|done].
      destruct (JSMAssignment_new2 st1 _ child) as [[st2 d]|] eqn:Hnew; simpl; [|done].
      intros [= <- _]. eapply MS_derived; [exact Hnew| |by eapply MS_AtChord].
      intros b s Hp. destruct (MS_not_over_parent st this c b s); auto.
  - destruct (decide (op = "+"%char)) as [_|_]; [|by intros [= <- _]].
    destruct (as_JSMButton _ _) as [[buttonVar|]|] eqn:Hbut; simpl;
      [|by intros [= <- _]|done].
    apply as_JSMButton_Some in Hbut as [-> Hbut].
    case_bool_decide; [|by intros [= <- _]].
    destruct (AtSimPress st _ btn) as [[st1 child]|] eqn:Hat; simpl; [|done].
    destruct (JSMAssignment_new2 st1 _ child) as [[st2 d]|] eqn:Hnew; simpl; [|done].
    intros [= <- _]. eapply MS_derived; [exact Hnew| |by eapply MS_AtSimPress].
    intros b s Hp. destruct (MS_not_over_parent st this c b s); auto.
Qed.

Lemma MS_drop_child st cs parent o o' mk b :
  vars st !! parent = Some o →
  skeleton o' = with_child (skeleton o) mk b None →
  Heap_ok (skeleton <$> vars st) (next_var st) →
  Modeshift_ok (skeleton <$> vars st) cs →
  Modeshift_ok
    (skeleton <$> <[parent := o']>
                    (from_option (λ p, delete p (vars st)) (vars st)
                       (child_at (skeleton o) mk b)))
    cs.
Proof.
  intros Hparent Hsk Hheap Hok. rewrite fmap_insert, Hsk.
  assert (skeleton <$> from_option (λ p, delete p (vars st)) (vars st)
                         (child_at (skeleton o) mk b)
          = from_option (λ p, delete p (skeleton <$> vars st)) (skeleton <$> vars st)
              (child_at (skeleton o) mk b)) as ->.
  { destruct (child_at _ _ _); simpl; [by rewrite fmap_delete|done]. }
  eapply Modeshift_ok_drop_child; [exact Hheap| |done].
  by rewrite lookup_fmap, Hparent.
Qed.

Lemma MS_run_task st cs task st' :
  run_task st task = Some st' → Heap_ok (skeleton <$> vars st) (next_var st) →
  Modeshift_ok (skeleton <$> vars st) cs → Modeshift_ok (skeleton <$> vars st') cs.
Proof.
  destruct task as [s b|bt b p|bt b p]; simpl.
  - unfold ProcessModeshiftRemoval.
    destruct (vars st !! s) as [[|id x m rm|]|] eqn:Hs; simpl; try done.
    case_decide; [|by intros [= <-]].
    intros [= <-]. by apply (MS_drop_child st cs s (JSMSetting id x m rm) _ ChordMap b).
  - unfold ProcessChordRemoval.
    destruct (vars st !! bt) as [o|] eqn:Hs; simpl; [|done].
    destruct (get st p) as [v|]; simpl; [|done].
    destruct o as [|id x m rm|x m sm]; try done.
    destruct (drops_binding v); [|by intros [= <-]].
    intros [= <-]. by apply (MS_drop_child st cs bt (JSMButton x m sm) _ ChordMap b).
  - unfold ProcessSimPressRemoval.
    destruct (vars st !! bt) as [o|] eqn:Hs; simpl; [|done].
    destruct (get st p) as [v|]; simpl; [|done].
    destruct o as [|id x m rm|x m sm]; try done.
    destruct (drops_binding v); [|by intros [= <-]].
    intros [= <-]. by apply (MS_drop_child st cs bt (JSMButton x m sm) _ SimMap b).
Qed.

Lemma MS_delete st this st' :
  JSMAssignment_delete st this = Some st' → Inv st →
  Modeshift_ok (skeleton <$> vars st) (cmds st) →
  Modeshift_ok (skeleton <$> vars st') (cmds st').
Proof.
  unfold JSMAssignment_delete, JSMCommand_delete.
  destruct (cmds st !! this) as [c|] eqn:Hc; simpl; [|done].
  destruct (deref (vars st) (_var c)) as [x|] eqn:Hx; simpl; [|done].
  set (st1 := with_vars st _). intros Hrun Hinv Hok.
  assert (Heap_ok (skeleton <$> vars st1) (next_var st1)) as Hheap1.
  { subst st1. simpl. rewrite skeleton_store. apply (inv_heap _ Hinv). }
  assert (Modeshift_ok (skeleton <$> vars st1) (cmds st)) as Hok1.
  { subst st1. simpl. by rewrite skeleton_store. }
  destruct (_taskOnDestruction c) as [task|].
  - destruct (run_task st1 task) as [st2|] eqn:Htask; simpl in Hrun; [|done].
    injection Hrun as <-. simpl.
    destruct (run_task_cmds _ _ _ Htask) as [-> _]. simpl.
    apply Modeshift_ok_delete. by eapply MS_run_task.
  - simpl in Hrun. injection Hrun as <-. simpl. by apply Modeshift_ok_delete.
Qed.

Lemma assign_skeleton st r v st' w :
  assign st r v = Some (st', w) → skeleton <$> vars st' = skeleton <$> vars st.
Proof.
  intros (_ & x & _ & ->)%assign_vars. apply skeleton_store.
Qed.

Lemma ParseData_skeleton st this arguments st' ok :
  ParseData st this arguments = Some (st', ok) →
  skeleton <$> vars st' = skeleton <$> vars st.
Proof.
  intros Hrun. destruct (cmds st !! this) as [c|] eqn:Hc;
    [|unfold ParseData in Hrun; by rewrite Hc in Hrun].
  destruct (ParseData_vars _ _ _ _ _ _ Hc Hrun)
    as [_ [->|[(x & v & _ & ->)|(b & s & id & x & m & rm & _ & _ & Hs & ->)]]].
  - done.
  - apply skeleton_store.
  - rewrite fmap_insert. apply insert_id. by rewrite lookup_fmap, Hs.
Qed.

Lemma MS_exec st a st' :
  exec st a = Some st' → Inv st →
  Modeshift_ok (skeleton <$> vars st) (cmds st) →
  Modeshift_ok (skeleton <$> vars st') (cmds st').
Proof.
  destruct a as [k v f|r say|name dn var|this args|this op chord|this v|r v|this];
    simpl.
  - intros [= <-] Hinv Hok. simpl. rewrite fmap_insert.
    apply Modeshift_ok_alloc; [|by intros d c; apply Inv_vars_below|done].
    by rewrite lookup_fmap, (Inv_next_var_free st Hinv).
  - destruct (deref (vars st) r) as [x|] eqn:Hx; simpl; [|done].
    intros [= <-] _ Hok. simpl. by rewrite skeleton_store.
  - destruct (JSMAssignment_new _ _ _ _) as [[st1 d]|] eqn:Hnew; simpl; [|done].
    intros [= <-] _. by eapply MS_new.
  - destruct (ParseData _ _ _) as [[st1 ok]|] eqn:Hp; simpl; [|done].
    intros [= <-] _. apply MS_same; [by eapply ParseData_skeleton|].
    by destruct (ParseData_cmds _ _ _ _ _ Hp).
  - destruct (GetModifiedCmd _ _ _ _) as [[st1 r]|] eqn:Hp; simpl; [|done].
    intros [= <-]. by eapply MS_GetModifiedCmd.
  - unfold JSMAssignment_assign. destruct (cmds st !! this) as [c|]; simpl; [|done].
    destruct (assign _ _ _) as [[st1 w]|] eqn:Has; simpl; [|done].
    intros [= <-] _. apply MS_same; [by eapply assign_skeleton|].
    by destruct (assign_cmds _ _ _ _ _ Has).
  - destruct (assign _ _ _) as [[st1 w]|] eqn:Has; simpl; [|done].
    intros [= <-] _. apply MS_same; [by eapply assign_skeleton|].
    by destruct (assign_cmds _ _ _ _ _ Has).
  - apply MS_delete.
Qed.

Lemma MS_exec_all acts : ∀ st st',
  exec_all st acts = Some st' → Inv st →
  Modeshift_ok (skeleton <$> vars st) (cmds st) →
  Modeshift_ok (skeleton <$> vars st') (cmds st').
Proof.
  induction acts as [|a acts IH]; simpl; intros st st'; [by intros [= <-]|].
  destruct (exec st a) as [st1|] eqn:Ha; simpl; [|done].
  intros Hrest Hinv Hok. eapply IH; [done|by eapply Inv_exec|by eapply MS_exec].
Qed.

Lemma reachable_Modeshift_ok st :
  reachable st → Modeshift_ok (skeleton <$> vars st) (cmds st).
Proof.
  intros [acts Hacts]. eapply MS_exec_all; [done|apply Inv_initial|].
  intros d cmd b s. simpl. by rewrite lookup_empty.
Qed.

(** A command with the modeshift parser whose variable is alive, in a
    reachable state: the setting, its map and the child. *)
Lemma modeshift_command_shape st d cmd b s :
  reachable st → cmds st !! d = Some cmd →
  _parse cmd = ModeshiftParserFn b (Some s) →
  is_Some (deref (vars st) (_var cmd)) →
  _taskOnDestruction cmd = Some (ProcessModeshiftRemovalTask s b)
  ∧ ∃ id x m rm y,
      vars st !! s = Some (JSMSetting id x m rm) ∧ m !! b = Some (_var cmd)
      ∧ vars st !! _var cmd = Some (PlainVariable y).
Proof.
  intros Hreach Hd Hp [z Hz].
  pose proof (reachable_Inv _ Hreach) as Hinv.
  destruct (reachable_Modeshift_ok _ Hreach d cmd b s Hd Hp) as [Htask Hlive].
  split; [done|]. destruct Hlive as (id & m & Hs & Hm).
  { rewrite lookup_fmap. apply fmap_is_Some. by eapply deref_is_Some. }
  rewrite lookup_fmap in Hs.
  destruct (vars st !! s) as [[|id' x m' rm|]|] eqn:Hvs; simpl in Hs; try done.
  injection Hs as -> ->.
  destruct (Inv_child_live st s (JSMSetting id x m rm) ChordMap b (_var cmd) Hinv Hvs Hm)
    as [y Hy].
  by exists id, x, m, rm, y.
Qed.

End ModeshiftFacts.

(** ** The properties of the specification *)

Section Properties.
Context {T : Type} `{!EqDecision T, !Streamable T, !DisplayNewValueFor T}.
Context `{!ChordRemovalPolicy T, !ButtonCatalogue, !CommandBase}.
Implicit Types (st : State T) (x y : JSMVariable T) (o : VarObj T).

(** C1: when the text (not empty: the empty text asks for the value) parses
    to [value], [DefaultParser] stores it: the variable passes it through its
    normalization and holds the result, which is [value] when the
    normalization lets it through, and nothing else changes but the output.
    It returns true exactly when [value] is the old value or the value
    stored afterwards differs from the old one; when [value] differs from
    the old value and the stored value is the old one again, it returns
    false. *)
Theorem DefaultParser_success_iff st cmd inst data value x :
  reachable st → cmds st !! cmd = Some inst →
  data ≠ "" → stream_in data = Some value →
  deref (vars st) (_var inst) = Some x →
  let oldVal := _value x in
  let now := _filter x oldVal value in
  ∃ st' ok,
    DefaultParser st cmd data = Some (st', ok)
    ∧ vars st' = store (vars st) (_var inst) (set_value x now)
    ∧ cmds st' = cmds st
    ∧ get st' (_var inst) = Some now
    ∧ (now = value → get st' (_var inst) = Some value)
    ∧ (ok = true ↔ value = oldVal ∨ now ≠ oldVal)
    ∧ (value ≠ oldVal → now = oldVal → ok = false).
Proof.
  intros Hinv%reachable_Inv Hc Hdata Hin Hx oldVal now.
  destruct (DefaultParser_assigns st cmd inst data value x Hinv Hc Hdata Hin Hx)
    as (st' & out & Hrun & Hvars & Hcmds & _).
  fold oldVal now in Hrun, Hvars.
  assert (get st' (_var inst) = Some now) as Hget.
  { unfold get. rewrite Hvars, deref_store_eq; [done|by eapply deref_is_Some]. }
  eexists st', _. split; [exact Hrun|]. split_and!; [done|done|done| | |].
  - intros Heq. by rewrite <-Heq.
  - rewrite orb_true_iff, !bool_decide_eq_true. done.
  - intros Hne Heq. apply orb_false_iff.
    rewrite !bool_decide_eq_false. split; [done|]. by intros [].
Qed.

(** C2, as amended: an assignment through [DefaultParser] writes one
    value-changed line of this command and never two: when the stored value
    changed the lines are those of the listeners, of which one is this
    command's, and when it did not the one line is written by the call of
    [DisplayNewValue] in the parser.  Every other command bound to the same
    variable writes a value-changed line of its own when the stored value
    changed: the call then writes as many value-changed lines as commands are
    bound to the variable, and one otherwise.  When the variable has no
    listener but the one of this command, that line is all the call
    writes. *)
Theorem DefaultParser_displays_once st cmd inst data value x :
  reachable st → cmds st !! cmd = Some inst →
  data ≠ "" → stream_in data = Some value →
  deref (vars st) (_var inst) = Some x →
  let oldVal := _value x in
  let now := _filter x oldVal value in
  ∃ st' ok out,
    DefaultParser st cmd data = Some (st', ok)
    ∧ get st' (_var inst) = Some now
    ∧ cout st' = cout st ++ out
    ∧ lines_by (ByDisplayNewValue cmd) out = 1
    ∧ (now ≠ oldVal → notify (cmds st) (_onChangeListeners x) now = Some out)
    ∧ (now = oldVal → out = [DisplayNewValue_line cmd inst now])
    ∧ value_changed_lines out
      = (if decide (now = oldVal) then 1
         else command_listeners (_onChangeListeners x))
    ∧ 1 ≤ command_listeners (_onChangeListeners x)
    ∧ (_onChangeListeners x = [(_listenerId inst, DisplayNewValueOf cmd)] →
       out = [DisplayNewValue_line cmd inst now]).
Proof.
  intros Hinv%reachable_Inv Hc Hdata Hin Hx oldVal now.
  destruct (DefaultParser_assigns st cmd inst data value x Hinv Hc Hdata Hin Hx)
    as (st' & out & Hrun & Hvars & _ & Hout & Hsame & Hchanged).
  fold oldVal now in Hrun, Hvars, Hsame, Hchanged.
  destruct (Inv_listeners_of_alive st cmd inst x Hinv Hc Hx) as [Hone Hmine].
  eexists st', _, out. split; [exact Hrun|].
  split_and!; [|done| |done|done| | |].
  - unfold get. rewrite Hvars, deref_store_eq; [done|by eapply deref_is_Some].
  - destruct (decide (now = oldVal)) as [Heq|Hne].
    + rewrite (Hsame Heq). unfold lines_by, DisplayNewValue_line.
      rewrite filter_cons. simpl. by rewrite decide_True.
    + by rewrite (notify_lines_by _ _ _ cmd out (Hchanged Hne)).
  - destruct (decide (now = oldVal)) as [Heq|Hne].
    + by rewrite (Hsame Heq).
    + exact (notify_value_changed _ _ _ _ (Hchanged Hne)).
  - by eapply command_listeners_pos.
  - intros Hls.
    destruct (decide (now = oldVal)) as [Heq|Hne]; [auto|].
    specialize (Hchanged Hne). rewrite Hls in Hchanged. simpl in Hchanged.
    rewrite Hc in Hchanged. simpl in Hchanged. by injection Hchanged as <-.
Qed.

(** C3: when the value parse fails, that is, for a line that reaches
    [ss >> value] in [DefaultParser] with a capture that is not empty and
    that [>>] cannot convert, [ParseData] writes the help text and returns
    true; nothing but [cout] changes.  A line reaches the value parse when it
    is not HELP, which line 32 answers first, and matches the pattern, and
    when its capture is not NONE for the modeshift parser of a setting, which
    line 51 answers before it calls [DefaultParser]. *)
Theorem ParseData_value_rejected st this c arguments data :
  cmds st !! this = Some c →
  arguments ≠ "HELP" →
  Regex.regex_match assignment_regex arguments = Some data →
  data ≠ "" → stream_in data = None →
  (∀ modeshift s, _parse c = ModeshiftParserFn modeshift (Some s) → data ≠ "NONE") →
  ParseData st this arguments = Some (print st [(ByParseData this, _help c)], true)
  ∧ get (print st [(ByParseData this, _help c)]) (_var c) = get st (_var c).
Proof.
  intros Hc Hhelp Hmatch Hdata Hin Hnone. split; [|done].
  assert (DefaultParser st this data = Some (st, false)) as Hdef.
  { unfold DefaultParser. rewrite Hc. simpl. rewrite decide_False by done.
    by rewrite Hin. }
  assert (call_parse st (_parse c) this data = Some (st, false)) as Hcall.
  { destruct (_parse c) as [|modeshift [s|]] eqn:Hp; unfold call_parse, ModeshiftParser;
      [done| |done].
    rewrite decide_False; [done|]. by eapply Hnone. }
  unfold ParseData. rewrite Hc. simpl. rewrite decide_False by done.
  by rewrite Hmatch, Hcall.
Qed.

(** C4: on exactly HELP, [ParseData] writes the help text and returns false;
    nothing but [cout] changes. *)
Theorem ParseData_HELP st this c :
  cmds st !! this = Some c →
  ParseData st this "HELP" = Some (print st [(ByParseData this, _help c)], false)
  ∧ vars (print st [(ByParseData this, _help c)]) = vars st.
Proof.
  intros Hc. split; [|done]. unfold ParseData. by rewrite Hc.
Qed.

(** C5: on a line other than HELP, [ParseData] returns true exactly when the
    whole line has the shape: optional whitespace, an optional '=', optional
    whitespace, then a run of characters of the capture class; on any other
    line it returns false and leaves the state as it was. *)
Theorem ParseData_true_iff_shape st this c arguments :
  reachable st → cmds st !! this = Some c →
  is_Some (deref (vars st) (_var c)) →
  arguments ≠ "HELP" →
  ∃ st' ok,
    ParseData st this arguments = Some (st', ok)
    ∧ (ok = true ↔ Grammar.shape arguments)
    ∧ (¬ Grammar.shape arguments → st' = st).
Proof.
  intros Hinv%reachable_Inv Hc Hlive Hhelp.
  unfold ParseData. rewrite Hc. simpl. rewrite decide_False by done.
  destruct (Regex.regex_match assignment_regex arguments) as [data|] eqn:Hmatch.
  - assert (Grammar.shape arguments) as Hshape.
    { apply RegexFacts.regex_match_shape. by eexists. }
    destruct (call_parse_total st this c data Hinv Hc Hlive) as [[st1 [|]] ->];
      eexists _, true; by split_and!.
  - assert (¬ Grammar.shape arguments) as Hshape.
    { intros [data Hdata]%RegexFacts.regex_match_shape. congruence. }
    exists st, false. by split_and!.
Qed.

(** C6: when the capture is empty, [ParseData] writes the line
    "<displayName> = <current value>" and returns true; nothing but [cout]
    changes. *)
Theorem ParseData_query st this c arguments v :
  cmds st !! this = Some c → get st (_var c) = Some v →
  Regex.regex_match assignment_regex arguments = Some ""%string →
  let st' := print st [(ByDefaultParser this,
                        _displayName c +:+ " = " +:+ stream_out v)] in
  ParseData st this arguments = Some (st', true)
  ∧ vars st' = vars st ∧ cmds st' = cmds st.
Proof.
  intros Hc Hget Hmatch st'. split; [|done].
  assert (arguments ≠ "HELP") as Hhelp.
  { intros ->. vm_compute in Hmatch. discriminate. }
  assert (call_parse st (_parse c) this "" = Some (st', true)) as Hcall.
  { assert (DefaultParser st this "" = Some (st', true)) as Hdef.
    { unfold DefaultParser. rewrite Hc. simpl. by rewrite Hget. }
    by destruct (_parse c) as [|modeshift [s|]]. }
  unfold ParseData. rewrite Hc. simpl. rewrite decide_False by done.
  by rewrite Hmatch, Hcall.
Qed.

(** C9: when the chord token does not resolve, or resolves to a button that
    is not above NONE, [GetModifiedCmd] is the handling of the base class:
    no command, and the state as it was. *)
Theorem GetModifiedCmd_unresolved st this c op chord :
  cmds st !! this = Some c →
  (enum_cast chord = None ∨ ∃ btn, enum_cast chord = Some btn ∧ ¬ (NONE < btn)%Z) →
  GetModifiedCmd st this op chord = JSMCommand_GetModifiedCmd st op chord
  ∧ GetModifiedCmd st this op chord = Some (st, None).
Proof.
  intros Hc Hchord.
  assert (GetModifiedCmd st this op chord = JSMCommand_GetModifiedCmd st op chord)
    as Heq; [|by rewrite Heq].
  unfold GetModifiedCmd. rewrite Hc. simpl.
  destruct Hchord as [->|(btn & -> & Hbtn)]; [done|].
  by rewrite bool_decide_eq_false_2.
Qed.

(** C7: for a chord token that resolves to a button above NONE,
    [GetModifiedCmd] with ',' on a setting returns a new command named
    "<chord>,<displayName>" over the child that the override map of the
    setting holds at the button (the one it held before, when there was
    one); with ',' on a button the command is over the child in the chorded
    map; with '+' on a button it is named "<chord>+<displayName>" and is over
    the child in the simultaneous-press map, which is not the child of the
    chorded map.  The buttons above NONE are the non-negative ones, NONE
    being -1 or more. *)
Theorem GetModifiedCmd_cases st this c chord btn :
  reachable st → cmds st !! this = Some c →
  enum_cast chord = Some btn → (NONE < btn)%Z →
  (∀ id x m rm, vars st !! _var c = Some (JSMSetting id x m rm) →
     ∃ st' d p,
       GetModifiedCmd st this "," chord = Some (st', Some d)
       ∧ cmds st !! d = None
       ∧ derived_command st' d (chord +:+ "," +:+ _displayName c) p
       ∧ vars st' !! _var c = Some (JSMSetting id x (<[btn := p]> m) rm)
       ∧ (∀ q, m !! btn = Some q → p = q))
  ∧ (∀ x m sm, vars st !! _var c = Some (JSMButton x m sm) →
       (∃ st' d p,
          GetModifiedCmd st this "," chord = Some (st', Some d)
          ∧ cmds st !! d = None
          ∧ derived_command st' d (chord +:+ "," +:+ _displayName c) p
          ∧ vars st' !! _var c = Some (JSMButton x (<[btn := p]> m) sm)
          ∧ (∀ q, m !! btn = Some q → p = q))
       ∧ ((-1 ≤ NONE)%Z →
          ∃ st' d p,
            GetModifiedCmd st this "+" chord = Some (st', Some d)
            ∧ cmds st !! d = None
            ∧ derived_command st' d (chord +:+ "+" +:+ _displayName c) p
            ∧ vars st' !! _var c = Some (JSMButton x m (<[btn := p]> sm))
            ∧ (∀ q, sm !! btn = Some q → p = q)
            ∧ m !! btn ≠ Some p)).
Proof.
  intros Hinv%reachable_Inv Hc Hbtn Hlt. split; [|intros x m sm Ha; split].
  - intros id x m rm Ha.
    destruct (GetModifiedCmd_setting st this c chord btn id x m rm Hinv Hc Hbtn Hlt Ha)
      as (st' & p & y & Hrun & Hnew & Hd & Hparent & Hchild & _ & Hfetch).
    exists st', (next_cmd st), p. split_and!; try done.
    eexists. split; [exact Hd|]. split_and!; try done.
    unfold deref. rewrite Hchild. by eexists.
  - destruct (GetModifiedCmd_button_chord st this c chord btn x m sm Hinv Hc Hbtn Hlt Ha)
      as (st' & p & y & Hrun & Hnew & Hd & Hparent & Hchild & _ & Hfetch).
    exists st', (next_cmd st), p. split_and!; try done.
    eexists. split; [exact Hd|]. split_and!; try done.
    unfold deref. rewrite Hchild. by eexists.
  - intros Hnone.
    destruct (GetModifiedCmd_button_simpress st this c chord btn x m sm
                Hinv Hc Hbtn Hlt) as (st' & p & y & Hrun & Hnew & Hd & Hparent
                                      & Hchild & _ & Hfetch & Hdistinct);
      [lia|done|].
    exists st', (next_cmd st), p. split_and!; try done.
    eexists. split; [exact Hd|]. split_and!; try done.
    unfold deref. rewrite Hchild. by eexists.
Qed.

(** C8: the command that [GetModifiedCmd] builds with ',' over a setting has
    the modeshift parser of that setting and chord, over a child that is
    alive.  For every command with that parser, in whatever state the
    program has reached, as long as its variable is alive: the variable is
    the child the setting holds at the chord, and the teardown task is the
    removal of that override; on NONE, through [ParseData] as well, the
    parser marks the override of the chord, writes the confirmation and
    returns true, and does nothing else: [DefaultParser] is not called, the
    child keeps its value and stays in the map; on any other text it is
    [DefaultParser].  Destroying the command runs its task: after NONE, and
    in every state in which the override is marked, the map of the setting
    has no entry at the chord afterwards and the child is gone; when the
    override is not marked it stays. *)
Theorem modeshift_command_removal st :
  reachable st →
  (∀ this c chord btn id x m rm,
     cmds st !! this = Some c → enum_cast chord = Some btn → (NONE < btn)%Z →
     vars st !! _var c = Some (JSMSetting id x m rm) →
     ∃ st1 d cmd,
       GetModifiedCmd st this "," chord = Some (st1, Some d)
       ∧ cmds st1 !! d = Some cmd
       ∧ _parse cmd = ModeshiftParserFn btn (Some (_var c))
       ∧ is_Some (deref (vars st1) (_var cmd)))
  ∧ (∀ d cmd b s,
       cmds st !! d = Some cmd → _parse cmd = ModeshiftParserFn b (Some s) →
       is_Some (deref (vars st) (_var cmd)) →
       ∃ id x m rm,
         vars st !! s = Some (JSMSetting id x m rm)
         ∧ m !! b = Some (_var cmd)
         ∧ _taskOnDestruction cmd = Some (ProcessModeshiftRemovalTask s b)
         ∧ (∀ argument, argument ≠ "NONE" →
              call_parse st (_parse cmd) d argument = DefaultParser st d argument)
         ∧ (∃ st2,
              call_parse st (_parse cmd) d "NONE" = Some (st2, true)
              ∧ (∀ arguments,
                   Regex.regex_match assignment_regex arguments
                   = Some "NONE"%string →
                   ParseData st d arguments = Some (st2, true))
              ∧ st2
                = print
                    (with_vars st
                       (<[s := JSMSetting id x m ({[b]} ∪ rm)]> (vars st)))
                    [(ByModeshiftParser,
                      "Modeshift " +:+ ButtonID_text b +:+ "," +:+
                      SettingID_text id +:+ " has been removed.")]
              ∧ get st2 (_var cmd) = get st (_var cmd)
              ∧ is_Some (get st2 (_var cmd))
              ∧ ∃ st3 m3 rm3,
                  JSMAssignment_delete st2 d = Some st3
                  ∧ vars st3 !! s = Some (JSMSetting id x m3 rm3)
                  ∧ m3 !! b = None
                  ∧ deref (vars st3) (_var cmd) = None ∧ cmds st3 !! d = None)
         ∧ (∃ st3 m3 rm3,
              JSMAssignment_delete st d = Some st3
              ∧ vars st3 !! s = Some (JSMSetting id x m3 rm3)
              ∧ cmds st3 !! d = None
              ∧ (b ∈ rm → m3 !! b = None ∧ deref (vars st3) (_var cmd) = None)
              ∧ (b ∉ rm → m3 !! b = Some (_var cmd)
                          ∧ is_Some (deref (vars st3) (_var cmd))))).
Proof.
  intros Hreach. pose proof (reachable_Inv _ Hreach) as Hinv. split.
  - intros this c chord btn id x m rm Hc Hbtn Hlt Ha.
    destruct (GetModifiedCmd_setting st this c chord btn id x m rm Hinv Hc Hbtn Hlt Ha)
      as (st1 & p & y & Hrun & Hnew & Hd & Hparent & Hchild & _ & Hfetch).
    eexists st1, (next_cmd st), _. split; [exact Hrun|]. split; [exact Hd|].
    simpl. split; [done|]. unfold deref. rewrite Hchild. by eexists.
  - intros d cmd b s Hd Hparse Hlive.
    destruct (modeshift_command_shape st d cmd b s Hreach Hd Hparse Hlive)
      as (Htask & id & x & m & rm & y & Hs & Hmb & Hp).
    exists id, x, m, rm. split; [done|]. split; [done|]. split; [done|].
    split.
    { intros argument Hne. rewrite Hparse. simpl. by rewrite decide_False. }
    destruct (modeshift_teardown st d cmd s b id x m rm (_var cmd) y
                Hd Hparse Htask eq_refl Hs Hp Hmb)
      as (Hnone & Hstill & st3 & Hdel & Hgone & Hchild3 & Hcmd3).
    split.
    + eexists. split; [exact Hnone|]. split_and!.
      * intros arguments Hmatch.
        assert (arguments ≠ "HELP") as Hhelp.
        { intros ->. vm_compute in Hmatch. discriminate. }
        unfold ParseData. rewrite Hd. simpl. rewrite decide_False by done.
        rewrite Hmatch. simpl. by rewrite Hnone.
      * done.
      * unfold get, deref. simpl. simpl in Hstill. by rewrite Hstill, Hp.
      * unfold get, deref. simpl. simpl in Hstill. rewrite Hstill. by eexists.
      * eexists st3, _, _. split; [exact Hdel|]. split; [exact Hgone|]. split_and!.
        -- by rewrite lookup_delete_eq.
        -- unfold deref. by rewrite Hchild3.
        -- done.
    + destruct (modeshift_delete st d cmd s b id x m rm (_var cmd) y
                  Hd Htask eq_refl Hs Hp Hmb)
        as (st4 & Hdel4 & Hcmd4 & Hmarked & Hunmarked).
      destruct (decide (b ∈ rm)) as [Hin|Hout].
      * destruct (Hmarked Hin) as [Hs4 Hp4].
        eexists st4, _, _. split; [exact Hdel4|]. split; [exact Hs4|].
        split; [done|]. split; [|done]. intros _.
        split; [by rewrite lookup_delete_eq|]. unfold deref. by rewrite Hp4.
      * destruct (Hunmarked Hout) as [Hs4 Hp4].
        eexists st4, _, _. split; [exact Hdel4|]. split; [exact Hs4|].
        split; [done|]. split; [done|]. intros _.
        split; [done|]. unfold deref. by apply fmap_is_Some.
Qed.

(** C10: the constructor subscribes one listener, bound to the new command,
    under an id the variable did not hold, and keeps that id.  While the
    command is alive its variable holds exactly one listener bound to it.
    The destructor removes the listener of that id and no other; from then
    on, whatever the program does, no variable holds a listener bound to the
    command and no notification writes a line of it. *)
Theorem listener_lifecycle st :
  reachable st →
  (∀ name displayName var x, deref (vars st) var = Some x →
     ∃ st' this x' c,
       JSMAssignment_new st name displayName var = Some (st', this)
       ∧ cmds st !! this = None
       ∧ deref (vars st') var = Some x'
       ∧ _onChangeListeners x'
         = _onChangeListeners x ++ [(_delegateID x, DisplayNewValueOf this)]
       ∧ (_delegateID x ∉ ids x)
       ∧ listeners_of this (_onChangeListeners x) = 0
       ∧ cmds st' !! this = Some c ∧ _var c = var ∧ _listenerId c = _delegateID x)
  ∧ (∀ this c x, cmds st !! this = Some c → deref (vars st) (_var c) = Some x →
       listeners_of this (_onChangeListeners x) = 1
       ∧ (_listenerId c, DisplayNewValueOf this) ∈ _onChangeListeners x
       ∧ ∃ st',
           JSMAssignment_delete st this = Some st'
           ∧ (∀ x', deref (vars st') (_var c) = Some x' →
                _onChangeListeners x'
                = filter (λ l, l.1 ≠ _listenerId c) (_onChangeListeners x)
                ∧ ∀ l, l ∈ _onChangeListeners x'
                       ↔ l ∈ _onChangeListeners x
                         ∧ l ≠ (_listenerId c, DisplayNewValueOf this))
           ∧ ∀ acts st'', exec_all st' acts = Some st'' →
               cmds st'' !! this = None
               ∧ ∀ r z v out, deref (vars st'') r = Some z →
                   listeners_of this (_onChangeListeners z) = 0
                   ∧ (notify (cmds st'') (_onChangeListeners z) v = Some out →
                      lines_by (ByDisplayNewValue this) out = 0)).
Proof.
  intros Hreach. pose proof (reachable_Inv _ Hreach) as Hinv. split.
  - intros name displayName var x Hx.
    pose proof (deref_is_Some _ _ _ Hx) as Hsome.
    pose proof (Inv_next_cmd_free _ Hinv) as Hfree.
    unfold JSMAssignment_new. rewrite Hx. simpl.
    eexists _, (next_cmd st), _, _. split; [done|]. simpl. split_and!.
    + done.
    + by apply deref_store_eq.
    + done.
    + rewrite deref_lookup in Hx.
      destruct (listeners_ids _ _ (inv_listeners _ Hinv) _ _ Hx) as [_ Hlt].
      intros Hin. rewrite Forall_forall in Hlt. specialize (Hlt _ Hin). lia.
    + eapply Inv_listeners_of_other; [done|done|]. intros c. by rewrite Hfree.
    + by rewrite lookup_insert_eq.
    + done.
    + done.
  - intros this c x Hc Hx.
    destruct (Inv_listeners_of_alive st this c x Hinv Hc Hx) as [Hone Hin].
    split; [done|]. split; [done|].
    destruct (delete_spec st this c x Hinv Hc Hx) as (st' & Hdel & Hcmds & Hnext & Hvar).
    exists st'. split; [done|]. split.
    { intros x' ->%Hvar. split; [done|]. simpl. intros l.
      rewrite list_elem_of_filter. split.
      - intros [Hne Hl]. split; [done|]. intros ->. by apply Hne.
      - intros [Hl Hne]. split; [|done]. intros Hid. apply Hne.
        destruct l as [i d]. simpl in Hid. subst i.
        f_equal. eapply NoDup_fst_functional; [|exact Hl|exact Hin].
        rewrite deref_lookup in Hx.
        by destruct (listeners_ids _ _ (inv_listeners _ Hinv) _ _ Hx). }
    assert (reachable st') as Hreach'.
    { apply (reachable_exec_all st [Delete this]); [done|]. simpl. by rewrite Hdel. }
    assert (gone st' this) as Hgone.
    { split; [|by rewrite Hcmds, lookup_delete_eq].
      rewrite Hnext. apply (inv_cmds_below _ Hinv). by eexists. }
    intros acts st'' Hacts.
    destruct (gone_exec_all acts _ _ this Hacts Hgone) as [_ Hnone].
    pose proof (reachable_Inv _ (reachable_exec_all _ _ _ Hreach' Hacts)) as Hinv''.
    split; [done|]. intros r z v out Hz.
    assert (listeners_of this (_onChangeListeners z) = 0) as Hzero.
    { eapply Inv_listeners_of_other; [done|done|]. intros c'. by rewrite Hnone. }
    split; [done|]. intros Hout. by rewrite (notify_lines_by _ _ _ this out Hout).
Qed.

End Properties.


(** ** Lines: what the parse function gets, and what a line changes *)

Section LineProperties.
Context {T : Type} `{!EqDecision T, !Streamable T, !DisplayNewValueFor T}.
Context `{!ChordRemovalPolicy T, !ButtonCatalogue, !CommandBase}.
Implicit Types (st : State T) (x y : JSMVariable T) (o : VarObj T).
Import Capture CaptureFacts.

(** X1: for a line other than HELP, [ParseData] hands to the parse function
    the line without its leading whitespace, one '=' and the whitespace after
    it, when all that is left is of the class of the group, and returns false
    without calling the parse function otherwise; the backtracking of the
    matcher never yields another capture. *)
Theorem ParseData_capture_of st this c arguments :
  cmds st !! this = Some c → arguments ≠ "HELP" →
  ParseData st this arguments
  = match capture_of arguments with
    | Some data =>
        match call_parse st (_parse c) this data with
        | Some (st1, true) => Some (st1, true)
        | Some (st1, false) => Some (print st1 [(ByParseData this, _help c)], true)
        | None => None
        end
    | None => Some (st, false)
    end.
Proof.
  intros Hc Hhelp. unfold ParseData. rewrite Hc. simpl.
  rewrite decide_False by done. by rewrite regex_match_capture_of_eq.
Qed.

(** X2: the text the pattern captures never begins with whitespace, and
    whitespace at the end of a line with a capture that is not empty stays in
    the capture: the parse function sees it. *)
Theorem capture_whitespace arguments data :
  Regex.regex_match assignment_regex arguments = Some data →
  (∀ c rest, data = String c rest → CType.isspace c = false)
  ∧ (∀ ws, data ≠ "" → forallb CType.isspace (list_ascii_of_string ws) = true →
       Regex.regex_match assignment_regex (arguments +:+ ws) = Some (data +:+ ws)).
Proof.
  rewrite regex_match_capture_of_eq. unfold capture_of. simpl.
  set (l := list_ascii_of_string arguments).
  destruct (forallb capture_class _) eqn:Hall; [|done]. intros [= <-]. split.
  - intros c rest Hdata.
    apply (f_equal list_ascii_of_string) in Hdata.
    rewrite list_ascii_of_string_of_list_ascii in Hdata. simpl in Hdata.
    by eapply skip_head.
  - intros ws Hdata Hws.
    assert (skip CType.isspace (skip_equals (skip CType.isspace l)) ≠ []) as Hne.
    { intros Hnil. by rewrite Hnil in Hdata. }
    pose proof (skip_nonempty _ _ Hne) as Hne2.
    pose proof (skip_equals_nonempty _ Hne2) as Hne3.
    rewrite regex_match_capture_of_eq. unfold capture_of. simpl.
    rewrite list_ascii_of_string_app. fold l.
    rewrite (skip_app_keep _ l) by done.
    rewrite skip_equals_app_keep by done.
    rewrite skip_app_keep by done.
    rewrite forallb_app, Hall. simpl.
    rewrite string_of_list_ascii_app, string_of_list_ascii_of_string.
    assert (forallb capture_class (list_ascii_of_string ws) = true) as ->; [|done].
    apply forallb_Forall_class. apply Forall_forall. intros c Hc.
    apply space_class. rewrite forallb_forall in Hws. apply Hws.
    by apply list_elem_of_In.
Qed.

(** X3: a line with a character that is neither '=' nor of the class of the
    group (a sign, a decimal point, a comma), or with a '=' behind a character
    that is no whitespace, does not match: [ParseData] returns false, prints
    nothing and changes nothing. *)
Theorem ParseData_rejects st this c arguments :
  cmds st !! this = Some c →
  (∃ ch, ch ∈ list_ascii_of_string arguments
         ∧ capture_class ch = false ∧ ch ≠ "="%char)
  ∨ (∃ pre post, list_ascii_of_string arguments = pre ++ "="%char :: post
                 ∧ forallb CType.isspace pre = false) →
  Regex.regex_match assignment_regex arguments = None
  ∧ ParseData st this arguments = Some (st, false).
Proof.
  intros Hc Hbad.
  assert (capture_of arguments = None) as Hnone.
  { destruct Hbad as [(ch & Hin & Hcls & Hne)|(pre & post & Hl & Hpre)].
    - apply (capture_of_foreign _ ch); [|done].
      apply skip_equals_elem; [|done]. apply skip_elem; [done|].
      destruct (CType.isspace ch) eqn:Hs; [|done]. by rewrite space_class in Hcls.
    - apply (capture_of_foreign _ "="); [|done]. rewrite Hl.
      by apply misplaced_equals. }
  assert (arguments ≠ "HELP") as Hhelp.
  { intros ->. by vm_compute in Hnone. }
  split; [by rewrite regex_match_capture_of_eq|].
  unfold ParseData. rewrite Hc. simpl. rewrite decide_False by done.
  by rewrite regex_match_capture_of_eq, Hnone.
Qed.

(** X4: when the value asked for differs from the old value and the value
    stored is the old value again, [ParseData] writes the value-changed line
    with the old value, then the help text, returns true, and the state is
    otherwise as before. *)
Theorem ParseData_collapsed st this c arguments data value x :
  cmds st !! this = Some c → arguments ≠ "HELP" →
  Regex.regex_match assignment_regex arguments = Some data →
  data ≠ "" → stream_in data = Some value →
  (∀ modeshift s, _parse c = ModeshiftParserFn modeshift (Some s) → data ≠ "NONE") →
  deref (vars st) (_var c) = Some x →
  value ≠ _value x → _filter x (_value x) value = _value x →
  ParseData st this arguments
  = Some (print st [DisplayNewValue_line this c (_value x);
                    (ByParseData this, _help c)], true).
Proof.
  intros Hc Hhelp Hm Hdata Hin Hnone Hx Hne Hsame.
  pose proof (deref_is_Some _ _ _ Hx) as Hsome.
  unfold ParseData. rewrite Hc. simpl. rewrite decide_False by done.
  rewrite Hm, (call_parse_default _ _ _ _ Hnone).
  unfold DefaultParser. rewrite Hc. simpl. rewrite decide_False by done.
  rewrite Hin. unfold get, assign. rewrite Hx. simpl. rewrite Hsame.
  rewrite decide_True by done. simpl.
  rewrite set_value_same, (store_same _ _ _ Hx), with_vars_same, Hx. simpl.
  rewrite decide_True by done. unfold DisplayNewValue. rewrite Hc. simpl.
  rewrite bool_decide_eq_false_2 by done.
  rewrite bool_decide_eq_false_2 by (by intros []). simpl.
  by rewrite print_print.
Qed.

(** X5: when the value asked for is the old value, or the value stored
    differs from the old one, [ParseData] returns true with the value stored,
    and what it writes has one value-changed line of this command and no help
    text and no query line. *)
Theorem ParseData_accepted st this c arguments data value x :
  reachable st → cmds st !! this = Some c → arguments ≠ "HELP" →
  Regex.regex_match assignment_regex arguments = Some data →
  data ≠ "" → stream_in data = Some value →
  (∀ modeshift s, _parse c = ModeshiftParserFn modeshift (Some s) → data ≠ "NONE") →
  deref (vars st) (_var c) = Some x →
  value = _value x ∨ _filter x (_value x) value ≠ _value x →
  ∃ st' out,
    ParseData st this arguments = Some (st', true)
    ∧ get st' (_var c) = Some (_filter x (_value x) value)
    ∧ cout st' = cout st ++ out
    ∧ lines_by (ByDisplayNewValue this) out = 1
    ∧ (∀ a, lines_by (ByParseData a) out = 0)
    ∧ (∀ a, lines_by (ByDefaultParser a) out = 0).
Proof.
  intros Hinv%reachable_Inv Hc Hhelp Hm Hdata Hin Hnone Hx Hok.
  destruct (DefaultParser_assigns st this c data value x Hinv Hc Hdata Hin Hx)
    as (st' & out & Hrun & Hvars & _ & Hcout & Hsame & Hdiff).
  assert (bool_decide (value = _value x)
          || bool_decide (_filter x (_value x) value ≠ _value x) = true) as Htrue.
  { apply orb_true_iff. rewrite !bool_decide_eq_true. done. }
  rewrite Htrue in Hrun.
  exists st', out. split_and!.
  - unfold ParseData. rewrite Hc. simpl. rewrite decide_False by done.
    by rewrite Hm, (call_parse_default _ _ _ _ Hnone), Hrun.
  - unfold get. rewrite Hvars, deref_store_eq; [done|by eapply deref_is_Some].
  - done.
  - destruct (decide (_filter x (_value x) value = _value x)) as [Heq|Hne].
    + rewrite (Hsame Heq). unfold lines_by, DisplayNewValue_line.
      rewrite filter_cons. simpl. by rewrite decide_True.
    + rewrite (notify_lines_by _ _ _ _ _ (Hdiff Hne)).
      by eapply Inv_listeners_of_alive.
  - intros a. apply lines_by_none. intros l Hl.
    destruct (decide (_filter x (_value x) value = _value x)) as [Heq|Hne].
    + rewrite (Hsame Heq) in Hl. by apply list_elem_of_singleton in Hl as ->.
    + destruct (notify_origins _ _ _ _ (Hdiff Hne) l Hl) as [[b ->]| ->]; done.
  - intros a. apply lines_by_none. intros l Hl.
    destruct (decide (_filter x (_value x) value = _value x)) as [Heq|Hne].
    + rewrite (Hsame Heq) in Hl. by apply list_elem_of_singleton in Hl as ->.
    + destruct (notify_origins _ _ _ _ (Hdiff Hne) l Hl) as [[b ->]| ->]; done.
Qed.

(** X6: after a line that assigns, a line with an empty capture shows the
    value that the assignment stored: the requested value as the variable
    normalized it. *)
Theorem ParseData_set_then_query st this c arguments data value x query :
  reachable st → cmds st !! this = Some c → arguments ≠ "HELP" →
  Regex.regex_match assignment_regex arguments = Some data →
  data ≠ "" → stream_in data = Some value →
  (∀ modeshift s, _parse c = ModeshiftParserFn modeshift (Some s) → data ≠ "NONE") →
  deref (vars st) (_var c) = Some x →
  Regex.regex_match assignment_regex query = Some ""%string →
  ∃ st1,
    ParseData st this arguments = Some (st1, true)
    ∧ ParseData st1 this query
      = Some (print st1 [(ByDefaultParser this,
                          _displayName c +:+ " = " +:+
                          stream_out (_filter x (_value x) value))], true).
Proof.
  intros Hinv%reachable_Inv Hc Hhelp Hm Hdata Hin Hnone Hx Hq.
  destruct (DefaultParser_assigns st this c data value x Hinv Hc Hdata Hin Hx)
    as (st' & out & Hrun & Hvars & Hcmds & _).
  assert (∀ st1, vars st1 = vars st' → cmds st1 = cmds st' →
            ParseData st1 this query
            = Some (print st1 [(ByDefaultParser this,
                                _displayName c +:+ " = " +:+
                                stream_out (_filter x (_value x) value))], true))
    as Hquery.
  { intros st1 Hv1 Hc1. unfold ParseData. rewrite Hc1, Hcmds, Hc. simpl.
    rewrite decide_False by (intros ->; by vm_compute in Hq).
    rewrite Hq, call_parse_default by done.
    unfold DefaultParser. rewrite Hc1, Hcmds, Hc. simpl.
    unfold get. rewrite Hv1, Hvars, deref_store_eq by by eapply deref_is_Some.
    done. }
  unfold ParseData at 1. rewrite Hc. simpl. rewrite decide_False by done.
  rewrite Hm, (call_parse_default _ _ _ _ Hnone), Hrun.
  destruct (bool_decide _ || bool_decide _); eexists; (split; [done|]).
  - by apply Hquery.
  - by apply Hquery.
Qed.

(** X7: [ParseData] creates and destroys no command and no variable.  The
    variables after the call are those before it but for one change at
    most: the value of the bound variable, whose listeners, ids,
    normalization, children and marks stay; or, when the command has the
    modeshift parser of a setting and the capture is NONE, the chord added
    to the removal marks of that setting. *)
Theorem ParseData_frame st this c arguments st' ok :
  cmds st !! this = Some c →
  ParseData st this arguments = Some (st', ok) →
  cmds st' = cmds st ∧ next_cmd st' = next_cmd st ∧ next_var st' = next_var st
  ∧ (vars st' = vars st
     ∨ (∃ x v, deref (vars st) (_var c) = Some x
               ∧ vars st' = store (vars st) (_var c) (set_value x v))
     ∨ (∃ b s id x m rm,
          _parse c = ModeshiftParserFn b (Some s)
          ∧ Regex.regex_match assignment_regex arguments = Some "NONE"%string
          ∧ vars st !! s = Some (JSMSetting id x m rm)
          ∧ vars st' = <[s := JSMSetting id x m ({[b]} ∪ rm)]> (vars st))).
Proof.
  intros Hc Hrun.
  destruct (ParseData_cmds _ _ _ _ _ Hrun) as [Hcmds Hnext].
  destruct (ParseData_vars _ _ _ _ _ _ Hc Hrun) as [Hn Hvars].
  by split_and!.
Qed.

(** X8: [ParseData] leaves the override map and the removal marks of a
    setting as they are, unless the command has the modeshift parser of that
    setting and the capture is NONE and nothing else. *)
Theorem ParseData_marks st this c arguments st' ok s id x m rm :
  cmds st !! this = Some c →
  ParseData st this arguments = Some (st', ok) →
  vars st !! s = Some (JSMSetting id x m rm) →
  (∀ b, _parse c = ModeshiftParserFn b (Some s) →
        Regex.regex_match assignment_regex arguments ≠ Some "NONE"%string) →
  ∃ x', vars st' !! s = Some (JSMSetting id x' m rm).
Proof.
  intros Hc Hrun Hs Hnone.
  assert (∀ st1, (∃ y, vars st1 !! s = Some (set_base y (JSMSetting id x m rm))) →
                 ∃ x', vars st1 !! s = Some (JSMSetting id x' m rm)) as Hobj.
  { intros st1 [y Hy]. by exists y. }
  assert (∃ x', vars st !! s = Some (JSMSetting id x' m rm)) as Hsame by by exists x.
  revert Hrun. unfold ParseData. rewrite Hc. simpl.
  case_decide; [by intros [= <- _]|].
  destruct (Regex.regex_match _ _) as [data|] eqn:Hm; [|by intros [= <- _]].
  assert (∀ st1 b, call_parse st (_parse c) this data = Some (st1, b) →
                   ∃ x', vars st1 !! s = Some (JSMSetting id x' m rm)) as Hcall.
  { intros st1 b. unfold call_parse, ModeshiftParser.
    destruct (_parse c) as [|modeshift [s2|]] eqn:Hp.
    - intros Hd. apply Hobj. by eapply DefaultParser_objects.
    - case_decide as Hdata; [|intros Hd; apply Hobj; by eapply DefaultParser_objects].
      subst data.
      assert (s2 ≠ s) as Hne by (intros ->; by eapply Hnone).
      unfold MarkModeshiftForRemoval.
      destruct (vars st !! s2) as [[|id2 x2 m2 rm2|]|]; simpl; try done.
      rewrite lookup_insert_eq. intros [= <- _]. simpl.
      by rewrite lookup_insert_ne.
    - intros Hd. apply Hobj. by eapply DefaultParser_objects. }
  destruct (call_parse st (_parse c) this data) as [[st1 [|]]|]; [| |done].
  - intros [= <- _]. by eapply Hcall.
  - intros [= <- _]. by eapply (Hcall st1).
Qed.

End LineProperties.

(** ** Assignment through the command and through its parser *)

Section AssignmentProperties.
Context {T : Type} `{!EqDecision T, !Streamable T, !DisplayNewValueFor T}.
Context `{!ChordRemovalPolicy T, !ButtonCatalogue, !CommandBase}.
Implicit Types (st : State T) (x y : JSMVariable T) (o : VarObj T).

(** X9: [operator=] of the command stores into the bound variable and
    returns the value now stored; when that is the old value nothing is
    written, otherwise the command writes its value-changed line once. *)
Theorem JSMAssignment_assign_spec st this c newVal x :
  reachable st → cmds st !! this = Some c → deref (vars st) (_var c) = Some x →
  let stored := _filter x (_value x) newVal in
  ∃ st' out,
    JSMAssignment_assign st this newVal = Some (st', stored)
    ∧ get st' (_var c) = Some stored
    ∧ cmds st' = cmds st
    ∧ cout st' = cout st ++ out
    ∧ (stored = _value x → out = [])
    ∧ (stored ≠ _value x → lines_by (ByDisplayNewValue this) out = 1).
Proof.
  intros Hinv%reachable_Inv Hc Hx stored.
  pose proof (deref_is_Some _ _ _ Hx) as Hsome.
  unfold JSMAssignment_assign, assign. rewrite Hc. simpl. rewrite Hx. simpl.
  fold stored. destruct (decide (stored = _value x)) as [Heq|Hne].
  - eexists _, []. split; [done|]. unfold get. simpl.
    rewrite deref_store_eq by done. split_and!; try done. by rewrite app_nil_r.
  - destruct (Inv_notify_total st _ x stored Hinv Hx) as [out Hout].
    rewrite Hout. simpl. eexists _, out. split; [done|]. unfold get. simpl.
    rewrite deref_store_eq by done. split_and!; try done.
    intros _. rewrite (notify_lines_by _ _ _ _ _ Hout).
    by eapply Inv_listeners_of_alive.
Qed.

(** X10: on a text that converts to [value], [DefaultParser] leaves the
    variables and commands as [operator=] with [value] leaves them, and
    writes what [operator=] writes, followed by the value-changed line of its
    own call exactly when the stored value is the old value. *)
Theorem DefaultParser_as_assignment st cmd inst data value x :
  reachable st → cmds st !! cmd = Some inst →
  data ≠ "" → stream_in data = Some value →
  deref (vars st) (_var inst) = Some x →
  ∃ st1 ok st2 w,
    DefaultParser st cmd data = Some (st1, ok)
    ∧ JSMAssignment_assign st cmd value = Some (st2, w)
    ∧ vars st1 = vars st2 ∧ cmds st1 = cmds st2
    ∧ get st1 (_var inst) = Some w
    ∧ cout st1
      = cout st2 ++ (if decide (w = _value x)
                     then [DisplayNewValue_line cmd inst w] else []).
Proof.
  intros Hinv%reachable_Inv Hc Hdata Hin Hx.
  pose proof (deref_is_Some _ _ _ Hx) as Hsome.
  destruct (DefaultParser_assigns st cmd inst data value x Hinv Hc Hdata Hin Hx)
    as (st1 & out & Hrun & Hvars & Hcmds & Hcout & Hsame & Hdiff).
  unfold JSMAssignment_assign, assign. rewrite Hc. simpl. rewrite Hx. simpl.
  destruct (decide (_filter x (_value x) value = _value x)) as [Heq|Hne].
  - eexists st1, _, _, _. split; [exact Hrun|]. split; [done|]. simpl.
    split_and!; try done.
    + unfold get. by rewrite Hvars, deref_store_eq.
    + rewrite decide_True by done. by rewrite Hcout, (Hsame Heq).
  - rewrite (Hdiff Hne). simpl.
    eexists st1, _, _, _. split; [exact Hrun|]. split; [done|]. simpl.
    split_and!; try done.
    + unfold get. by rewrite Hvars, deref_store_eq.
    + rewrite decide_False by done. by rewrite app_nil_r.
Qed.

End AssignmentProperties.

(** ** Commands over button bindings *)

Section EventMappings.
Context `{!EqDecision EventMapping, !Streamable EventMapping}.
Context `{!ChordRemovalPolicy EventMapping, !ButtonCatalogue, !CommandBase}.
#[local] Existing Instance DisplayNewValue_EventMapping.

(** X11: a command over [EventMapping] shows an assignment through the
    specialization of [DisplayNewValue]: one line, under the name of the
    command and not its display name, which says mapped to no input for an
    empty mapping and shows the representation otherwise. *)
Theorem DefaultParser_mapped_to st cmd inst data value x :
  reachable st → cmds st !! cmd = Some inst →
  data ≠ "" → stream_in data = Some value →
  deref (vars st) (_var inst) = Some x →
  let now := _filter x (_value x) value in
  ∃ st' ok out,
    DefaultParser st cmd data = Some (st', ok)
    ∧ cout st' = cout st ++ out
    ∧ lines_by (ByDisplayNewValue cmd) out = 1
    ∧ (ByDisplayNewValue cmd,
       _name inst +:+ (if decide (eventMapping now = [])
                       then " mapped to no input"
                       else " mapped to " +:+ representation now)) ∈ out.
Proof.
  intros Hinv%reachable_Inv Hc Hdata Hin Hx now.
  destruct (DefaultParser_assigns st cmd inst data value x Hinv Hc Hdata Hin Hx)
    as (st' & out & Hrun & _ & _ & Hcout & Hsame & Hdiff).
  fold now in Hrun, Hsame, Hdiff.
  assert (DisplayNewValue_line cmd inst now
          = (ByDisplayNewValue cmd,
             _name inst +:+ (if decide (eventMapping now = [])
                             then " mapped to no input"
                             else " mapped to " +:+ representation now))) as Hline.
  { unfold DisplayNewValue_line, display_text, DisplayNewValue_EventMapping.
    by destruct (eventMapping now). }
  eexists st', _, out. split; [exact Hrun|]. split; [done|].
  destruct (Inv_listeners_of_alive st cmd inst x Hinv Hc Hx) as [Hone Hmine].
  destruct (decide (now = _value x)) as [Heq|Hne].
  - rewrite (Hsame Heq), <-Hline. split; [|by apply list_elem_of_singleton].
    unfold lines_by, DisplayNewValue_line. rewrite filter_cons. simpl.
    by rewrite decide_True.
  - rewrite <-Hline. split.
    + by rewrite (notify_lines_by _ _ _ _ _ (Hdiff Hne)).
    + eapply notify_elem; [exact (Hdiff Hne)|exact Hmine|exact Hc].
Qed.

End EventMappings.

(** ** Chord composition and the life of a command *)

Section CompositionProperties.
Context {T : Type} `{!EqDecision T, !Streamable T, !DisplayNewValueFor T}.
Context `{!ChordRemovalPolicy T, !ButtonCatalogue, !CommandBase}.
Implicit Types (st : State T) (x y : JSMVariable T) (o : VarObj T).

(** X12: on a reachable state, for a command whose variable is alive,
    [GetModifiedCmd] returns; it yields a command exactly when the chord
    resolves to a button above NONE and the operator is ',' over a setting or
    a button, or '+' over a button with a button that is not negative;
    otherwise the state is as before. *)
Theorem GetModifiedCmd_yields_iff st this c op chord :
  reachable st → cmds st !! this = Some c →
  is_Some (deref (vars st) (_var c)) →
  ∃ st' r,
    GetModifiedCmd st this op chord = Some (st', r)
    ∧ (is_Some r ↔ composes st c op chord)
    ∧ (r = None → st' = st).
Proof.
  intros Hinv%reachable_Inv Hc [x Hx]. pose proof (deref_is_Some _ _ _ Hx) as Hlive.
  destruct (composes_dec st c op chord) as [Hyes|Hno].
  - destruct (GetModifiedCmd_composes st this c op chord Hinv Hc Hyes)
      as (st' & cmd & p & y & Hrun & _).
    exists st', (Some (next_cmd st)). split; [done|]. split; [|done].
    split; [done|by eexists].
  - exists st, None. split; [by eapply GetModifiedCmd_base|]. split; [|done].
    split; [by intros []|done].
Qed.

(** X13: the command [GetModifiedCmd] yields is a new one that carries the
    help text of the command it was derived from; over a setting it has the
    modeshift parser and the modeshift removal as its teardown task, over a
    button it has the parser of the command it was derived from and the
    removal of its own child as its teardown task. *)
Theorem GetModifiedCmd_configures st this c op chord st' d :
  reachable st → cmds st !! this = Some c →
  GetModifiedCmd st this op chord = Some (st', Some d) →
  ∃ cmd,
    cmds st' !! d = Some cmd ∧ cmds st !! d = None
    ∧ _help cmd = _help c
    ∧ (is_setting (skeleton <$> vars st) (_var c) →
         ∃ btn, enum_cast chord = Some btn
           ∧ _parse cmd = ModeshiftParserFn btn (Some (_var c))
           ∧ _taskOnDestruction cmd = Some (ProcessModeshiftRemovalTask (_var c) btn))
    ∧ (is_button (skeleton <$> vars st) (_var c) →
         _parse cmd = _parse c
         ∧ ∃ btn, enum_cast chord = Some btn
             ∧ _taskOnDestruction cmd
               = Some (if decide (op = ","%char)
                       then ProcessChordRemovalTask (_var c) btn (_var cmd)
                       else ProcessSimPressRemovalTask (_var c) btn (_var cmd))).
Proof.
  intros Hinv%reachable_Inv Hc Hrun.
  pose proof (GetModifiedCmd_Some_composes _ _ _ _ _ _ _ Hc Hrun) as Hyes.
  destruct (GetModifiedCmd_composes st this c op chord Hinv Hc Hyes)
    as (st2 & cmd & p & y & Hrun' & Hfree & Hd & _ & _ & Hhelp & Hp & _ & _ & _ & _
        & Hs & Hb).
  rewrite Hrun in Hrun'. injection Hrun' as <- ->. subst p.
  exists cmd. by split_and!.
Qed.

(** X14: [GetModifiedCmd] writes nothing, changes the value of no variable
    that exists, and leaves every command that exists as it is. *)
Theorem GetModifiedCmd_silent st this op chord st' r :
  reachable st → GetModifiedCmd st this op chord = Some (st', r) →
  cout st' = cout st
  ∧ (∀ a v, get st a = Some v → get st' a = Some v)
  ∧ (∀ a c', cmds st !! a = Some c' → cmds st' !! a = Some c').
Proof.
  intros Hinv%reachable_Inv Hrun.
  destruct (GetModifiedCmd_values _ _ _ _ _ _ Hinv Hrun) as [Hcout Hget].
  destruct (GetModifiedCmd_cmds _ _ _ _ _ _ Hrun) as [_ Hcmds].
  split_and!; [done|done|].
  intros a c' Ha. rewrite Hcmds; [done|]. apply (inv_cmds_below _ Hinv). by eexists.
Qed.

(** X15: a command that [GetModifiedCmd] yielded is over a plain variable,
    so [GetModifiedCmd] on it yields no command, for every operator and
    chord, and leaves the state as it is. *)
Theorem GetModifiedCmd_not_nested st this op chord st1 d :
  reachable st → GetModifiedCmd st this op chord = Some (st1, Some d) →
  ∀ op' chord', GetModifiedCmd st1 d op' chord' = Some (st1, None).
Proof.
  intros Hinv%reachable_Inv Hrun op' chord'.
  destruct (cmds st !! this) as [c|] eqn:Hc;
    [|unfold GetModifiedCmd in Hrun; by rewrite Hc in Hrun].
  pose proof (GetModifiedCmd_Some_composes _ _ _ _ _ _ _ Hc Hrun) as Hyes.
  destruct (GetModifiedCmd_composes st this c op chord Hinv Hc Hyes)
    as (st' & cmd & p & y & Hrun' & _ & Hd & _ & _ & _ & Hp & Hplain & _).
  rewrite Hrun in Hrun'. injection Hrun' as <- ->.
  apply (GetModifiedCmd_base _ _ cmd); [done|rewrite Hp; by eexists|].
  intros (btn & _ & _ & [[_ [(? & ? & Hs)|(? & ? & Hs)]]|(_ & (? & ? & Hs) & _)]);
    rewrite lookup_fmap, Hp, Hplain in Hs; done.
Qed.

(** X16: composing a second time with the same operator and chord yields
    another command, of the same name and over the same child variable as
    the first. *)
Theorem GetModifiedCmd_twice st this op chord st1 d1 :
  reachable st → GetModifiedCmd st this op chord = Some (st1, Some d1) →
  ∃ st2 d2 c1 c2,
    GetModifiedCmd st1 this op chord = Some (st2, Some d2)
    ∧ d1 ≠ d2
    ∧ cmds st2 !! d1 = Some c1 ∧ cmds st2 !! d2 = Some c2
    ∧ _var c1 = _var c2 ∧ _name c1 = _name c2.
Proof.
  intros Hinv%reachable_Inv Hrun.
  destruct (cmds st !! this) as [c|] eqn:Hc;
    [|unfold GetModifiedCmd in Hrun; by rewrite Hc in Hrun].
  pose proof (GetModifiedCmd_Some_composes _ _ _ _ _ _ _ Hc Hrun) as Hyes.
  pose proof (Inv_GetModifiedCmd _ _ _ _ _ _ Hrun Hinv) as Hinv1.
  destruct (GetModifiedCmd_composes st this c op chord Hinv Hc Hyes)
    as (st' & c1 & p1 & y1 & Hrun' & Hfree1 & Hd1 & Hname1 & _ & _ & Hp1 & _ & _ & _
        & (o' & btn & Hbtn & Ho' & Hchild) & _).
  rewrite Hrun in Hrun'. injection Hrun' as <- ->.
  assert (cmds st1 !! this = Some c) as Hc1.
  { destruct (GetModifiedCmd_cmds _ _ _ _ _ _ Hrun) as [_ Hsame].
    rewrite Hsame; [done|]. apply (inv_cmds_below _ Hinv). by eexists. }
  assert (composes st1 c op chord) as Hyes1.
  { destruct Hyes as (btn' & Hbtn' & Hlt & Hcase).
    rewrite Hbtn in Hbtn'. injection Hbtn' as <-.
    exists btn. split_and!; [done|done|].
    destruct Hcase as [[-> _]|(-> & _ & Hnn)]; simpl in Hchild.
    - left. split; [done|]. unfold is_setting, is_button.
      rewrite lookup_fmap, Ho'. simpl.
      destruct (skeleton o'); [done|left; eauto|right; eauto].
    - right. split_and!; [done| |done]. unfold is_button.
      rewrite lookup_fmap, Ho'. simpl.
      destruct (skeleton o'); [done|done|eauto]. }
  destruct (GetModifiedCmd_composes st1 this c op chord Hinv1 Hc1 Hyes1)
    as (st2 & c2 & p2 & y2 & Hrun2 & Hfree2 & Hd2 & Hname2 & _ & _ & Hp2 & _ & _
        & Hfetch & _).
  exists st2, (next_cmd st1), c1, c2. split; [done|].
  assert (cmds st1 !! next_cmd st = Some c1) as Hd1' by done.
  split_and!.
  - intros Heq. rewrite Heq in Hd1'. congruence.
  - destruct (GetModifiedCmd_cmds _ _ _ _ _ _ Hrun2) as [_ Hsame].
    rewrite Hsame; [done|]. apply (inv_cmds_below _ Hinv1). by eexists.
  - done.
  - rewrite Hp1, Hp2. symmetry. by eapply Hfetch.
  - by rewrite Hname1, Hname2.
Qed.

(** X17: constructing a command over a variable and destroying it leaves
    the variable with the value and the listeners it had, and the commands
    and the output as they were; only the next listener id and the next
    address have moved on. *)
Theorem new_then_delete st name displayName var x :
  reachable st → deref (vars st) var = Some x →
  ∃ st1 this st2,
    JSMAssignment_new st name displayName var = Some (st1, this)
    ∧ JSMAssignment_delete st1 this = Some st2
    ∧ vars st2
      = store (vars st) var
          (set_listeners x (_onChangeListeners x) (S (_delegateID x)))
    ∧ cmds st2 = cmds st ∧ cout st2 = cout st
    ∧ next_var st2 = next_var st ∧ next_cmd st2 = S (next_cmd st).
Proof.
  intros Hinv%reachable_Inv Hx.
  pose proof (deref_is_Some _ _ _ Hx) as Hsome.
  unfold JSMAssignment_new. rewrite Hx. simpl. eexists _, _, _. split; [done|].
  unfold JSMAssignment_delete. simpl. rewrite lookup_insert_eq. simpl.
  rewrite deref_store_eq by done. simpl. split; [done|]. simpl.
  split_and!; try done.
  - rewrite store_store. unfold RemoveOnChangeListener. simpl.
    rewrite filter_fresh_id; [done|].
    destruct (listeners_ids _ _ (inv_listeners _ Hinv) var x) as [_ Hlt]; [|done].
    by rewrite <-deref_lookup.
  - rewrite delete_insert_eq. apply delete_id. by apply Inv_next_cmd_free.
Qed.

End CompositionProperties.

(** ** The theorems at the setting and the button of [Demo] *)

Module Witnesses.
Import Demo.

(** What a call shows: the lines on the terminal, the value of SENS, and the
    result. *)
Definition shown (r : option (State Z * bool)) : option (list string * option Z * bool) :=
  (λ p, (text_of (cout p.1), get p.1 0, p.2)) <$> r.

Example regex_capture :
  Regex.regex_match assignment_regex " = 2 0 " = Some "2 0 "%string.
Proof. reflexivity. Qed.

Example regex_only_equals : Regex.regex_match assignment_regex "  =  " = Some ""%string.
Proof. reflexivity. Qed.

Example regex_HELP : Regex.regex_match assignment_regex "HELP" = Some "HELP"%string.
Proof. reflexivity. Qed.

(** The class of the capture has no '.'. *)
Example regex_decimal_point : Regex.regex_match assignment_regex "= 2.0" = None.
Proof. reflexivity. Qed.

Example SENS_set :
  shown (ParseData sens_state 0 " = 5")
  = Some (["SENS has been set to 5"%string], Some 5%Z, true).
Proof. reflexivity. Qed.

Example SENS_rejected :
  shown (ParseData sens_state 0 " = abc")
  = Some (["Enter HELP for the use of this command"%string], Some 1%Z, true).
Proof. reflexivity. Qed.

(** Only HELP, as it is, takes the first branch. *)
Example SENS_lower_case_help :
  shown (ParseData sens_state 0 "help")
  = Some (["Enter HELP for the use of this command"%string], Some 1%Z, true).
Proof. reflexivity. Qed.

(** At 10, asking for 15: the value stays, the line is written by the parser
    itself, the parser reports failure and [ParseData] shows the help. *)
Example SENS_clamped :
  ParseData sens_at_10 0 "= 15"
  = Some (print sens_at_10
            [(ByDisplayNewValue 0, "SENS has been set to 10"%string);
             (ByParseData 0, "Enter HELP for the use of this command"%string)],
          true).
Proof. reflexivity. Qed.

(** A modeshift of SENS at B, set to 4, removed, and torn down. *)
Example SENS_modeshift :
  (λ st, (text_of (cout st), get st 0, get st 1, dom (cmds st)))
    <$> exec_all sens_state
          [Modify 0 "," "B"; Process 1 "= 4"; Process 1 "NONE"; Delete 1]
  = Some (["B,SENS has been set to 4"%string;
           "Modeshift B,SENS has been removed."%string],
          Some 1%Z, None, {[0]}).
Proof. reflexivity. Qed.

(** A simultaneous press of A with B. *)
Example A_sim_press :
  (λ st, text_of (cout st))
    <$> exec_all button_state [Modify 0 "+" "B"; Process 1 "= X"; Process 1 "NONE"]
  = Some ["B+A mapped to X"%string; "B+A mapped to no input"%string].
Proof. reflexivity. Qed.

(** SENS is at 10 and 15 is asked for: the clamp stores 10 again and the
    parser reports failure. *)
Lemma DefaultParser_success_iff_witness :
  ∃ st' ok,
    DefaultParser sens_at_10 0 "15" = Some (st', ok)
    ∧ vars st'
      = store (vars sens_at_10) (_var sens_cmd)
          (set_value (set_value sens_var 10%Z) (clamp 10 15))
    ∧ cmds st' = cmds sens_at_10
    ∧ get st' (_var sens_cmd) = Some (clamp 10 15)
    ∧ (clamp 10 15 = 15%Z → get st' (_var sens_cmd) = Some 15%Z)
    ∧ (ok = true ↔ 15%Z = 10%Z ∨ clamp 10 15 ≠ 10%Z)
    ∧ (15%Z ≠ 10%Z → clamp 10 15 = 10%Z → ok = false).
Proof.
  apply (DefaultParser_success_iff sens_at_10 0 sens_cmd "15" 15%Z
           (set_value sens_var 10%Z)).
  - exists (sens_run ++ [Assign 0 10%Z]). reflexivity.
  - reflexivity.
  - discriminate.
  - reflexivity.
  - reflexivity.
Defined.

Lemma DefaultParser_displays_once_witness :
  ∃ st' ok out,
    DefaultParser sens_state 0 "5" = Some (st', ok)
    ∧ get st' (_var sens_cmd) = Some (clamp 1 5)
    ∧ cout st' = cout sens_state ++ out
    ∧ lines_by (ByDisplayNewValue 0) out = 1
    ∧ (clamp 1 5 ≠ 1%Z →
       notify (cmds sens_state) (_onChangeListeners sens_var) (clamp 1 5) = Some out)
    ∧ (clamp 1 5 = 1%Z → out = [DisplayNewValue_line 0 sens_cmd (clamp 1 5)])
    ∧ value_changed_lines out
      = (if decide (clamp 1 5 = 1%Z) then 1
         else command_listeners (_onChangeListeners sens_var))
    ∧ 1 ≤ command_listeners (_onChangeListeners sens_var)
    ∧ (_onChangeListeners sens_var = [(_listenerId sens_cmd, DisplayNewValueOf 0)] →
       out = [DisplayNewValue_line 0 sens_cmd (clamp 1 5)]).
Proof.
  apply (DefaultParser_displays_once sens_state 0 sens_cmd "5" 5%Z sens_var).
  - exists sens_run. reflexivity.
  - reflexivity.
  - discriminate.
  - reflexivity.
  - reflexivity.
Defined.

(** Two commands over SENS, as the two commands over one gyro sensitivity: a
    line for the first changes the value and both write their line. *)
Lemma DefaultParser_displays_twice :
  reachable sens_two
  ∧ cmds sens_two !! 0 = Some sens_cmd
  ∧ stream_in (T:=Z) "5" = Some 5%Z
  ∧ get sens_two (_var sens_cmd) = Some 1%Z
  ∧ ∃ st',
      DefaultParser sens_two 0 "5" = Some (st', true)
      ∧ get st' (_var sens_cmd) = Some 5%Z
      ∧ cout st'
        = cout sens_two ++ [(ByDisplayNewValue 0, "SENS has been set to 5"%string);
                            (ByDisplayNewValue 1, "MAX_SENS has been set to 5"%string)]
      ∧ value_changed_lines
          [(ByDisplayNewValue 0, "SENS has been set to 5"%string);
           (ByDisplayNewValue 1, "MAX_SENS has been set to 5"%string)] = 2.
Proof.
  split_and!; try reflexivity.
  - exists (sens_run ++ [New "MAX_SENS" "MAX_SENS" 0]). reflexivity.
  - eexists. split_and!; reflexivity.
Qed.

Lemma ParseData_value_rejected_witness :
  ParseData sens_state 0 " = abc"
  = Some (print sens_state [(ByParseData 0, _help sens_cmd)], true)
  ∧ get (print sens_state [(ByParseData 0, _help sens_cmd)]) (_var sens_cmd)
    = get sens_state (_var sens_cmd).
Proof.
  apply (ParseData_value_rejected sens_state 0 sens_cmd " = abc" "abc").
  - reflexivity.
  - discriminate.
  - reflexivity.
  - discriminate.
  - reflexivity.
  - discriminate.
Defined.

Lemma ParseData_HELP_witness :
  ParseData sens_state 0 "HELP"
  = Some (print sens_state [(ByParseData 0, _help sens_cmd)], false)
  ∧ vars (print sens_state [(ByParseData 0, _help sens_cmd)]) = vars sens_state.
Proof. apply (ParseData_HELP sens_state 0 sens_cmd). reflexivity. Defined.

Lemma ParseData_true_iff_shape_witness :
  ∃ st' ok,
    ParseData sens_state 0 "= 2.0" = Some (st', ok)
    ∧ (ok = true ↔ Grammar.shape "= 2.0")
    ∧ (¬ Grammar.shape "= 2.0" → st' = sens_state).
Proof.
  apply (ParseData_true_iff_shape sens_state 0 sens_cmd "= 2.0").
  - exists sens_run. reflexivity.
  - reflexivity.
  - by eexists.
  - discriminate.
Defined.

Lemma ParseData_query_witness :
  ParseData sens_state 0 " = "
  = Some (print sens_state [(ByDefaultParser 0, "SENS = 1"%string)], true)
  ∧ vars (print sens_state [(ByDefaultParser 0, "SENS = 1"%string)]) = vars sens_state
  ∧ cmds (print sens_state [(ByDefaultParser 0, "SENS = 1"%string)]) = cmds sens_state.
Proof.
  exact (ParseData_query sens_state 0 sens_cmd " = " 1%Z eq_refl eq_refl eq_refl).
Defined.

Lemma GetModifiedCmd_unresolved_witness :
  GetModifiedCmd sens_state 0 "," "NONE" = JSMCommand_GetModifiedCmd sens_state "," "NONE"
  ∧ GetModifiedCmd sens_state 0 "," "NONE" = Some (sens_state, None).
Proof.
  apply (GetModifiedCmd_unresolved sens_state 0 sens_cmd "," "NONE").
  - reflexivity.
  - right. exists (-1)%Z. split; [reflexivity|]. simpl. lia.
Defined.

(** The button A and the chord B: "B+A" is over the child of the
    simultaneous-press map, which the chorded map does not hold. *)
Lemma GetModifiedCmd_cases_witness :
  ∃ st' d p,
    GetModifiedCmd button_state 0 "+" "B" = Some (st', Some d)
    ∧ cmds button_state !! d = None
    ∧ derived_command st' d "B+A" p
    ∧ vars st' !! 0 = Some (JSMButton button_var ∅ (<[2%Z := p]> ∅))
    ∧ (∀ q, (∅ : gmap Z nat) !! 2%Z = Some q → p = q)
    ∧ (∅ : gmap Z nat) !! 2%Z ≠ Some p.
Proof.
  destruct (GetModifiedCmd_cases button_state 0 button_cmd "B" 2%Z) as [_ Hbutton].
  - exists button_run. reflexivity.
  - reflexivity.
  - reflexivity.
  - reflexivity.
  - destruct (Hbutton button_var ∅ ∅ eq_refl) as [_ Hplus].
    apply Hplus. simpl. lia.
Defined.

(** The modeshift command of SENS for B, after the line = 4 for it. *)
Lemma modeshift_command_removal_witness :
  ∃ id x m rm,
    vars sens_B_4 !! 0 = Some (JSMSetting id x m rm)
    ∧ m !! 2%Z = Some (_var sens_B_cmd)
    ∧ _taskOnDestruction sens_B_cmd = Some (ProcessModeshiftRemovalTask 0 2)
    ∧ (∀ argument, argument ≠ "NONE" →
         call_parse sens_B_4 (_parse sens_B_cmd) 1 argument
         = DefaultParser sens_B_4 1 argument)
    ∧ (∃ st2,
         call_parse sens_B_4 (_parse sens_B_cmd) 1 "NONE" = Some (st2, true)
         ∧ (∀ arguments,
              Regex.regex_match assignment_regex arguments = Some "NONE"%string →
              ParseData sens_B_4 1 arguments = Some (st2, true))
         ∧ st2
           = print
               (with_vars sens_B_4
                  (<[0 := JSMSetting id x m ({[2%Z]} ∪ rm)]> (vars sens_B_4)))
               [(ByModeshiftParser,
                 "Modeshift " +:+ ButtonID_text 2%Z +:+ "," +:+
                 SettingID_text id +:+ " has been removed.")]
         ∧ get st2 (_var sens_B_cmd) = get sens_B_4 (_var sens_B_cmd)
         ∧ is_Some (get st2 (_var sens_B_cmd))
         ∧ ∃ st3 m3 rm3,
             JSMAssignment_delete st2 1 = Some st3
             ∧ vars st3 !! 0 = Some (JSMSetting id x m3 rm3)
             ∧ m3 !! 2%Z = None
             ∧ deref (vars st3) (_var sens_B_cmd) = None ∧ cmds st3 !! 1 = None)
    ∧ (∃ st3 m3 rm3,
         JSMAssignment_delete sens_B_4 1 = Some st3
         ∧ vars st3 !! 0 = Some (JSMSetting id x m3 rm3)
         ∧ cmds st3 !! 1 = None
         ∧ (2%Z ∈ rm → m3 !! 2%Z = None ∧ deref (vars st3) (_var sens_B_cmd) = None)
         ∧ (2%Z ∉ rm → m3 !! 2%Z = Some (_var sens_B_cmd)
                        ∧ is_Some (deref (vars st3) (_var sens_B_cmd)))).
Proof.
  destruct (modeshift_command_removal sens_B_4) as [_ Hevery].
  - exists (sens_run ++ [Modify 0 "," "B"; Process 1 "= 4"]). reflexivity.
  - apply (Hevery 1 sens_B_cmd 2%Z 0); [reflexivity|reflexivity|by eexists].
Defined.

(** The command of SENS: one listener while it is alive, none afterwards. *)
Lemma listener_lifecycle_witness :
  listeners_of 0 (_onChangeListeners sens_var) = 1
  ∧ (_listenerId sens_cmd, DisplayNewValueOf 0) ∈ _onChangeListeners sens_var
  ∧ ∃ st',
      JSMAssignment_delete sens_state 0 = Some st'
      ∧ (∀ x', deref (vars st') (_var sens_cmd) = Some x' →
           _onChangeListeners x'
           = filter (λ l, l.1 ≠ _listenerId sens_cmd) (_onChangeListeners sens_var)
           ∧ ∀ l, l ∈ _onChangeListeners x'
                  ↔ l ∈ _onChangeListeners sens_var
                    ∧ l ≠ (_listenerId sens_cmd, DisplayNewValueOf 0))
      ∧ ∀ acts st'', exec_all st' acts = Some st'' →
          cmds st'' !! 0 = None
          ∧ ∀ r z v out, deref (vars st'') r = Some z →
              listeners_of 0 (_onChangeListeners z) = 0
              ∧ (notify (cmds st'') (_onChangeListeners z) v = Some out →
                 lines_by (ByDisplayNewValue 0) out = 0).
Proof.
  destruct (listener_lifecycle sens_state) as [_ Halive].
  - exists sens_run. reflexivity.
  - apply (Halive 0 sens_cmd sens_var); reflexivity.
Defined.

(** The line = 5 for SENS. *)
Lemma ParseData_capture_of_witness :
  ParseData sens_state 0 " = 5"
  = match Capture.capture_of " = 5" with
    | Some data =>
        match call_parse sens_state (_parse sens_cmd) 0 data with
        | Some (st1, true) => Some (st1, true)
        | Some (st1, false) => Some (print st1 [(ByParseData 0, _help sens_cmd)], true)
        | None => None
        end
    | None => Some (sens_state, false)
    end.
Proof.
  apply (ParseData_capture_of sens_state 0 sens_cmd " = 5"); [reflexivity|discriminate].
Defined.

Lemma capture_whitespace_witness :
  (∀ c rest, "NONE"%string = String c rest → CType.isspace c = false)
  ∧ (∀ ws, "NONE"%string ≠ ""%string →
       forallb CType.isspace (list_ascii_of_string ws) = true →
       Regex.regex_match assignment_regex (" = NONE" +:+ ws) = Some ("NONE" +:+ ws)).
Proof. apply (capture_whitespace " = NONE" "NONE"). reflexivity. Defined.

(** A decimal point is not of the class. *)
Lemma ParseData_rejects_witness :
  Regex.regex_match assignment_regex "= 2.0" = None
  ∧ ParseData sens_state 0 "= 2.0" = Some (sens_state, false).
Proof.
  apply (ParseData_rejects sens_state 0 sens_cmd "= 2.0"); [reflexivity|].
  left. exists "."%char. split_and!; [|reflexivity|discriminate].
  simpl. do 3 right. left.
Defined.

(** SENS is at 10 and 15 is asked for. *)
Lemma ParseData_collapsed_witness :
  ParseData sens_at_10 0 "= 15"
  = Some (print sens_at_10
            [DisplayNewValue_line 0 sens_cmd 10%Z; (ByParseData 0, _help sens_cmd)],
          true).
Proof.
  apply (ParseData_collapsed sens_at_10 0 sens_cmd "= 15" "15" 15%Z
           (set_value sens_var 10%Z)).
  - reflexivity.
  - discriminate.
  - reflexivity.
  - discriminate.
  - reflexivity.
  - discriminate.
  - reflexivity.
  - discriminate.
  - reflexivity.
Defined.

Lemma ParseData_accepted_witness :
  ∃ st' out,
    ParseData sens_state 0 " = 5" = Some (st', true)
    ∧ get st' (_var sens_cmd) = Some (clamp 1 5)
    ∧ cout st' = cout sens_state ++ out
    ∧ lines_by (ByDisplayNewValue 0) out = 1
    ∧ (∀ a, lines_by (ByParseData a) out = 0)
    ∧ (∀ a, lines_by (ByDefaultParser a) out = 0).
Proof.
  apply (ParseData_accepted sens_state 0 sens_cmd " = 5" "5" 5%Z sens_var).
  - exists sens_run. reflexivity.
  - reflexivity.
  - discriminate.
  - reflexivity.
  - discriminate.
  - reflexivity.
  - discriminate.
  - reflexivity.
  - right. discriminate.
Defined.

Lemma ParseData_set_then_query_witness :
  ∃ st1,
    ParseData sens_state 0 " = 15" = Some (st1, true)
    ∧ ParseData st1 0 " "
      = Some (print st1 [(ByDefaultParser 0,
                          _displayName sens_cmd +:+ " = " +:+ stream_out (clamp 1 15))],
              true).
Proof.
  apply (ParseData_set_then_query sens_state 0 sens_cmd " = 15" "15" 15%Z sens_var " ").
  - exists sens_run. reflexivity.
  - reflexivity.
  - discriminate.
  - reflexivity.
  - discriminate.
  - reflexivity.
  - discriminate.
  - reflexivity.
  - reflexivity.
Defined.

Lemma ParseData_frame_witness :
  cmds sens_B_none = cmds sens_B ∧ next_cmd sens_B_none = next_cmd sens_B
  ∧ next_var sens_B_none = next_var sens_B
  ∧ (vars sens_B_none = vars sens_B
     ∨ (∃ x v, deref (vars sens_B) (_var sens_B_cmd) = Some x
               ∧ vars sens_B_none
                 = store (vars sens_B) (_var sens_B_cmd) (set_value x v))
     ∨ (∃ b s id x m rm,
          _parse sens_B_cmd = ModeshiftParserFn b (Some s)
          ∧ Regex.regex_match assignment_regex " = NONE" = Some "NONE"%string
          ∧ vars sens_B !! s = Some (JSMSetting id x m rm)
          ∧ vars sens_B_none = <[s := JSMSetting id x m ({[b]} ∪ rm)]> (vars sens_B))).
Proof.
  apply (ParseData_frame sens_B 1 sens_B_cmd " = NONE" sens_B_none true); reflexivity.
Defined.

(** NONE with a space behind it is not NONE: the override of SENS at B stays
    unmarked. *)
Lemma ParseData_marks_witness :
  ∃ x', vars sens_B_spaced !! 0 = Some (JSMSetting 7 x' (<[2%Z := 1]> ∅) ∅).
Proof.
  apply (ParseData_marks sens_B 1 sens_B_cmd "NONE " sens_B_spaced true
           0 7%Z sens_var (<[2%Z := 1]> ∅) ∅).
  - reflexivity.
  - reflexivity.
  - reflexivity.
  - discriminate.
Defined.

Lemma JSMAssignment_assign_spec_witness :
  ∃ st' out,
    JSMAssignment_assign sens_state 0 15%Z = Some (st', clamp 1 15)
    ∧ get st' (_var sens_cmd) = Some (clamp 1 15)
    ∧ cmds st' = cmds sens_state
    ∧ cout st' = cout sens_state ++ out
    ∧ (clamp 1 15 = 1%Z → out = [])
    ∧ (clamp 1 15 ≠ 1%Z → lines_by (ByDisplayNewValue 0) out = 1).
Proof.
  apply (JSMAssignment_assign_spec sens_state 0 sens_cmd 15%Z sens_var).
  - exists sens_run. reflexivity.
  - reflexivity.
  - reflexivity.
Defined.

Lemma DefaultParser_as_assignment_witness :
  ∃ st1 ok st2 w,
    DefaultParser sens_at_10 0 "15" = Some (st1, ok)
    ∧ JSMAssignment_assign sens_at_10 0 15%Z = Some (st2, w)
    ∧ vars st1 = vars st2 ∧ cmds st1 = cmds st2
    ∧ get st1 (_var sens_cmd) = Some w
    ∧ cout st1
      = cout st2 ++ (if decide (w = 10%Z)
                     then [DisplayNewValue_line 0 sens_cmd w] else []).
Proof.
  apply (DefaultParser_as_assignment sens_at_10 0 sens_cmd "15" 15%Z
           (set_value sens_var 10%Z)).
  - exists (sens_run ++ [Assign 0 10%Z]). reflexivity.
  - reflexivity.
  - discriminate.
  - reflexivity.
  - reflexivity.
Defined.

(** The button A, bound to X. *)
Lemma DefaultParser_mapped_to_witness :
  ∃ st' ok out,
    DefaultParser button_state 0 "X" = Some (st', ok)
    ∧ cout st' = cout button_state ++ out
    ∧ lines_by (ByDisplayNewValue 0) out = 1
    ∧ (ByDisplayNewValue 0, "A mapped to X"%string) ∈ out.
Proof.
  apply (DefaultParser_mapped_to button_state 0 button_cmd "X"
           {| eventMapping := [(0%Z, "X"%string)]; representation := "X" |} button_var).
  - exists button_run. reflexivity.
  - reflexivity.
  - discriminate.
  - reflexivity.
  - reflexivity.
Defined.

(** SENS is a setting: '+' composes nothing. *)
Lemma GetModifiedCmd_yields_iff_witness :
  ∃ st' r,
    GetModifiedCmd sens_state 0 "+" "B" = Some (st', r)
    ∧ (is_Some r ↔ composes sens_state sens_cmd "+" "B")
    ∧ (r = None → st' = sens_state).
Proof.
  apply (GetModifiedCmd_yields_iff sens_state 0 sens_cmd "+" "B").
  - exists sens_run. reflexivity.
  - reflexivity.
  - by eexists.
Defined.

Lemma GetModifiedCmd_configures_witness :
  ∃ cmd,
    cmds sens_B !! 1 = Some cmd ∧ cmds sens_state !! 1 = None
    ∧ _help cmd = _help sens_cmd
    ∧ (is_setting (skeleton <$> vars sens_state) (_var sens_cmd) →
         ∃ btn, enum_cast "B" = Some btn
           ∧ _parse cmd = ModeshiftParserFn btn (Some (_var sens_cmd))
           ∧ _taskOnDestruction cmd
             = Some (ProcessModeshiftRemovalTask (_var sens_cmd) btn))
    ∧ (is_button (skeleton <$> vars sens_state) (_var sens_cmd) →
         _parse cmd = _parse sens_cmd
         ∧ ∃ btn, enum_cast "B" = Some btn
             ∧ _taskOnDestruction cmd
               = Some (if decide (","%char = ","%char)
                       then ProcessChordRemovalTask (_var sens_cmd) btn (_var cmd)
                       else ProcessSimPressRemovalTask (_var sens_cmd) btn (_var cmd))).
Proof.
  apply (GetModifiedCmd_configures sens_state 0 sens_cmd "," "B" sens_B 1).
  - exists sens_run. reflexivity.
  - reflexivity.
  - reflexivity.
Defined.

Lemma GetModifiedCmd_silent_witness :
  cout sens_B = cout sens_state
  ∧ (∀ a v, get sens_state a = Some v → get sens_B a = Some v)
  ∧ (∀ a c', cmds sens_state !! a = Some c' → cmds sens_B !! a = Some c').
Proof.
  apply (GetModifiedCmd_silent sens_state 0 "," "B" sens_B (Some 1)).
  - exists sens_run. reflexivity.
  - reflexivity.
Defined.

Lemma GetModifiedCmd_not_nested_witness :
  GetModifiedCmd sens_B 1 "," "A" = Some (sens_B, None).
Proof.
  refine (GetModifiedCmd_not_nested sens_state 0 "," "B" sens_B 1 _ _ "," "A").
  - exists sens_run. reflexivity.
  - reflexivity.
Defined.

Lemma GetModifiedCmd_twice_witness :
  ∃ st2 d2 c1 c2,
    GetModifiedCmd sens_B 0 "," "B" = Some (st2, Some d2)
    ∧ 1 ≠ d2
    ∧ cmds st2 !! 1 = Some c1 ∧ cmds st2 !! d2 = Some c2
    ∧ _var c1 = _var c2 ∧ _name c1 = _name c2.
Proof.
  apply (GetModifiedCmd_twice sens_state 0 "," "B" sens_B 1).
  - exists sens_run. reflexivity.
  - reflexivity.
Defined.

(** A second command over SENS, constructed and destroyed. *)
Lemma new_then_delete_witness :
  ∃ st1 this st2,
    JSMAssignment_new sens_state "MIN_SENS" "SENS" 0 = Some (st1, this)
    ∧ JSMAssignment_delete st1 this = Some st2
    ∧ vars st2
      = store (vars sens_state) 0
          (set_listeners sens_var (_onChangeListeners sens_var)
             (S (_delegateID sens_var)))
    ∧ cmds st2 = cmds sens_state ∧ cout st2 = cout sens_state
    ∧ next_var st2 = next_var sens_state ∧ next_cmd st2 = S (next_cmd sens_state).
Proof.
  apply (new_then_delete sens_state "MIN_SENS" "SENS" 0 sens_var).
  - exists sens_run. reflexivity.
  - reflexivity.
Defined.

End Witnesses.
